(** * QuickScribe: the streaming session engine

    A shallow embedding of [services/audioUtils.ts] ([float32ToInt16]) and of
    [services/geminiLiveService.ts] (class [GeminiLiveService]: [connect],
    [handleMessage], [handleRuntimeError], [disconnect] and the transport
    callbacks), with the properties of the transcript segmentation, of the
    connection life cycle and of the PCM quantisation.

    JavaScript strings are sequences of UTF-16 code units; numbers are IEEE 754
    binary64 values, taken from the Standard Library's [SpecFloat].  The
    service object is a record of its fields and every method is a function
    from the record to the new record and the list of the calls it made to the
    outside (callbacks, media and transport handles), in order. *)

From Stdlib Require Import Ascii String.
From Stdlib Require Import List ZArith NArith Lia Bool.
From Stdlib Require Import Floats.SpecFloat.
From Stdlib Require Strings.Byte.
Import ListNotations.

Set Implicit Arguments.

(* ================================================================== *)
(** * JavaScript strings *)
(* ================================================================== *)

Module JS.

(** A string is its sequence of UTF-16 code units. *)
Definition jsstring := list N.

(** An ASCII literal as a JavaScript string. *)
Definition js (s : string) : jsstring :=
  map N_of_ascii (list_ascii_of_string s).

Arguments js s%_string.

(** [if (s)] on a string: every string but the empty one is truthy. *)
Definition truthy (s : jsstring) : bool :=
  match s with
  | [] => false
  | _ :: _ => true
  end.

(** The code units of ECMAScript's WhiteSpace and LineTerminator productions:
    what the regular expression class [\s] matches and what [trim] strips. *)
Definition isWhiteSpace (c : N) : bool :=
  ((9 <=? c) && (c <=? 13)            (* TAB, LF, VT, FF, CR *)
   || (c =? 32)                        (* SP *)
   || (c =? 160)                       (* NBSP *)
   || (c =? 5760)                      (* U+1680 *)
   || ((8192 <=? c) && (c <=? 8202))   (* U+2000 .. U+200A *)
   || (c =? 8232) || (c =? 8233)       (* LS, PS *)
   || (c =? 8239)                      (* U+202F *)
   || (c =? 8287)                      (* U+205F *)
   || (c =? 12288)                     (* U+3000 *)
   || (c =? 65279))%N.                 (* U+FEFF *)

Fixpoint trimStart (s : jsstring) : jsstring :=
  match s with
  | [] => []
  | c :: rest => if isWhiteSpace c then trimStart rest else s
  end.

Definition trimEnd (s : jsstring) : jsstring := rev (trimStart (rev s)).

(** [s.trim()] *)
Definition trim (s : jsstring) : jsstring := trimEnd (trimStart s).

(** [s.substring(start, end)] for [start <= end]; indices beyond the string
    are clamped to its length, as [firstn] and [skipn] do. *)
Definition substring (s : jsstring) (start end_ : nat) : jsstring :=
  firstn (end_ - start) (skipn start s).

(** [s.substring(start)] *)
Definition substringFrom (s : jsstring) (start : nat) : jsstring :=
  skipn start s.

Fixpoint startsWith (s pat : jsstring) : bool :=
  match pat, s with
  | [], _ => true
  | _ :: _, [] => false
  | p :: pat', c :: s' => (p =? c)%N && startsWith s' pat'
  end.

(** [s.includes(pat)] *)
Fixpoint includes (s pat : jsstring) : bool :=
  startsWith s pat ||
  match s with
  | [] => false
  | _ :: rest => includes rest pat
  end.

(** ** The regular expression [/([.?!])\s+/] *)

(** The character class [[.?!]]. *)
Definition isTerminal (c : N) : bool :=
  ((c =? 46) || (c =? 63) || (c =? 33))%N.

(** The result of a successful [String.prototype.match] with a regular
    expression without the [g] flag: [match.index], [match[0]], [match[1]]. *)
Record RegExpMatch := {
  index : nat;
  group0 : jsstring;
  group1 : jsstring
}.

(** The longest run of white space at the head of [s]: what a greedy [\s*]
    consumes there. *)
Fixpoint whiteSpaceRun (s : jsstring) : jsstring :=
  match s with
  | [] => []
  | c :: rest => if isWhiteSpace c then c :: whiteSpaceRun rest else []
  end.

(** The pattern tried at the head of [s]: one terminal mark captured as group
    1, then [\s+], greedy.  Nothing follows [\s+] in the pattern, so the
    matcher never backtracks into it. *)
Definition matchHere (s : jsstring) : option (jsstring * jsstring) :=
  match s with
  | [] => None
  | p :: rest =>
      if isTerminal p then
        match whiteSpaceRun rest with
        | [] => None
        | ws => Some (p :: ws, [p])
        end
      else None
  end.

Definition shiftMatch (m : RegExpMatch) : RegExpMatch :=
  {| index := S (index m); group0 := group0 m; group1 := group1 m |}.

(** [s.match(/([.?!])\s+/)]: the leftmost position where the pattern matches,
    [None] for JavaScript's [null]. *)
Fixpoint matchSentenceEnd (s : jsstring) : option RegExpMatch :=
  match matchHere s with
  | Some (m0, m1) => Some {| index := 0; group0 := m0; group1 := m1 |}
  | None =>
      match s with
      | [] => None
      | _ :: rest => option_map shiftMatch (matchSentenceEnd rest)
      end
  end.

End JS.

(* ================================================================== *)
(** * services/geminiLiveService.ts *)
(* ================================================================== *)

Module GeminiLiveService.
Import JS.

(** ** Values from the outside *)

(** The caller's callbacks are known by their identity; what the service does
    with them is recorded as a [Call]. *)
Definition TranscriptionCallback := nat.
Definition ErrorCallback := nat.

Inductive AudioContextState := suspended | running | closed.

Record AudioContext := {
  contextId : nat;
  state : AudioContextState
}.

Definition MediaStreamTrack := nat.

Record MediaStream := { getTracks : list MediaStreamTrack }.

Definition ScriptProcessorNode := nat.
Definition MediaStreamAudioSourceNode := nat.
Definition LiveSession := nat.

(** An error object, or any other value but [null] and [undefined] whose
    [message] is a string ([Some]) or is missing or another falsy value
    ([None]). *)
Record JsError := { message : option jsstring }.

(** A thrown value, typed [any] in the source.  Besides the values above
    there are [null] and [undefined], of which no property can be read, and
    the values whose [message] is truthy and not a string: [includes] is the
    method of that name of the message, if it has one that returns (an array
    has one, a number has none), given by the truthiness of its result, and
    [text] is the string that [new Error] makes of the message, if the
    conversion does not throw.  [message] is taken to be a data property. *)
Inductive Thrown :=
| errorObject (err : JsError)
| nullish
| oddMessage (includes : option (jsstring -> bool)) (text : option jsstring).

Coercion errorObject : JsError >-> Thrown.

(** [LiveServerMessage], the part of it that [handleMessage] reads. *)
Record Transcription := { text : option jsstring }.

Record LiveServerContent := {
  inputTranscription : option Transcription;
  outputTranscription : option Transcription;
  turnComplete : option bool
}.

Record LiveServerMessage := { serverContent : option LiveServerContent }.

(** Everything the service calls outside of itself. *)
Inductive Call :=
| onTranscriptionCall (cb : TranscriptionCallback) (text : jsstring) (isFinal : bool)
| onErrorCall (cb : ErrorCallback) (message : jsstring)
| getUserMediaCall
| liveConnectCall (inputLanguage outputLanguage : jsstring)
| resumeCall (ctx : AudioContext)
| connectNodesCall (src : MediaStreamAudioSourceNode) (proc : ScriptProcessorNode)
| trackStopCall (track : MediaStreamTrack)
| processorDisconnectCall (proc : ScriptProcessorNode)
| sourceDisconnectCall (src : MediaStreamAudioSourceNode)
| closeCall (ctx : AudioContext).

(** ** The fields of the class *)

Record Service := {
  session : option LiveSession;
  audioContext : option AudioContext;
  mediaStream : option MediaStream;
  processor : option ScriptProcessorNode;
  source : option MediaStreamAudioSourceNode;
  isConnected : bool;
  onTranscription : option TranscriptionCallback;
  onError : option ErrorCallback;
  currentInputText : jsstring;
  currentOutputText : jsstring
}.

(** The object as the constructor leaves it. *)
Definition newService : Service :=
  {| session := None; audioContext := None; mediaStream := None;
     processor := None; source := None; isConnected := false;
     onTranscription := None; onError := None;
     currentInputText := []; currentOutputText := [] |}.

(** Assignments [this.f = v]. *)
Definition set_session v (this : Service) : Service :=
  {| session := v; audioContext := audioContext this;
     mediaStream := mediaStream this; processor := processor this;
     source := source this; isConnected := isConnected this;
     onTranscription := onTranscription this; onError := onError this;
     currentInputText := currentInputText this;
     currentOutputText := currentOutputText this |}.

Definition set_audioContext v (this : Service) : Service :=
  {| session := session this; audioContext := v;
     mediaStream := mediaStream this; processor := processor this;
     source := source this; isConnected := isConnected this;
     onTranscription := onTranscription this; onError := onError this;
     currentInputText := currentInputText this;
     currentOutputText := currentOutputText this |}.

Definition set_mediaStream v (this : Service) : Service :=
  {| session := session this; audioContext := audioContext this;
     mediaStream := v; processor := processor this;
     source := source this; isConnected := isConnected this;
     onTranscription := onTranscription this; onError := onError this;
     currentInputText := currentInputText this;
     currentOutputText := currentOutputText this |}.

Definition set_processor v (this : Service) : Service :=
  {| session := session this; audioContext := audioContext this;
     mediaStream := mediaStream this; processor := v;
     source := source this; isConnected := isConnected this;
     onTranscription := onTranscription this; onError := onError this;
     currentInputText := currentInputText this;
     currentOutputText := currentOutputText this |}.

Definition set_source v (this : Service) : Service :=
  {| session := session this; audioContext := audioContext this;
     mediaStream := mediaStream this; processor := processor this;
     source := v; isConnected := isConnected this;
     onTranscription := onTranscription this; onError := onError this;
     currentInputText := currentInputText this;
     currentOutputText := currentOutputText this |}.

Definition set_isConnected v (this : Service) : Service :=
  {| session := session this; audioContext := audioContext this;
     mediaStream := mediaStream this; processor := processor this;
     source := source this; isConnected := v;
     onTranscription := onTranscription this; onError := onError this;
     currentInputText := currentInputText this;
     currentOutputText := currentOutputText this |}.

Definition set_onTranscription v (this : Service) : Service :=
  {| session := session this; audioContext := audioContext this;
     mediaStream := mediaStream this; processor := processor this;
     source := source this; isConnected := isConnected this;
     onTranscription := v; onError := onError this;
     currentInputText := currentInputText this;
     currentOutputText := currentOutputText this |}.

Definition set_onError v (this : Service) : Service :=
  {| session := session this; audioContext := audioContext this;
     mediaStream := mediaStream this; processor := processor this;
     source := source this; isConnected := isConnected this;
     onTranscription := onTranscription this; onError := v;
     currentInputText := currentInputText this;
     currentOutputText := currentOutputText this |}.

Definition set_currentInputText v (this : Service) : Service :=
  {| session := session this; audioContext := audioContext this;
     mediaStream := mediaStream this; processor := processor this;
     source := source this; isConnected := isConnected this;
     onTranscription := onTranscription this; onError := onError this;
     currentInputText := v;
     currentOutputText := currentOutputText this |}.

Definition set_currentOutputText v (this : Service) : Service :=
  {| session := session this; audioContext := audioContext this;
     mediaStream := mediaStream this; processor := processor this;
     source := source this; isConnected := isConnected this;
     onTranscription := onTranscription this; onError := onError this;
     currentInputText := currentInputText this;
     currentOutputText := v |}.

(** A method's outcome: the object afterwards and the calls made, in order. *)
Definition Outcome := (Service * list Call)%type.

(** ** [disconnect] *)

Definition disconnect (this : Service) : Outcome :=
  (* Finalize any pending text *)
  let flushed :=
    match onTranscription this with
    | Some cb =>
        if isConnected this && truthy (trim (currentOutputText this))
        then [onTranscriptionCall cb (trim (currentOutputText this)) true]
        else []
    | None => []
    end in
  let this := set_isConnected false this in
  let '(this, stopped) :=
    match mediaStream this with
    | Some stream => (set_mediaStream None this, map trackStopCall (getTracks stream))
    | None => (this, [])
    end in
  let '(this, unplugged) :=
    match processor this with
    | Some proc => (set_processor None this, [processorDisconnectCall proc])
    | None => (this, [])
    end in
  let '(this, detached) :=
    match source this with
    | Some src => (set_source None this, [sourceDisconnectCall src])
    | None => (this, [])
    end in
  let '(this, closing) :=
    match audioContext this with
    | Some ctx =>
        (set_audioContext None this,
         match state ctx with
         | closed => []
         | _ => [closeCall ctx]
         end)
    | None => (this, [])
    end in
  let this := set_session None this in
  let this := set_onTranscription None this in
  let this := set_onError None this in
  let this := set_currentInputText [] this in
  let this := set_currentOutputText [] this in
  (this, flushed ++ stopped ++ unplugged ++ detached ++ closing).

(** ** [handleRuntimeError] *)

Definition handleRuntimeError (this : Service) (error : jsstring) : Outcome :=
  if isConnected this then
    let reported :=
      match onError this with
      | Some cb => [onErrorCall cb error]
      | None => []
      end in
    let '(this, released) := disconnect this in
    (this, reported ++ released)
  else (this, []).

(** ** [handleMessage] *)

(** [inputTx?.text] and [outputTx?.text] used as a condition: the delta when
    it is there and truthy. *)
Definition deltaText (tx : option Transcription) : option jsstring :=
  match tx with
  | Some t =>
      match text t with
      | Some d => if truthy d then Some d else None
      | None => None
      end
  | None => None
  end.

(** [message.serverContent?.inputTranscription] *)
Definition inputTx (message : LiveServerMessage) : option Transcription :=
  match serverContent message with
  | Some content => inputTranscription content
  | None => None
  end.

(** [message.serverContent?.outputTranscription] *)
Definition outputTx (message : LiveServerMessage) : option Transcription :=
  match serverContent message with
  | Some content => outputTranscription content
  | None => None
  end.

(** [message.serverContent?.turnComplete] used as a condition. *)
Definition isTurnComplete (message : LiveServerMessage) : bool :=
  match serverContent message with
  | Some content =>
      match turnComplete content with
      | Some b => b
      | None => false
      end
  | None => false
  end.

(** The [while] loop over the sentence boundaries of the output buffer.  Each
    turn of the loop costs one unit of [fuel]; [None] stands for a loop that
    has not finished within it.  A match of a regular expression without the
    [g] flag always has its [index], so the [else] branch with its [break] is
    never taken. *)
Fixpoint finalizeSentences (fuel : nat) (cb : TranscriptionCallback)
    (currentOutputText : jsstring) : option (jsstring * list Call) :=
  match matchSentenceEnd currentOutputText with
  | None => Some (currentOutputText, [])
  | Some m =>
      match fuel with
      | O => None
      | S fuel =>
          let punctuationIndex := index m + length (group1 m) in
          let totalMatchLength := length (group0 m) in
          let completeSentence :=
            trim (substring currentOutputText 0 punctuationIndex) in
          let remainder :=
            substringFrom currentOutputText (index m + totalMatchLength) in
          let emitted :=
            if truthy completeSentence
            then [onTranscriptionCall cb completeSentence true]
            else [] in
          match finalizeSentences fuel cb remainder with
          | Some (rest, more) => Some (rest, emitted ++ more)
          | None => None
          end
      end
  end.

(** Lines 157-161: the echoed input. *)
Definition appendInput (message : LiveServerMessage) (this : Service) : Service :=
  match deltaText (inputTx message) with
  | Some d => set_currentInputText (currentInputText this ++ d) this
  | None => this
  end.

(** Lines 163-187: the translated output.  The loop is given as many turns as
    the buffer has code units. *)
Definition appendOutput (cb : TranscriptionCallback) (message : LiveServerMessage)
    (this : Service) : option Outcome :=
  match deltaText (outputTx message) with
  | Some d =>
      let this := set_currentOutputText (currentOutputText this ++ d) this in
      let this := set_currentInputText [] this in
      match finalizeSentences (length (currentOutputText this)) cb
                              (currentOutputText this) with
      | Some (rest, emitted) => Some (set_currentOutputText rest this, emitted)
      | None => None
      end
  | None => Some (this, [])
  end.

(** Lines 189-195: the end of a turn. *)
Definition completeTurn (cb : TranscriptionCallback) (message : LiveServerMessage)
    (this : Service) : Outcome :=
  if isTurnComplete message then
    let this := set_currentInputText [] this in
    if truthy (trim (currentOutputText this)) then
      (set_currentOutputText [] this,
       [onTranscriptionCall cb (trim (currentOutputText this)) true])
    else (this, [])
  else (this, []).

(** Lines 197-202: the live preview. *)
Definition livePreview (cb : TranscriptionCallback) (this : Service) : list Call :=
  if truthy (trim (currentOutputText this)) then
    [onTranscriptionCall cb (currentOutputText this) false]
  else if truthy (trim (currentInputText this)) then
    [onTranscriptionCall cb (currentInputText this) false]
  else [].

Definition handleMessage (this : Service) (message : LiveServerMessage)
    : option Outcome :=
  match onTranscription this with
  | None => Some (this, [])
  | Some cb =>
      let this := appendInput message this in
      match appendOutput cb message this with
      | None => None
      | Some (this, finals) =>
          let '(this, flushed) := completeTurn cb message this in
          Some (this, finals ++ flushed ++ livePreview cb this)
      end
  end.

(** ** [connect] *)

(** The logging to the console is left out.  The handler that the audio
    processor gets in [startAudioStreaming] (the sending of the captured
    audio) touches no field of the object and calls none of the caller's
    callbacks: it is taken up on its own further down. *)

Definition networkError : jsstring :=
  js "Network error: Unable to establish connection.".

Definition notFoundError : jsstring :=
  js "API Key Error: Requested model or project not found. You likely need a paid billing account and a valid API key.".

Definition accessDeniedError : jsstring :=
  js "API Key Error: Access denied. Ensure your API key has the correct permissions for the Live API.".

(** Lines 101-110: the text of the error handed to [onError]. *)
Definition errorMessage (err : JsError) : jsstring :=
  let hasMessage :=
    match message err with
    | Some m => truthy m
    | None => false
    end in
  let m :=
    match message err with
    | Some m => m
    | None => []
    end in
  if hasMessage && (includes m (js "404") || includes m (js "not found")) then
    notFoundError
  else if hasMessage && (includes m (js "403") || includes m (js "permission")) then
    accessDeniedError
  else if hasMessage then m
  else networkError.

(** One piece of a method after another: the calls add up. *)
Definition andThen (o : Outcome) (k : Service -> Outcome) : Outcome :=
  let '(this, calls) := o in
  let '(this', calls') := k this in
  (this', calls ++ calls').

(** Lines 101-110 for any thrown value: [None] when reading [err.message] or
    calling [err.message.includes] throws a [TypeError]; otherwise what
    [errorMessage] holds in the end, as the string that [new Error] makes of
    it ([None] when that conversion throws). *)
Definition classified (err : Thrown) : option (option jsstring) :=
  match err with
  | errorObject err => Some (Some (errorMessage err))
  | nullish => None
  | oddMessage None _ => None
  | oddMessage (Some includes) text =>
      if includes (js "404") || includes (js "not found") then
        Some (Some notFoundError)
      else if includes (js "403") || includes (js "permission") then
        Some (Some accessDeniedError)
      else Some text
  end.

(** Lines 99-113: the [catch] block, on the object as it is when the
    exception arrives.  When the block itself throws, nothing has been
    reported, [disconnect] is not reached and the object stays as it is. *)
Definition connectCatch (err : Thrown) (this : Service) : Outcome :=
  match classified err with
  | None => (this, [])
  | Some errorMessage =>
      match onError this, errorMessage with
      | Some cb, Some text => andThen (this, [onErrorCall cb text]) disconnect
      | Some cb, None => (this, [])
      | None, _ => andThen (this, []) disconnect
      end
  end.

(** Whether the [catch] block itself throws: the promise that [connect]
    returned is then rejected with that exception. *)
Definition catchThrows (err : Thrown) (this : Service) : bool :=
  match classified err with
  | None => true
  | Some errorMessage =>
      match onError this, errorMessage with
      | Some _, None => true
      | _, _ => false
      end
  end.

(** [connect] runs in three pieces, one up to each [await].

    Lines 31-46, up to [await getUserMedia]: [ctx] is the [AudioContext]
    that the constructor returns, or what [new GoogleGenAI] or
    [new AudioContext] throws. *)
Definition connectStart (onTranscription : TranscriptionCallback)
    (onError : ErrorCallback) (ctx : Thrown + AudioContext)
    (this : Service) : Outcome :=
  if isConnected this then (this, [])
  else
    let this := set_onTranscription (Some onTranscription) this in
    let this := set_onError (Some onError) this in
    let this := set_currentInputText [] this in
    let this := set_currentOutputText [] this in
    match ctx with
    | inl err => connectCatch err this
    | inr ctx => (set_audioContext (Some ctx) this, [getUserMediaCall])
    end.

(** Lines 46-97, from the microphone's stream to [await sessionPromise]:
    [thrown] is what [ai.live.connect] throws, if it does. *)
Definition connectWithStream (inputLanguage outputLanguage : jsstring)
    (stream : MediaStream) (thrown : option Thrown) (this : Service) : Outcome :=
  let this := set_mediaStream (Some stream) this in
  match thrown with
  | Some err =>
      andThen (this, [liveConnectCall inputLanguage outputLanguage])
              (connectCatch err)
  | None => (this, [liveConnectCall inputLanguage outputLanguage])
  end.

(** Line 97, once the session promise is fulfilled. *)
Definition connectWithSession (sess : LiveSession) (this : Service) : Outcome :=
  (set_session (Some sess) this, []).

(** How the set-up of one attempt goes. *)
Inductive Setup :=
| contextThrows (err : Thrown)
| microphoneRejects (ctx : AudioContext) (err : Thrown)
| channelThrows (ctx : AudioContext) (stream : MediaStream) (err : Thrown)
| channelRejects (ctx : AudioContext) (stream : MediaStream) (err : Thrown)
| established (ctx : AudioContext) (stream : MediaStream) (sess : LiveSession).

(** A call of [connect] that nothing else interleaves with. *)
Definition connect (this : Service) (inputLanguage outputLanguage : jsstring)
    (onTranscription : TranscriptionCallback) (onError : ErrorCallback)
    (setup : Setup) : Outcome :=
  if isConnected this then (this, [])
  else
    match setup with
    | contextThrows err =>
        connectStart onTranscription onError (inl err) this
    | microphoneRejects ctx err =>
        andThen (connectStart onTranscription onError (inr ctx) this)
                (connectCatch err)
    | channelThrows ctx stream err =>
        andThen (connectStart onTranscription onError (inr ctx) this)
                (connectWithStream inputLanguage outputLanguage stream (Some err))
    | channelRejects ctx stream err =>
        andThen
          (andThen (connectStart onTranscription onError (inr ctx) this)
                   (connectWithStream inputLanguage outputLanguage stream None))
          (connectCatch err)
    | established ctx stream sess =>
        andThen
          (andThen (connectStart onTranscription onError (inr ctx) this)
                   (connectWithStream inputLanguage outputLanguage stream None))
          (connectWithSession sess)
    end.

(** ** The transport callbacks given to [ai.live.connect] *)

Definition interruptedError : jsstring :=
  js "The connection was interrupted. Please check your network or API key status.".

Definition closedError : jsstring := js "Connection closed unexpectedly.".

(** [startAudioStreaming] runs in two pieces when the audio context is
    suspended: one up to [await resume()], one after it.

    Lines 124-151, on the object as it is when they run: [src] and [proc] are
    the nodes that the audio context creates.  On an object that has lost its
    audio context or its stream ([disconnect] has run since),
    [createMediaStreamSource] throws a [TypeError] and no node is made. *)
Definition createNodes (src : MediaStreamAudioSourceNode)
    (proc : ScriptProcessorNode) (this : Service) : Outcome :=
  match audioContext this, mediaStream this with
  | Some _, Some _ =>
      let this := set_source (Some src) this in
      let this := set_processor (Some proc) this in
      (this, [connectNodesCall src proc])
  | _, _ => (this, [])
  end.

(** Lines 118-122, and the rest at once if the context is not suspended. *)
Definition startAudioStreaming (src : MediaStreamAudioSourceNode)
    (proc : ScriptProcessorNode) (this : Service) : Outcome :=
  match audioContext this, mediaStream this with
  | Some ctx, Some _ =>
      match state ctx with
      | suspended => (this, [resumeCall ctx])
      | _ => createNodes src proc this
      end
  | _, _ => (this, [])
  end.

Definition onopen (src : MediaStreamAudioSourceNode) (proc : ScriptProcessorNode)
    (this : Service) : Outcome :=
  startAudioStreaming src proc (set_isConnected true this).

Definition onmessage (m : LiveServerMessage) (this : Service) : option Outcome :=
  handleMessage this m.

Definition onerror (this : Service) : Outcome :=
  if isConnected this then handleRuntimeError this interruptedError
  else (this, []).

Definition onclose (code : Z) (this : Service) : Outcome :=
  let wasConnected := isConnected this in
  let this := set_isConnected false this in
  if wasConnected && negb (code =? 1000)%Z then
    handleRuntimeError this closedError
  else (this, []).

(** ** The service as a machine *)

(** What can happen to a service object: each event is one piece of code that
    JavaScript runs to its end before the next one starts.  [resumedEv] is
    the rest of [startAudioStreaming] once [resume()] is done. *)
Inductive Event :=
| connectEv (onTranscription : TranscriptionCallback) (onError : ErrorCallback)
            (ctx : Thrown + AudioContext)
| streamEv (inputLanguage outputLanguage : jsstring) (stream : MediaStream)
           (thrown : option Thrown)
| sessionEv (sess : LiveSession)
| rejectEv (err : Thrown)
| disconnectEv
| onopenEv (src : MediaStreamAudioSourceNode) (proc : ScriptProcessorNode)
| onmessageEv (m : LiveServerMessage)
| onerrorEv
| oncloseEv (code : Z)
| resumedEv (src : MediaStreamAudioSourceNode) (proc : ScriptProcessorNode).

Definition step (this : Service) (e : Event) : option Outcome :=
  match e with
  | connectEv onT onE ctx => Some (connectStart onT onE ctx this)
  | streamEv il ol stream thrown => Some (connectWithStream il ol stream thrown this)
  | sessionEv sess => Some (connectWithSession sess this)
  | rejectEv err => Some (connectCatch err this)
  | disconnectEv => Some (disconnect this)
  | onopenEv src proc => Some (onopen src proc this)
  | onmessageEv m => onmessage m this
  | onerrorEv => Some (onerror this)
  | oncloseEv code => Some (onclose code this)
  | resumedEv src proc => Some (createNodes src proc this)
  end.

Fixpoint run (this : Service) (events : list Event) : option Outcome :=
  match events with
  | [] => Some (this, [])
  | e :: rest =>
      match step this e with
      | None => None
      | Some (this, calls) =>
          match run this rest with
          | None => None
          | Some (this', calls') => Some (this', calls ++ calls')
          end
      end
  end.

(** The final segments among the calls, and the previews. *)
Definition finalSegments (calls : list Call) : list jsstring :=
  flat_map (fun c =>
    match c with
    | onTranscriptionCall _ t true => [t]
    | _ => []
    end) calls.

Definition previews (calls : list Call) : list jsstring :=
  flat_map (fun c =>
    match c with
    | onTranscriptionCall _ t false => [t]
    | _ => []
    end) calls.

(** A call of one of the caller's callbacks. *)
Definition isCallback (c : Call) : bool :=
  match c with
  | onTranscriptionCall _ _ _ | onErrorCall _ _ => true
  | _ => false
  end.

(** A message with an output-translation delta, one with an input-echo delta
    and one with the turn-complete marker only. *)
Definition outputDelta (d : jsstring) : LiveServerMessage :=
  {| serverContent := Some
       {| inputTranscription := None;
          outputTranscription := Some {| text := Some d |};
          turnComplete := None |} |}.

Definition inputDelta (d : jsstring) : LiveServerMessage :=
  {| serverContent := Some
       {| inputTranscription := Some {| text := Some d |};
          outputTranscription := None;
          turnComplete := None |} |}.

Definition turnCompleteMarker : LiveServerMessage :=
  {| serverContent := Some
       {| inputTranscription := None;
          outputTranscription := None;
          turnComplete := Some true |} |}.

(** A final segment and a preview handed to the callback [cb]. *)
Definition final (cb : TranscriptionCallback) (t : jsstring) : Call :=
  onTranscriptionCall cb t true.

Definition preview (cb : TranscriptionCallback) (t : jsstring) : Call :=
  onTranscriptionCall cb t false.

(** The calls that release what the object holds. *)
Definition releases (this : Service) : list Call :=
  match mediaStream this with
  | Some stream => map trackStopCall (getTracks stream)
  | None => []
  end ++
  match processor this with
  | Some proc => [processorDisconnectCall proc]
  | None => []
  end ++
  match source this with
  | Some src => [sourceDisconnectCall src]
  | None => []
  end ++
  match audioContext this with
  | Some ctx =>
      match state ctx with
      | closed => []
      | _ => [closeCall ctx]
      end
  | None => []
  end.

(** No call of [connect] among the events. *)
Definition noConnect (events : list Event) : bool :=
  forallb (fun e =>
    match e with
    | connectEv _ _ _ => false
    | _ => true
    end) events.

(** Calls that reach none of the caller's callbacks. *)
Definition quiet (calls : list Call) : bool :=
  forallb (fun c => negb (isCallback c)) calls.

(** The error that a set-up ends with, if it fails. *)
Definition setupError (setup : Setup) : option Thrown :=
  match setup with
  | contextThrows err
  | microphoneRejects _ err
  | channelThrows _ _ err
  | channelRejects _ _ err => Some err
  | established _ _ _ => None
  end.

(** ** A session to try things on *)

Definition aContext : AudioContext := {| contextId := 0; state := running |}.
Definition aStream : MediaStream := {| getTracks := [0] |}.

(** The object once [connect] has returned and the channel has opened, with
    the callbacks [1] and [2] registered. *)
Definition listening : Service :=
  fst (onopen 0 0
         (fst (connect newService (js "Swiss German") (js "Standard German")
                       1 2 (established aContext aStream 0)))).

End GeminiLiveService.

(* ================================================================== *)
(** * services/audioUtils.ts *)
(* ================================================================== *)

Module AudioUtils.

(** ** JavaScript numbers: IEEE 754 binary64 *)

Definition prec : Z := 53.
Definition emax : Z := 1024.

(** The number that an integer literal denotes (exact below [2^53]). *)
Definition ofInteger (z : Z) : spec_float := binary_normalize prec emax z 0 false.

Definition one : spec_float := Eval cbv in ofInteger 1.
Definition minusOne : spec_float := Eval cbv in ofInteger (-1).
Definition zero : spec_float := S754_zero false.
Definition minusZero : spec_float := S754_zero true.
Definition x8000 : spec_float := Eval cbv in ofInteger 32768.
Definition x7fff : spec_float := Eval cbv in ofInteger 32767.
Definition half : spec_float := Eval cbv in SFdiv prec emax (ofInteger 1) (ofInteger 2).
Definition minusHalf : spec_float := Eval cbv in SFopp half.
Definition infinity : spec_float := S754_infinity false.
Definition minusInfinity : spec_float := S754_infinity true.

Definition isNaN (x : spec_float) : bool :=
  match x with
  | S754_nan => true
  | _ => false
  end.

Definition isZero (negative : bool) (x : spec_float) : bool :=
  match x with
  | S754_zero s => Bool.eqb s negative
  | _ => false
  end.

(** [x < y] and [x * y] on numbers. *)
Definition lt (x y : spec_float) : bool := SFltb x y.
Definition mul (x y : spec_float) : spec_float := SFmul prec emax x y.

(** [Math.min] as ECMAScript gives it: [NaN] if an argument is; [-0] below
    [+0]; the running minimum starts at [+Infinity]. *)
Fixpoint minFrom (lowest : spec_float) (coerced : list spec_float) : spec_float :=
  match coerced with
  | [] => lowest
  | number :: rest =>
      if isNaN number then S754_nan
      else
        let lowest :=
          if isZero true number && isZero false lowest then minusZero
          else lowest in
        let lowest := if lt number lowest then number else lowest in
        minFrom lowest rest
  end.

Definition Math_min (a b : spec_float) : spec_float := minFrom infinity [a; b].

(** [Math.max]: [NaN] if an argument is; [+0] above [-0]; the running maximum
    starts at [-Infinity]. *)
Fixpoint maxFrom (highest : spec_float) (coerced : list spec_float) : spec_float :=
  match coerced with
  | [] => highest
  | number :: rest =>
      if isNaN number then S754_nan
      else
        let highest :=
          if isZero false number && isZero true highest then zero
          else highest in
        let highest := if lt highest number then number else highest in
        maxFrom highest rest
  end.

Definition Math_max (a b : spec_float) : spec_float := maxFrom minusInfinity [a; b].

(** The mathematical value of a finite number with its fraction dropped:
    ECMAScript's [truncate]. *)
Definition truncate (x : spec_float) : Z :=
  match x with
  | S754_finite s m e =>
      let magnitude := Z.shiftl (Zpos m) e in
      if s then (- magnitude)%Z else magnitude
  | _ => 0%Z
  end.

(** ECMAScript's [ToInt16]: what a store into an [Int16Array] keeps of a
    number. *)
Definition ToInt16 (x : spec_float) : Z :=
  match x with
  | S754_finite _ _ _ =>
      let int := truncate x in
      let int16bit := (int mod 65536)%Z in
      if (32768 <=? int16bit)%Z then (int16bit - 65536)%Z else int16bit
  | _ => 0%Z
  end.

(** ** [float32ToInt16] *)

(** Line 5: the clamped sample. *)
Definition clamp (sample : spec_float) : spec_float :=
  Math_max minusOne (Math_min one sample).

(** Line 6: the value of the conditional expression. *)
Definition scaled (sample : spec_float) : spec_float :=
  let s := clamp sample in
  if lt s zero then mul s x8000 else mul s x7fff.

(** Lines 5-6: one turn of the loop, the value stored at index [i]. *)
Definition quantize (sample : spec_float) : Z := ToInt16 (scaled sample).

(** The array is a list of its elements; an element of a [Float32Array] reads
    as the binary64 number of the same value. *)
Fixpoint float32ToInt16 (float32Array : list spec_float) : list Z :=
  match float32Array with
  | [] => []
  | sample :: rest => quantize sample :: float32ToInt16 rest
  end.

End AudioUtils.

(* ================================================================== *)
(** * Sentence boundaries, as the specification words them *)
(* ================================================================== *)

Module Segmentation.
Import JS.

(** A string of white space only (the empty string is one). *)
Definition blank (s : jsstring) : bool := forallb isWhiteSpace s.

(** Somewhere in [s] a terminal punctuation mark is followed by white space. *)
Definition hasBoundary (s : jsstring) : Prop :=
  exists pre p w post,
    s = pre ++ p :: w :: post /\ isTerminal p = true /\ isWhiteSpace w = true.

(** [firstBoundary s sentence remainder]: [sentence] is the text of [s] up to
    and including the first terminal punctuation mark that is followed by
    white space, and [remainder] is what comes after that white space. *)
Inductive firstBoundary : jsstring -> jsstring -> jsstring -> Prop :=
| FirstBoundary (pre : jsstring) (p : N) (ws remainder : jsstring) :
    isTerminal p = true ->
    ws <> [] ->
    blank ws = true ->
    (forall c r, remainder = c :: r -> isWhiteSpace c = false) ->
    ~ hasBoundary (pre ++ [p]) ->
    firstBoundary (pre ++ p :: ws ++ remainder) (pre ++ [p]) remainder.

(** [sentencesOf s sentences rest]: scanning [s] boundary after boundary
    yields the trimmed [sentences], in order, and leaves [rest], in which no
    boundary remains. *)
Inductive sentencesOf : jsstring -> list jsstring -> jsstring -> Prop :=
| NoMore (s : jsstring) :
    ~ hasBoundary s -> sentencesOf s [] s
| OneMore (s sentence remainder : jsstring) (sentences : list jsstring)
          (rest : jsstring) :
    firstBoundary s sentence remainder ->
    sentencesOf remainder sentences rest ->
    sentencesOf s (trim sentence :: sentences) rest.

(** A text that is neither empty nor white space only. *)
Definition solid (t : jsstring) : Prop := t <> [] /\ blank t = false.

(** Every final segment among the calls is solid. *)
Definition solidFinals (calls : list GeminiLiveService.Call) : Prop :=
  Forall solid (GeminiLiveService.finalSegments calls).

(** The failure message indicates unauthorized or resource-not-found: it
    contains "404" or "not found", or "403" or "permission". *)
Definition indicatesCredentialFailure (m : jsstring) : bool :=
  includes m (js "404") || includes m (js "not found")
  || includes m (js "403") || includes m (js "permission").

End Segmentation.

(* ================================================================== *)
(** * The audio on the wire *)
(* ================================================================== *)

Module AudioWire.
Import JS.

(** ** [base64EncodeAudio] *)

(** The two bytes that an element of an [Int16Array] takes in its buffer:
    two's complement, low byte first (typed arrays have the byte order of
    the platform, little-endian wherever browsers run). *)
Definition int16Bytes (v : Z) : list N :=
  let u := (v mod 65536)%Z in
  [Z.to_N (u mod 256); Z.to_N (u / 256)].

(** The bytes that elements take, one after the other. *)
Definition elementBytes (elements : list Z) : list N :=
  flat_map int16Bytes elements.

(** An [Int16Array] is a view on an [ArrayBuffer]: [length] elements of two
    bytes each, from the byte [byteOffset] of [buffer] on.  The buffer may
    hold more than the array shows ([subarray], or an array made on a buffer
    that was there). *)
Module Int16Array.
Record t := {
  buffer : list Byte.byte;
  byteOffset : nat;
  length : nat
}.
End Int16Array.

(** The byte of a number below 256. *)
Definition byteOf (n : N) : Byte.byte :=
  match Byte.of_N n with
  | Some b => b
  | None => Byte.x00
  end.

(** An array that owns its buffer, with the given elements: what
    [new Int16Array(n)] makes, once its elements are assigned. *)
Definition owned (elements : list Z) : Int16Array.t :=
  {| Int16Array.buffer := map byteOf (elementBytes elements);
     Int16Array.byteOffset := 0;
     Int16Array.length := length elements |}.

(** [new Uint8Array(int16Array.buffer)]: every byte of the buffer, whatever
    part of it the array shows. *)
Definition bufferBytes (int16Array : Int16Array.t) : list N :=
  map Byte.to_N (Int16Array.buffer int16Array).

(** [String.fromCharCode(n)]: the code unit [n mod 2^16]. *)
Definition fromCharCode (n : N) : N := (n mod 65536)%N.

(** Lines 13-18: the loop that builds the binary string. *)
Fixpoint binaryString (bytes : list N) : jsstring :=
  match bytes with
  | [] => []
  | b :: rest => fromCharCode b :: binaryString rest
  end.

(** The base64 alphabet of RFC 4648: the character of a 6-bit value. *)
Definition base64Char (sextet : N) : N :=
  (if sextet <? 26 then 65 + sextet
   else if sextet <? 52 then 97 + (sextet - 26)
   else if sextet <? 62 then 48 + (sextet - 52)
   else if sextet =? 62 then 43
   else 47)%N.

Definition padding : N := 61%N.

(** Base64 of a sequence of bytes, three bytes to four characters, with
    padding. *)
Fixpoint base64 (bytes : list N) : jsstring :=
  match bytes with
  | [] => []
  | [a] =>
      [base64Char (a / 4); base64Char ((a mod 4) * 16); padding; padding]%N
  | [a; b] =>
      [base64Char (a / 4); base64Char ((a mod 4) * 16 + b / 16);
       base64Char ((b mod 16) * 4); padding]%N
  | a :: b :: c :: rest =>
      ([base64Char (a / 4); base64Char ((a mod 4) * 16 + b / 16);
        base64Char ((b mod 16) * 4 + c / 64); base64Char (c mod 64)]
       ++ base64 rest)%N
  end.

(** [btoa(data)]: an [InvalidCharacterError] ([None]) if a code unit of
    [data] is above 255, the base64 of the bytes otherwise. *)
Definition btoa (data : jsstring) : option jsstring :=
  if forallb (fun c => c <? 256)%N data then Some (base64 data) else None.

Definition base64EncodeAudio (int16Array : Int16Array.t) : option jsstring :=
  let binary := binaryString (bufferBytes int16Array) in
  btoa binary.

(** ** The receiving side, as RFC 4648 and the PCM format have it *)

(** The 6-bit value of a character of the alphabet. *)
Definition sextetOf (c : N) : option N :=
  (if (65 <=? c) && (c <=? 90) then Some (c - 65)
   else if (97 <=? c) && (c <=? 122) then Some (c - 97 + 26)
   else if (48 <=? c) && (c <=? 57) then Some (c - 48 + 52)
   else if c =? 43 then Some 62
   else if c =? 47 then Some 63
   else None)%N.

(** The bytes of four characters: three of them, or fewer before padding. *)
Definition decodeQuad (c1 c2 c3 c4 : N) : option (list N) :=
  match sextetOf c1, sextetOf c2 with
  | Some s1, Some s2 =>
      if (c3 =? padding)%N && (c4 =? padding)%N then
        Some [s1 * 4 + s2 / 16]%N
      else
        match sextetOf c3 with
        | Some s3 =>
            if (c4 =? padding)%N then
              Some [s1 * 4 + s2 / 16; (s2 mod 16) * 16 + s3 / 4]%N
            else
              match sextetOf c4 with
              | Some s4 =>
                  Some [s1 * 4 + s2 / 16; (s2 mod 16) * 16 + s3 / 4;
                        (s3 mod 4) * 64 + s4]%N
              | None => None
              end
        | None => None
        end
  | _, _ => None
  end.

(** Decoding of base64 with padding; padding may only end the text. *)
Fixpoint decodeBase64 (s : jsstring) : option (list N) :=
  match s with
  | [] => Some []
  | c1 :: c2 :: c3 :: c4 :: rest =>
      match decodeQuad c1 c2 c3 c4 with
      | Some bytes =>
          match rest with
          | [] => Some bytes
          | _ :: _ =>
              if (c4 =? padding)%N then None
              else
                match decodeBase64 rest with
                | Some more => Some (bytes ++ more)
                | None => None
                end
          end
      | None => None
      end
  | _ => None
  end.

(** The signed 16-bit value of two bytes, low byte first. *)
Definition int16OfBytes (low high : N) : Z :=
  let u := (Z.of_N low + 256 * Z.of_N high)%Z in
  if (32768 <=? u)%Z then (u - 65536)%Z else u.

(** The samples of a PCM byte sequence; [None] if a byte is left over. *)
Fixpoint samplesOfBytes (bytes : list N) : option (list Z) :=
  match bytes with
  | [] => Some []
  | low :: high :: rest =>
      match samplesOfBytes rest with
      | Some more => Some (int16OfBytes low high :: more)
      | None => None
      end
  | _ => None
  end.

(** What the receiver reads in the [data] of a frame. *)
Definition decodeAudio (data : jsstring) : option (list Z) :=
  match decodeBase64 data with
  | Some bytes => samplesOfBytes bytes
  | None => None
  end.

(** The elements that an array shows: [int16Array[0]], [int16Array[1]], ... *)
Definition elements (int16Array : Int16Array.t) : list Z :=
  match samplesOfBytes
          (firstn (2 * Int16Array.length int16Array)
                  (skipn (Int16Array.byteOffset int16Array)
                         (bufferBytes int16Array))) with
  | Some shown => shown
  | None => []
  end.

(** A view of two elements on a buffer of four. *)
Definition aView : Int16Array.t :=
  {| Int16Array.buffer := map byteOf (elementBytes [1; 2; 3; 4]%Z);
     Int16Array.byteOffset := 2;
     Int16Array.length := 2 |}.

(** A byte. *)
Definition isByte (b : N) : Prop := (b < 256)%N.

(** What an element of an [Int16Array] can be. *)
Definition isInt16 (v : Z) : Prop := (-32768 <= v <= 32767)%Z.

(** The characters that base64 text is made of. *)
Definition isBase64Char (c : N) : bool :=
  match sextetOf c with
  | Some _ => true
  | None => false
  end.

(** Only the alphabet, and padding only at the end: at most two. *)
Definition isBase64Text (s : jsstring) : Prop :=
  exists body pad,
    s = body ++ pad /\
    Forall (fun c => isBase64Char c = true) body /\
    (pad = [] \/ pad = [padding] \/ pad = [padding; padding]).

End AudioWire.

(* ================================================================== *)
(** * Notions for the properties of the service *)
(* ================================================================== *)

Module ServiceProperties.
Import JS Segmentation GeminiLiveService.

(** The code units of a text that are not white space, in order. *)
Definition nonSpace (s : jsstring) : jsstring :=
  filter (fun c => negb (isWhiteSpace c)) s.

(** The output delta that a message carries, the empty text if none. *)
Definition outputDeltaOf (message : LiveServerMessage) : jsstring :=
  match deltaText (outputTx message) with
  | Some d => d
  | None => []
  end.

(** The input delta that a message carries, the empty text if none. *)
Definition inputDeltaOf (message : LiveServerMessage) : jsstring :=
  match deltaText (inputTx message) with
  | Some d => d
  | None => []
  end.

(** What holds of the object between two events, whatever happened before. *)
Definition settled (this : Service) : Prop :=
  ~ hasBoundary (currentOutputText this) /\
  (onTranscription this = None ->
   currentInputText this = [] /\ currentOutputText this = []) /\
  (onTranscription this = None <-> onError this = None).

(** No opening of the channel among the events. *)
Definition noOpen (events : list Event) : bool :=
  forallb (fun e =>
    match e with
    | onopenEv _ _ => false
    | _ => true
    end) events.

(** Only transport errors and close events. *)
Definition onlyFailures (events : list Event) : bool :=
  forallb (fun e =>
    match e with
    | onerrorEv | oncloseEv _ => true
    | _ => false
    end) events.

End ServiceProperties.

(* ================================================================== *)
(** * The sending of the captured audio *)
(* ================================================================== *)

Module AudioStreaming.
Import JS GeminiLiveService AudioUtils AudioWire.

(** ** The handler of the audio processor in [startAudioStreaming] *)

(** The [media] of a realtime input. *)
Record Media := {
  mimeType : jsstring;
  data : jsstring
}.

(** Lines 127-133, up to [sessionPromise.then]: the frame made of one buffer
    of captured samples, if the service is connected; an exception in the
    handler makes no frame either.  [float32ToInt16] returns a new
    [Int16Array], which owns its buffer. *)
Definition onaudioprocess (inputData : list spec_float) (this : Service)
    : option Media :=
  if negb (isConnected this) then None
  else
    let int16Data := owned (float32ToInt16 inputData) in
    match base64EncodeAudio int16Data with
    | Some base64Data =>
        Some {| mimeType := js "audio/pcm;rate=16000"; data := base64Data |}
    | None => None
    end.

(** Lines 135-147, once the session promise is fulfilled: what is handed to
    [session.sendRealtimeInput], on the object as it is by then. *)
Definition sendWhenReady (media : Media) (this : Service) : list Media :=
  if negb (isConnected this) then [] else [media].

End AudioStreaming.

(* ================================================================== *)
(** * The sessions and their storage *)
(* ================================================================== *)

Module Types.
Import JS.

(** * types.ts *)

Module TranscriptSegment.
Record t := {
  id : jsstring;
  text : jsstring;
  timestamp : Z;
  isFinal : bool
}.
End TranscriptSegment.

Module Session.
Record t := {
  id : jsstring;
  name : jsstring;
  createdAt : Z;
  updatedAt : Z;
  inputLanguage : jsstring;
  outputLanguage : jsstring;
  segments : list TranscriptSegment.t
}.
End Session.

Inductive ConnectionStatus := DISCONNECTED | CONNECTING | CONNECTED | ERROR.

(** [a === b] on strings. *)
Fixpoint strictEquals (a b : jsstring) : bool :=
  match a, b with
  | [], [] => true
  | x :: a', y :: b' => (x =? y)%N && strictEquals a' b'
  | _, _ => false
  end.

End Types.

Module Storage.
Import JS Types.

(** * services/storage.ts *)

(** What [localStorage] holds under the key "quick_scribe_sessions", as
    [JSON.parse] reads it.  A session is made of strings, integers, booleans
    and arrays of such, which [JSON.stringify] and [JSON.parse] carry
    unchanged. *)
Inductive Item :=
| missing                                (* no item, or the empty text *)
| malformed                              (* a text that [JSON.parse] rejects *)
| notAnArray                             (* the JSON of an object, a number, a string, a boolean or null *)
| sessionsOf (sessions : list Session.t) (* the JSON of an array of sessions *).

(** What [loadSessions] returns: it is typed [Session[]], yet it is whatever
    [JSON.parse] gives. *)
Inductive Loaded :=
| array (sessions : list Session.t)
| other.

Definition loadSessions (store : Item) : Loaded :=
  match store with
  | missing => array []
  | malformed => array []
  | notAnArray => other
  | sessionsOf sessions => array sessions
  end.

(** [sessions.findIndex(p)]: the first index where [p] holds, or -1. *)
Fixpoint findIndexFrom {A : Type} (p : A -> bool) (i : Z) (l : list A) : Z :=
  match l with
  | [] => (-1)%Z
  | x :: rest => if p x then i else findIndexFrom p (i + 1) rest
  end.

Definition findIndex {A : Type} (p : A -> bool) (l : list A) : Z :=
  findIndexFrom p 0 l.

(** [sessions[index] = v] for an index within the array (an index that
    [findIndex] returned is). *)
Fixpoint assign {A : Type} (l : list A) (index : nat) (v : A) : list A :=
  match l, index with
  | [], _ => []
  | _ :: rest, O => v :: rest
  | x :: rest, S index => x :: assign rest index v
  end.

(** A method of the array called on something that is not an array throws a
    [TypeError]: [None]; nothing is stored then. *)
Definition saveSession (session : Session.t) (store : Item) : option Item :=
  match loadSessions store with
  | other => None
  | array sessions =>
      let index :=
        findIndex (fun s => strictEquals (Session.id s) (Session.id session))
                  sessions in
      let sessions :=
        if (0 <=? index)%Z then assign sessions (Z.to_nat index) session
        else session :: sessions in
      Some (sessionsOf sessions)
  end.

(** [createSession]; [now] is [Date.now()], [uuid] is [crypto.randomUUID()]
    and [localeString] is [new Date().toLocaleString()]. *)
Definition createSession (now : Z) (uuid localeString : jsstring) (store : Item)
    : option (Session.t * Item) :=
  let newSession :=
    {| Session.id := uuid;
       Session.name := js "Session " ++ localeString;
       Session.createdAt := now;
       Session.updatedAt := now;
       Session.inputLanguage := js "Swiss German";
       Session.outputLanguage := js "Standard German";
       Session.segments := [] |} in
  match saveSession newSession store with
  | Some store => Some (newSession, store)
  | None => None
  end.

Definition deleteSession (id : jsstring) (store : Item) : option Item :=
  match loadSessions store with
  | other => None
  | array loaded =>
      let sessions :=
        filter (fun s => negb (strictEquals (Session.id s) id)) loaded in
      Some (sessionsOf sessions)
  end.

(** The class [[a-z0-9]] under the flag [i]: the ASCII letters and digits (a
    code unit from 128 on never matches an ASCII letter when case is
    ignored). *)
Definition isAlphanumeric (c : N) : bool :=
  ((97 <=? c) && (c <=? 122) || (65 <=? c) && (c <=? 90)
   || (48 <=? c) && (c <=? 57))%N.

(** [name.replace(/[^a-z0-9]/gi, '_')] *)
Definition replaceOthers (name : jsstring) : jsstring :=
  map (fun c => if isAlphanumeric c then c else 95%N) name.

(** [toLowerCase] on ASCII code units, which is all that [replaceOthers]
    leaves. *)
Definition toLowerCase (s : jsstring) : jsstring :=
  map (fun c => if (65 <=? c) && (c <=? 90) then c + 32 else c)%N s.

(** The [download] attribute that [downloadSessionJson] sets. *)
Definition downloadName (session : Session.t) : jsstring :=
  toLowerCase (replaceOthers (Session.name session)) ++ js ".json".

(** The ids of the sessions, in order. *)
Definition ids (sessions : list Session.t) : list jsstring :=
  map Session.id sessions.

(** [sessions.find(s => s.id === id)] *)
Definition findById (id : jsstring) (sessions : list Session.t)
    : option Session.t :=
  find (fun s => strictEquals (Session.id s) id) sessions.

(** The sessions with another id than [id], in order. *)
Definition others (id : jsstring) (sessions : list Session.t) : list Session.t :=
  filter (fun s => negb (strictEquals (Session.id s) id)) sessions.

(** What [saveSession] makes of the array: the first session with the id of
    [session] replaced by it. *)
Fixpoint replaceFirst (session : Session.t) (sessions : list Session.t)
    : list Session.t :=
  match sessions with
  | [] => []
  | s :: rest =>
      if strictEquals (Session.id s) (Session.id session) then session :: rest
      else s :: replaceFirst session rest
  end.

(** Some session of the array has the id [id]. *)
Definition hasId (id : jsstring) (sessions : list Session.t) : bool :=
  existsb (fun s => strictEquals (Session.id s) id) sessions.

(** A character of a safe file name: a lower-case ASCII letter, a digit or
    the underscore. *)
Definition isSafeChar (c : N) : bool :=
  ((97 <=? c) && (c <=? 122) || (48 <=? c) && (c <=? 57) || (c =? 95))%N.

(** Sessions to try things on. *)
Definition aSession : Session.t :=
  {| Session.id := js "a"; Session.name := js "Session A";
     Session.createdAt := 1; Session.updatedAt := 1;
     Session.inputLanguage := js "Swiss German";
     Session.outputLanguage := js "Standard German";
     Session.segments := [] |}.

Definition bSession : Session.t :=
  {| Session.id := js "b"; Session.name := js "Session B";
     Session.createdAt := 2; Session.updatedAt := 2;
     Session.inputLanguage := js "English";
     Session.outputLanguage := js "French";
     Session.segments := [] |}.

End Storage.

(* ================================================================== *)
(** * The page *)
(* ================================================================== *)

Module App.
Import JS Types Storage.

(** * App.tsx *)

(** The state of the component. *)
Record State := {
  sessions : list Session.t;
  selectedSessionId : option jsstring;
  isSidebarOpen : bool
}.

(** The component together with the item of [localStorage] it works on. *)
Definition World := (State * Item)%type.

(** Lines 8-14: the first render and its effect.  When the item holds the
    JSON of something that is not an array, [sessions.find] throws in the
    render that follows: [None]. *)
Definition mount (store : Item) : option State :=
  match loadSessions store with
  | array loaded =>
      Some {| sessions := loaded; selectedSessionId := None;
              isSidebarOpen := false |}
  | other => None
  end.

(** The handlers, each on the state of the last render.  A handler whose call
    into the storage throws has set no state by then: [None]. *)
Definition handleCreateSession (now : Z) (uuid localeString : jsstring)
    (w : World) : option World :=
  let '(st, store) := w in
  match createSession now uuid localeString store with
  | Some (newSession, store) =>
      Some ({| sessions := newSession :: sessions st;
               selectedSessionId := Some (Session.id newSession);
               isSidebarOpen := false |}, store)
  | None => None
  end.

Definition handleDeleteSession (id : jsstring) (w : World) : option World :=
  let '(st, store) := w in
  match deleteSession id store with
  | Some store =>
      Some ({| sessions :=
                 filter (fun s => negb (strictEquals (Session.id s) id))
                        (sessions st);
               selectedSessionId :=
                 match selectedSessionId st with
                 | Some selected =>
                     if strictEquals selected id then None else Some selected
                 | None => None
                 end;
               isSidebarOpen := isSidebarOpen st |}, store)
  | None => None
  end.

Definition handleSelectSession (id : jsstring) (w : World) : World :=
  let '(st, store) := w in
  ({| sessions := sessions st; selectedSessionId := Some id;
      isSidebarOpen := false |}, store).

Definition handleUpdateSession (updatedSession : Session.t) (w : World)
    : option World :=
  let '(st, store) := w in
  match saveSession updatedSession store with
  | Some store =>
      Some ({| sessions :=
                 map (fun s =>
                        if strictEquals (Session.id s) (Session.id updatedSession)
                        then updatedSession else s)
                     (sessions st);
               selectedSessionId := selectedSessionId st;
               isSidebarOpen := isSidebarOpen st |}, store)
  | None => None
  end.

(** [setIsSidebarOpen(open)], from the menu button, the overlay and the
    button that closes the side bar. *)
Definition setIsSidebarOpen (open : bool) (w : World) : World :=
  let '(st, store) := w in
  ({| sessions := sessions st; selectedSessionId := selectedSessionId st;
      isSidebarOpen := open |}, store).

(** Line 42: [sessions.find(s => s.id === selectedSessionId)]; no id is
    [null]. *)
Definition selectedSession (st : State) : option Session.t :=
  match selectedSessionId st with
  | Some id => find (fun s => strictEquals (Session.id s) id) (sessions st)
  | None => None
  end.

(** What the user and the view of the selected session can ask of the
    component. *)
Inductive Action :=
| create (now : Z) (uuid localeString : jsstring)
| delete (id : jsstring)
| select (id : jsstring)
| update (updatedSession : Session.t)
| sidebar (open : bool).

Definition handle (a : Action) (w : World) : option World :=
  match a with
  | create now uuid localeString => handleCreateSession now uuid localeString w
  | delete id => handleDeleteSession id w
  | select id => Some (handleSelectSession id w)
  | update updatedSession => handleUpdateSession updatedSession w
  | sidebar open => Some (setIsSidebarOpen open w)
  end.

Fixpoint handleAll (actions : list Action) (w : World) : option World :=
  match actions with
  | [] => Some w
  | a :: rest =>
      match handle a w with
      | Some w => handleAll rest w
      | None => None
      end
  end.

(** The actions that the rendered page offers: a new session gets an id that
    no listed session has; the side bar selects listed sessions, and the view
    updates the session it shows, which is a listed one. *)
Definition offered (a : Action) (st : State) : bool :=
  match a with
  | create _ uuid _ => negb (hasId uuid (sessions st))
  | delete _ => true
  | select id => hasId id (sessions st)
  | update updatedSession => hasId (Session.id updatedSession) (sessions st)
  | sidebar _ => true
  end.

Fixpoint offeredAll (actions : list Action) (w : World) : bool :=
  match actions with
  | [] => true
  | a :: rest =>
      offered a (fst w) &&
      match handle a w with
      | Some w => offeredAll rest w
      | None => true
      end
  end.

(** [onUpdate] of the view is [handleUpdateSession] (line 76): the updates of
    the view, in order. *)
Definition forward (updates : list Session.t) (w : World) : option World :=
  handleAll (map update updates) w.

(** The component agrees with the storage: the storage reads as the listed
    sessions, their ids are unique, and the selected id, if any, is
    listed. *)
Definition inSync (w : World) : Prop :=
  loadSessions (snd w) = array (sessions (fst w)) /\
  NoDup (ids (sessions (fst w))) /\
  (forall id, selectedSessionId (fst w) = Some id ->
              hasId id (sessions (fst w)) = true).

End App.

(* ================================================================== *)
(** * The view of a session *)
(* ================================================================== *)

Module SessionView.
Import JS Types.

(** * components/SessionView.tsx *)

(** The state and the refs of the component ([geminiServiceRef] holds the
    service object, which is kept beside the view; [onUpdateRef] holds
    [handleUpdateSession] of [App], whose calls are listed as updates). *)
Record View := {
  isRecording : bool;
  status : ConnectionStatus;
  liveTranscript : jsstring;
  name : jsstring;
  renderedSegments : list TranscriptSegment.t;
  justFinalizedIds : list jsstring;
  sessionRef : Session.t;
  localSegmentsRef : list TranscriptSegment.t
}.

Definition set_isRecording b (v : View) : View :=
  {| isRecording := b; status := status v;
     liveTranscript := liveTranscript v; name := name v;
     renderedSegments := renderedSegments v;
     justFinalizedIds := justFinalizedIds v;
     sessionRef := sessionRef v; localSegmentsRef := localSegmentsRef v |}.

Definition set_status s (v : View) : View :=
  {| isRecording := isRecording v; status := s;
     liveTranscript := liveTranscript v; name := name v;
     renderedSegments := renderedSegments v;
     justFinalizedIds := justFinalizedIds v;
     sessionRef := sessionRef v; localSegmentsRef := localSegmentsRef v |}.

Definition set_liveTranscript t (v : View) : View :=
  {| isRecording := isRecording v; status := status v;
     liveTranscript := t; name := name v;
     renderedSegments := renderedSegments v;
     justFinalizedIds := justFinalizedIds v;
     sessionRef := sessionRef v; localSegmentsRef := localSegmentsRef v |}.

Definition set_renderedSegments l (v : View) : View :=
  {| isRecording := isRecording v; status := status v;
     liveTranscript := liveTranscript v; name := name v;
     renderedSegments := l;
     justFinalizedIds := justFinalizedIds v;
     sessionRef := sessionRef v; localSegmentsRef := localSegmentsRef v |}.

Definition set_justFinalizedIds l (v : View) : View :=
  {| isRecording := isRecording v; status := status v;
     liveTranscript := liveTranscript v; name := name v;
     renderedSegments := renderedSegments v;
     justFinalizedIds := l;
     sessionRef := sessionRef v; localSegmentsRef := localSegmentsRef v |}.

Definition set_sessionRef s (v : View) : View :=
  {| isRecording := isRecording v; status := status v;
     liveTranscript := liveTranscript v; name := name v;
     renderedSegments := renderedSegments v;
     justFinalizedIds := justFinalizedIds v;
     sessionRef := s; localSegmentsRef := localSegmentsRef v |}.

Definition set_localSegmentsRef l (v : View) : View :=
  {| isRecording := isRecording v; status := status v;
     liveTranscript := liveTranscript v; name := name v;
     renderedSegments := renderedSegments v;
     justFinalizedIds := justFinalizedIds v;
     sessionRef := sessionRef v; localSegmentsRef := l |}.

(** Lines 38-50: the component as it is mounted for a session ([App] gives it
    the key [session.id], so another session gets another component). *)
Definition mountView (session : Session.t) : View :=
  {| isRecording := false; status := DISCONNECTED; liveTranscript := [];
     name := Session.name session;
     renderedSegments := Session.segments session;
     justFinalizedIds := [];
     sessionRef := session;
     localSegmentsRef := Session.segments session |}.

(** Lines 53-55: the effect of a render with a new [session]. *)
Definition render (session : Session.t) (v : View) : View :=
  set_sessionRef session v.

(** What one run of [handleTranscription] takes from its environment:
    [crypto.randomUUID()] and the two readings of [Date.now()]. *)
Record Fresh := {
  newId : jsstring;
  timestamp : Z;
  updatedAt : Z
}.

(** [next.add(newId)] on a copy of the set. *)
Definition add (id : jsstring) (set : list jsstring) : list jsstring :=
  if existsb (strictEquals id) set then set else set ++ [id].

(** Lines 93-135.  The result lists the calls of [onUpdateRef.current].  The
    timer that takes the id out of [justFinalizedIds] a second later is left
    out. *)
Definition handleTranscription (fresh : Fresh) (text : jsstring) (isFinal : bool)
    (v : View) : View * list Session.t :=
  if isFinal then
    let currentSegments := localSegmentsRef v in
    let newSegment :=
      {| TranscriptSegment.id := newId fresh;
         TranscriptSegment.text := trim text;
         TranscriptSegment.timestamp := timestamp fresh;
         TranscriptSegment.isFinal := true |} in
    let updatedSegments := currentSegments ++ [newSegment] in
    let v := set_localSegmentsRef updatedSegments v in
    let v := set_justFinalizedIds (add (newId fresh) (justFinalizedIds v)) v in
    let v := set_renderedSegments updatedSegments v in
    let v := set_liveTranscript [] v in
    let updatedSession :=
      {| Session.id := Session.id (sessionRef v);
         Session.name := Session.name (sessionRef v);
         Session.createdAt := Session.createdAt (sessionRef v);
         Session.updatedAt := updatedAt fresh;
         Session.inputLanguage := Session.inputLanguage (sessionRef v);
         Session.outputLanguage := Session.outputLanguage (sessionRef v);
         Session.segments := updatedSegments |} in
    (v, [updatedSession])
  else (set_liveTranscript text v, []).

(** Lines 137-152, as far as the state goes (the rest logs, alerts or asks for
    a key). *)
Definition handleError (v : View) : View :=
  set_isRecording false (set_status ERROR v).

(** The calls of the service object arriving at the view: [connect] is given
    [handleTranscription] and [handleError] (lines 173-178), so these are the
    callbacks that the object holds.  [env k] is what the [k]-th run for a
    final segment takes from its environment.  No render happens in between:
    the calls come from one run of a method of the service. *)
Fixpoint deliver (env : nat -> Fresh) (k : nat)
    (calls : list GeminiLiveService.Call) (v : View) : View * list Session.t :=
  match calls with
  | [] => (v, [])
  | GeminiLiveService.onTranscriptionCall _ text isFinal :: rest =>
      let '(v, updates) := handleTranscription (env k) text isFinal v in
      let '(v, more) := deliver env (if isFinal then S k else k) rest v in
      (v, updates ++ more)
  | GeminiLiveService.onErrorCall _ _ :: rest =>
      deliver env k rest (handleError v)
  | _ :: rest => deliver env k rest v
  end.

(** [{ ...sessionRef.current, updatedAt: Date.now() }] *)
Definition touched (now : Z) (session : Session.t) : Session.t :=
  {| Session.id := Session.id session;
     Session.name := Session.name session;
     Session.createdAt := Session.createdAt session;
     Session.updatedAt := now;
     Session.inputLanguage := Session.inputLanguage session;
     Session.outputLanguage := Session.outputLanguage session;
     Session.segments := Session.segments session |}.

(** Lines 154-187: [toggleRecording], up to the call of [connect] when a
    recording starts (there, once the key has been asked for where that
    applies).  A recording that stops gives the view, the service object and
    the calls of [onUpdateRef.current]. *)
Inductive Toggled :=
| stopped (v : View) (this : GeminiLiveService.Service)
          (updates : list Session.t)
| starting (v : View).

Definition toggleRecording (env : nat -> Fresh) (now : Z) (v : View)
    (this : GeminiLiveService.Service) : Toggled :=
  if isRecording v then
    let '(this, calls) := GeminiLiveService.disconnect this in
    let '(v, updates) := deliver env 0 calls v in
    let v := set_isRecording false v in
    let v := set_status DISCONNECTED v in
    let v := set_liveTranscript [] v in
    stopped v this (updates ++ [touched now (sessionRef v)])
  else starting (set_status CONNECTING v).

(** Lines 77-81: the clean-up when the component is taken off the page. *)
Definition cleanup (env : nat -> Fresh) (v : View)
    (this : GeminiLiveService.Service)
    : View * GeminiLiveService.Service * list Session.t :=
  let '(this, calls) := GeminiLiveService.disconnect this in
  let '(v, updates) := deliver env 0 calls v in
  (v, this, updates).

(** Lines 213-221; [now] is [Date.now()]. *)
Definition segmentsToDisplay (now : Z) (v : View) : list TranscriptSegment.t :=
  renderedSegments v ++
  (if truthy (liveTranscript v)
   then [{| TranscriptSegment.id := js "live-pending";
            TranscriptSegment.text := liveTranscript v;
            TranscriptSegment.timestamp := now;
            TranscriptSegment.isFinal := false |}]
   else []).

(** The texts of segments. *)
Definition texts (segments : list TranscriptSegment.t) : list jsstring :=
  map TranscriptSegment.text segments.

(** An environment and a service object to try things on: the object of
    [listening] with a text that waits in its output buffer. *)
Definition anEnv (k : nat) : Fresh :=
  {| newId := js "segment"; timestamp := Z.of_nat k; updatedAt := Z.of_nat k |}.

Definition pending : GeminiLiveService.Service :=
  GeminiLiveService.set_currentOutputText (js "Guten Tag")
    GeminiLiveService.listening.

End SessionView.

(* ================================================================== *)
(** * Facts about strings *)
(* ================================================================== *)

Module JSFacts.
Import JS Segmentation.

Lemma firstn_length_app {A : Type} (a b : list A) : firstn (length a) (a ++ b) = a.
Proof. induction a as [|x a IH]; simpl; [now destruct b | now rewrite IH]. Qed.

Lemma skipn_length_app {A : Type} (a b : list A) : skipn (length a) (a ++ b) = b.
Proof. induction a as [|x a IH]; simpl; [reflexivity | exact IH]. Qed.

Lemma truthy_nil (s : jsstring) : truthy s = false <-> s = [].
Proof. destruct s; simpl; split; congruence. Qed.

Lemma blank_app (s t : jsstring) : blank (s ++ t) = blank s && blank t.
Proof. apply forallb_app. Qed.

Lemma blank_rev (s : jsstring) : blank (rev s) = blank s.
Proof.
  induction s as [|c s IH]; simpl; [reflexivity|].
  rewrite blank_app, IH. simpl. rewrite andb_true_r. apply andb_comm.
Qed.

Lemma trimStart_blank (s : jsstring) : blank (trimStart s) = blank s.
Proof.
  induction s as [|c s IH]; simpl; [reflexivity|].
  destruct (isWhiteSpace c) eqn:Hc; simpl; [exact IH|].
  now rewrite Hc.
Qed.

Lemma trimStart_truthy (s : jsstring) : truthy (trimStart s) = negb (blank s).
Proof.
  induction s as [|c s IH]; simpl; [reflexivity|].
  destruct (isWhiteSpace c); simpl; [exact IH | reflexivity].
Qed.

Lemma truthy_rev (s : jsstring) : truthy (rev s) = truthy s.
Proof.
  destruct s as [|c s]; simpl; [reflexivity|].
  destruct (rev s); reflexivity.
Qed.

Lemma trimEnd_truthy (s : jsstring) : truthy (trimEnd s) = negb (blank s).
Proof.
  unfold trimEnd. now rewrite truthy_rev, trimStart_truthy, blank_rev.
Qed.

Lemma trimEnd_blank (s : jsstring) : blank (trimEnd s) = blank s.
Proof.
  unfold trimEnd. now rewrite blank_rev, trimStart_blank, blank_rev.
Qed.

(** [trim] leaves something exactly when the string is not blank. *)
Lemma trim_truthy (s : jsstring) : truthy (trim s) = negb (blank s).
Proof. unfold trim. now rewrite trimEnd_truthy, trimStart_blank. Qed.

Lemma trim_blank (s : jsstring) : blank (trim s) = blank s.
Proof. unfold trim. now rewrite trimEnd_blank, trimStart_blank. Qed.

(** What [trim] leaves is never white space only, unless it is empty. *)
Lemma trim_truthy_not_blank (s : jsstring) :
  truthy (trim s) = true -> blank (trim s) = false.
Proof.
  rewrite trim_blank, trim_truthy. now destruct (blank s).
Qed.

Lemma trimStart_fixed (s : jsstring) :
  (forall c r, s = c :: r -> isWhiteSpace c = false) -> trimStart s = s.
Proof.
  destruct s as [|c r]; simpl; [reflexivity|].
  intros H. now rewrite (H c r eq_refl).
Qed.

Lemma trimStart_head (s : jsstring) (c : N) (r : jsstring) :
  trimStart s = c :: r -> isWhiteSpace c = false.
Proof.
  induction s as [|d s IH]; simpl; [discriminate|].
  destruct (isWhiteSpace d) eqn:Hd; [exact IH|].
  intros [= -> _]. exact Hd.
Qed.

Lemma trimStart_idem (s : jsstring) : trimStart (trimStart s) = trimStart s.
Proof.
  apply trimStart_fixed. intros c r. apply trimStart_head.
Qed.

Lemma trimEnd_idem (s : jsstring) : trimEnd (trimEnd s) = trimEnd s.
Proof.
  unfold trimEnd. now rewrite rev_involutive, trimStart_idem.
Qed.

(** A terminal punctuation mark is not white space. *)
Lemma terminal_not_space (c : N) : isTerminal c = true -> isWhiteSpace c = false.
Proof.
  unfold isTerminal. rewrite !orb_true_iff, !N.eqb_eq.
  intros [[-> | ->] | ->]; reflexivity.
Qed.

Lemma sentence_not_blank (pre : jsstring) (p : N) :
  isTerminal p = true -> truthy (trim (pre ++ [p])) = true.
Proof.
  intros Hp. rewrite trim_truthy, blank_app. simpl.
  rewrite (terminal_not_space p Hp). simpl. now rewrite andb_false_r.
Qed.

(** ** The white space that [\s+] takes *)

Lemma whiteSpaceRun_split (s : jsstring) :
  exists rest,
    s = whiteSpaceRun s ++ rest /\
    blank (whiteSpaceRun s) = true /\
    (forall c r, rest = c :: r -> isWhiteSpace c = false).
Proof.
  induction s as [|c s (rest & Hs & Hb & Hr)]; simpl.
  - exists []. split; [reflexivity | split; [reflexivity | discriminate]].
  - destruct (isWhiteSpace c) eqn:Hc.
    + exists rest. simpl. rewrite Hc, Hb.
      split; [congruence | split; [reflexivity | exact Hr]].
    + exists (c :: s). split; [reflexivity | split; [reflexivity |]].
      now intros c' r [= <- _].
Qed.

Lemma whiteSpaceRun_nil (s : jsstring) :
  whiteSpaceRun s = [] -> forall c r, s = c :: r -> isWhiteSpace c = false.
Proof.
  intros H c r ->. simpl in H. now destruct (isWhiteSpace c).
Qed.

(** ** [matchHere] and [matchSentenceEnd] *)

Lemma matchHere_Some (s m0 m1 : jsstring) :
  matchHere s = Some (m0, m1) ->
  exists p ws rest,
    s = p :: ws ++ rest /\ m0 = p :: ws /\ m1 = [p] /\
    isTerminal p = true /\ ws <> [] /\ blank ws = true /\
    (forall c r, rest = c :: r -> isWhiteSpace c = false).
Proof.
  destruct s as [|p s]; simpl; [discriminate|].
  destruct (isTerminal p) eqn:Hp; [|discriminate].
  destruct (whiteSpaceRun_split s) as (rest & Hs & Hb & Hr).
  destruct (whiteSpaceRun s) as [|w ws] eqn:Hrun; [discriminate|].
  intros [= <- <-]. exists p, (w :: ws), rest.
  repeat split; try assumption; try congruence.
Qed.

Lemma matchHere_None (p w : N) (post : jsstring) :
  matchHere (p :: w :: post) = None ->
  isTerminal p = true -> isWhiteSpace w = true -> False.
Proof.
  simpl. intros H Hp Hw. rewrite Hp, Hw in H. discriminate.
Qed.

Lemma hasBoundary_cons (c : N) (s : jsstring) :
  hasBoundary (c :: s) ->
  (exists w post, s = w :: post /\ isTerminal c = true /\ isWhiteSpace w = true)
  \/ hasBoundary s.
Proof.
  intros (pre & p & w & post & Hs & Hp & Hw).
  destruct pre as [|c' pre]; simpl in Hs; injection Hs as Hc Hs; subst.
  - left. now exists w, post.
  - right. now exists pre, p, w, post.
Qed.

Lemma matchSentenceEnd_None (s : jsstring) :
  matchSentenceEnd s = None -> ~ hasBoundary s.
Proof.
  induction s as [|c s IH]; intros H Hb.
  - destruct Hb as (pre & p & w & post & Hs & _). now destruct pre.
  - cbn [matchSentenceEnd] in H.
    destruct (matchHere (c :: s)) as [[m0 m1]|] eqn:Hhere; [discriminate|].
    destruct (matchSentenceEnd s) eqn:Hrest; [discriminate|].
    destruct (hasBoundary_cons Hb) as [(w & post & -> & Hp & Hw) | Hb'].
    + exact (matchHere_None _ _ _ Hhere Hp Hw).
    + now apply IH.
Qed.

(** The match is the first boundary, with all the white space after it. *)
Lemma matchSentenceEnd_Some (s : jsstring) (m : RegExpMatch) :
  matchSentenceEnd s = Some m ->
  exists pre p ws rest,
    s = pre ++ p :: ws ++ rest /\
    index m = length pre /\ group0 m = p :: ws /\ group1 m = [p] /\
    isTerminal p = true /\ ws <> [] /\ blank ws = true /\
    (forall c r, rest = c :: r -> isWhiteSpace c = false) /\
    ~ hasBoundary (pre ++ [p]).
Proof.
  revert m. induction s as [|c s IH]; intros m H; [discriminate|].
  cbn [matchSentenceEnd] in H.
  destruct (matchHere (c :: s)) as [[m0 m1]|] eqn:Hhere.
  - injection H as <-.
    destruct (matchHere_Some _ Hhere) as (p & ws & rest & Hs & -> & -> & Hp & Hne & Hb & Hr).
    exists [], p, ws, rest. simpl. repeat split; try assumption.
    intros (pre & q & w & post & Hq & _).
    destruct pre as [|? [|? ?]]; discriminate.
  - destruct (matchSentenceEnd s) as [m'|] eqn:Hrest; [|discriminate].
    injection H as <-.
    destruct (IH m' eq_refl) as (pre & p & ws & rest & Hs & Hi & H0 & H1 & Hp & Hne & Hb & Hr & Hnb).
    exists (c :: pre), p, ws, rest. simpl.
    repeat split; try assumption; try congruence.
    intros Hcb. destruct (hasBoundary_cons Hcb) as [(w & post & Hw & Hc & Hws) | Hb']; [|tauto].
    (* [c] itself would be a boundary of [c :: s], where [matchHere] failed *)
    assert (exists post', s = w :: post') as (post' & ->).
    { rewrite Hs. destruct pre as [|q pre]; simpl in Hw |- *.
      - injection Hw as <- _. eauto.
      - injection Hw as <- _. eauto. }
    exact (matchHere_None _ _ _ Hhere Hc Hws).
Qed.

(** ** The scan has one outcome only *)

Lemma hasBoundary_tail (c : N) (s : jsstring) :
  hasBoundary s -> hasBoundary (c :: s).
Proof.
  intros (pre & p & w & post & -> & Hp & Hw). now exists (c :: pre), p, w, post.
Qed.

Lemma firstBoundary_hasBoundary (s sentence remainder : jsstring) :
  firstBoundary s sentence remainder -> hasBoundary s.
Proof.
  intros [pre p ws rem Hp Hne Hb _ _].
  destruct ws as [|w ws]; [congruence|].
  simpl in Hb. apply andb_true_iff in Hb as [Hw _].
  now exists pre, p, w, (ws ++ rem).
Qed.

(** A boundary of the string cannot lie before the end of a prefix that has
    none. *)
Lemma boundary_after_prefix (pre' : jsstring) :
  forall (pre : jsstring) (p w : N) (post : jsstring) (p' : N) (post' : jsstring),
    pre ++ p :: w :: post = pre' ++ p' :: post' ->
    isTerminal p = true -> isWhiteSpace w = true ->
    ~ hasBoundary (pre' ++ [p']) ->
    exists k, pre = pre' ++ k.
Proof.
  induction pre' as [|c pre' IH]; intros pre p w post p' post' Heq Hp Hw Hnb.
  - now exists pre.
  - destruct pre as [|c0 pre]; simpl in Heq; injection Heq as Hc Heq; subst.
    + exfalso. apply Hnb.
      destruct pre' as [|d pre']; simpl in Heq; injection Heq as Hd Heq; subst.
      * now exists [], c, p', [].
      * now exists [], c, d, (pre' ++ [p']).
    + destruct (IH pre p w post p' post' Heq Hp Hw) as (k & ->).
      * intros Hb. apply Hnb. now apply hasBoundary_tail.
      * now exists k.
Qed.

Lemma whiteSpaceRun_exact (ws rest : jsstring) :
  blank ws = true ->
  (forall c r, rest = c :: r -> isWhiteSpace c = false) ->
  whiteSpaceRun (ws ++ rest) = ws.
Proof.
  intros Hb Hr. induction ws as [|w ws IH]; simpl in *.
  - destruct rest as [|c r]; simpl; [reflexivity|].
    now rewrite (Hr c r eq_refl).
  - apply andb_true_iff in Hb as [Hw Hb]. rewrite Hw. now rewrite IH.
Qed.

Lemma firstBoundary_functional (s a r a' r' : jsstring) :
  firstBoundary s a r -> firstBoundary s a' r' -> a = a' /\ r = r'.
Proof.
  intros H H'. destruct H as [pre p ws rem Hp Hne Hb Hr Hnb].
  remember (pre ++ p :: ws ++ rem) as s eqn:Hs.
  destruct H' as [pre' p' ws' rem' Hp' Hne' Hb' Hr' Hnb'].
  destruct ws as [|w ws]; [congruence|].
  destruct ws' as [|w' ws']; [congruence|].
  assert (Hw : isWhiteSpace w = true)
    by (simpl in Hb; now apply andb_true_iff in Hb).
  assert (Hw' : isWhiteSpace w' = true)
    by (simpl in Hb'; now apply andb_true_iff in Hb').
  destruct (boundary_after_prefix pre pre' p' w' (ws' ++ rem') p
              ((w :: ws) ++ rem) Hs Hp' Hw' Hnb) as (k' & Hk').
  destruct (boundary_after_prefix pre' pre p w (ws ++ rem) p'
              ((w' :: ws') ++ rem') (eq_sym Hs) Hp Hw Hnb') as (k & Hk).
  assert (Hpre : pre = pre').
  { rewrite Hk in Hk'. rewrite <- app_assoc in Hk'.
    apply (f_equal (@length N)) in Hk'. rewrite !length_app in Hk'.
    destruct k as [|? ?]; [|simpl in Hk'; lia].
    now rewrite app_nil_r in Hk. }
  clear Hk Hk'. subst pre'. apply app_inv_head in Hs.
  assert (Hpp : p' = p) by (simpl in Hs; congruence).
  assert (Htail : (w' :: ws') ++ rem' = (w :: ws) ++ rem)
    by (simpl in Hs |- *; congruence).
  pose proof (@whiteSpaceRun_exact _ _ Hb Hr) as E.
  pose proof (@whiteSpaceRun_exact _ _ Hb' Hr') as E'.
  rewrite Htail, E in E'. rewrite <- E' in Htail.
  apply app_inv_head in Htail. now subst.
Qed.

Lemma sentencesOf_functional (s : jsstring) (ss : list jsstring) (r : jsstring) :
  sentencesOf s ss r ->
  forall (ss' : list jsstring) (r' : jsstring),
    sentencesOf s ss' r' -> ss' = ss /\ r' = r.
Proof.
  induction 1 as [s Hnb | s a rem ss r Hfirst Hrest IH]; intros ss' r' H'.
  - destruct H' as [s _ | s a' rem' ss' r' Hfirst' _]; [now split|].
    exfalso. now apply Hnb, (firstBoundary_hasBoundary Hfirst').
  - destruct H' as [s Hnb | s a' rem' ss' r' Hfirst' Hrest'].
    + exfalso. now apply Hnb, (firstBoundary_hasBoundary Hfirst).
    + destruct (firstBoundary_functional Hfirst Hfirst') as [-> ->].
      destruct (IH ss' r' Hrest') as [-> ->]. now split.
Qed.

End JSFacts.

(* ================================================================== *)
(** * Facts about the service *)
(* ================================================================== *)

Module ServiceFacts.
Import JS Segmentation JSFacts GeminiLiveService.

(** ** The loop over the sentence boundaries *)

(** With a turn for every code unit of the buffer the loop runs to its end,
    and it emits the sentences that the specification describes. *)
Lemma finalizeSentences_spec (cb : TranscriptionCallback) (fuel : nat) :
  forall s : jsstring,
    length s <= fuel ->
    exists sentences rest,
      finalizeSentences fuel cb s = Some (rest, map (final cb) sentences) /\
      sentencesOf s sentences rest.
Proof.
  induction fuel as [|fuel IH]; intros s Hlen.
  - destruct s; [|simpl in Hlen; lia].
    exists [], []. split; [reflexivity|].
    apply NoMore. now apply matchSentenceEnd_None.
  - cbn [finalizeSentences].
    destruct (matchSentenceEnd s) as [m|] eqn:Hm.
    + destruct (matchSentenceEnd_Some _ Hm)
        as (pre & p & ws & rest & Hs & Hi & H0 & H1 & Hp & Hne & Hb & Hr & Hnb).
      rewrite Hi, H0, H1.
      assert (Hsentence : substring s 0 (length pre + length [p]) = pre ++ [p]).
      { unfold substring. simpl skipn. rewrite Nat.sub_0_r, Hs.
        change (p :: ws ++ rest) with ([p] ++ ws ++ rest).
        rewrite app_assoc, <- length_app. apply firstn_length_app. }
      assert (Hremainder : substringFrom s (length pre + length (p :: ws)) = rest).
      { unfold substringFrom. rewrite Hs.
        change (p :: ws ++ rest) with ((p :: ws) ++ rest).
        rewrite app_assoc, <- length_app. apply skipn_length_app. }
      rewrite Hsentence, Hremainder, (sentence_not_blank pre p Hp).
      destruct (IH rest) as (sentences & final_rest & Hrun & Hspec).
      { rewrite Hs in Hlen. rewrite length_app in Hlen. simpl in Hlen.
        rewrite length_app in Hlen. lia. }
      rewrite Hrun.
      exists (trim (pre ++ [p]) :: sentences), final_rest.
      split; [reflexivity|].
      apply OneMore with (remainder := rest); [|exact Hspec].
      rewrite Hs. now constructor.
    + exists [], s. split; [reflexivity|].
      apply NoMore. now apply matchSentenceEnd_None.
Qed.

(** ** The pieces of [handleMessage] *)

Lemma appendOutput_delta (cb : TranscriptionCallback) (message : LiveServerMessage)
    (this : Service) (d : jsstring) :
  deltaText (outputTx message) = Some d ->
  exists sentences rest,
    appendOutput cb message this =
      Some (set_currentOutputText rest
              (set_currentInputText []
                 (set_currentOutputText (currentOutputText this ++ d) this)),
            map (final cb) sentences) /\
    sentencesOf (currentOutputText this ++ d) sentences rest.
Proof.
  intros Hd. unfold appendOutput. rewrite Hd. cbn zeta.
  destruct (finalizeSentences_spec cb (fuel := length (currentOutputText this ++ d))
              (currentOutputText this ++ d) (le_n _))
    as (sentences & rest & Hrun & Hspec).
  exists sentences, rest. split; [|exact Hspec].
  cbn [currentOutputText set_currentOutputText set_currentInputText].
  now rewrite Hrun.
Qed.

Lemma appendOutput_no_delta (cb : TranscriptionCallback) (message : LiveServerMessage)
    (this : Service) :
  deltaText (outputTx message) = None ->
  appendOutput cb message this = Some (this, []).
Proof. intros Hd. unfold appendOutput. now rewrite Hd. Qed.

(** [handleMessage] always runs to its end. *)
Lemma handleMessage_total (this : Service) (message : LiveServerMessage) :
  exists this' calls, handleMessage this message = Some (this', calls).
Proof.
  unfold handleMessage. destruct (onTranscription this) as [cb|]; [|eauto].
  destruct (deltaText (outputTx message)) as [d|] eqn:Hd.
  - destruct (appendOutput_delta cb message (appendInput message this) Hd)
      as (ss & rest & -> & _).
    destruct (completeTurn cb message _) as [this' flushed]. eauto.
  - rewrite (appendOutput_no_delta cb message _ Hd).
    destruct (completeTurn cb message _) as [this' flushed]. eauto.
Qed.

(** ** Final segments and previews among the calls *)

Lemma finalSegments_app (a b : list Call) :
  finalSegments (a ++ b) = finalSegments a ++ finalSegments b.
Proof. apply flat_map_app. Qed.

Lemma previews_app (a b : list Call) :
  previews (a ++ b) = previews a ++ previews b.
Proof. apply flat_map_app. Qed.

Lemma finalSegments_finals (cb : TranscriptionCallback) (ts : list jsstring) :
  finalSegments (map (final cb) ts) = ts.
Proof. induction ts as [|t ts IH]; simpl; congruence. Qed.

Lemma previews_finals (cb : TranscriptionCallback) (ts : list jsstring) :
  previews (map (final cb) ts) = [].
Proof. induction ts as [|t ts IH]; simpl; congruence. Qed.

(** ** [disconnect] *)

(** Whatever the object held, [disconnect] leaves it as the constructor did. *)
Lemma disconnect_state (this : Service) : fst (disconnect this) = newService.
Proof.
  unfold disconnect.
  destruct this as [se ac ms pr so ic ot oe it out].
  destruct ms, pr, so, ac; reflexivity.
Qed.

Lemma releases_no_callback (this : Service) :
  forallb (fun c => negb (isCallback c)) (releases this) = true.
Proof.
  unfold releases. rewrite !forallb_app.
  destruct (mediaStream this) as [[tracks]|], (processor this), (source this),
    (audioContext this) as [[i []]|]; simpl; rewrite ?andb_true_r;
    try reflexivity; induction tracks; simpl; auto.
Qed.

Lemma disconnect_calls (this : Service) :
  snd (disconnect this) =
  match onTranscription this with
  | Some cb =>
      if isConnected this && negb (blank (currentOutputText this))
      then [final cb (trim (currentOutputText this))]
      else []
  | None => []
  end ++ releases this.
Proof.
  unfold disconnect, releases. rewrite trim_truthy.
  destruct this as [se ac ms pr so ic ot oe it out].
  destruct ms, pr, so, ac; reflexivity.
Qed.

Lemma quiet_app (a b : list Call) : quiet (a ++ b) = quiet a && quiet b.
Proof. apply forallb_app. Qed.

Lemma quiet_no_finals (calls : list Call) :
  quiet calls = true -> finalSegments calls = [].
Proof.
  induction calls as [|c calls IH]; simpl; [reflexivity|].
  rewrite andb_true_iff. intros [Hc Hrest].
  destruct c; try discriminate; simpl; auto.
Qed.

Lemma releases_no_finals (this : Service) : finalSegments (releases this) = [].
Proof. apply quiet_no_finals, releases_no_callback. Qed.

(** With no transcription callback registered, [disconnect] reaches no
    callback. *)
Lemma disconnect_quiet (this : Service) :
  onTranscription this = None -> quiet (snd (disconnect this)) = true.
Proof.
  intros H. rewrite disconnect_calls, H. apply releases_no_callback.
Qed.

Lemma disconnect_eq (this : Service) :
  disconnect this = (newService, snd (disconnect this)).
Proof.
  rewrite <- (disconnect_state this). now destruct (disconnect this).
Qed.

Lemma connectCatch_eq (err : JsError) (this : Service) :
  connectCatch err this =
    (newService,
     match onError this with
     | Some cb => [onErrorCall cb (errorMessage err)]
     | None => []
     end ++ snd (disconnect this)).
Proof.
  unfold connectCatch, andThen. cbn [classified]. rewrite (disconnect_eq this).
  now destruct (onError this).
Qed.

(** The [catch] block either throws, and the object stays as it is, or it
    reports at most once, and [disconnect] runs. *)
Lemma connectCatch_cases (err : Thrown) (this : Service) :
  (catchThrows err this = true /\ connectCatch err this = (this, [])) \/
  (catchThrows err this = false /\
   exists reported,
     connectCatch err this = (newService, reported ++ snd (disconnect this)) /\
     (reported = [] \/
      exists cb text, onError this = Some cb /\
                      classified err = Some (Some text) /\
                      reported = [onErrorCall cb text])).
Proof.
  unfold connectCatch, catchThrows, andThen. rewrite (disconnect_eq this).
  destruct (classified err) as [[text|]|]; [| |now left];
    destruct (onError this) as [cb|]; try (now left); right;
    (split; [reflexivity|]).
  - exists [onErrorCall cb text]. split; [reflexivity|]. right. now exists cb, text.
  - exists []. split; [reflexivity | now left].
  - exists []. split; [reflexivity | now left].
Qed.

Lemma handleRuntimeError_eq (this : Service) (error : jsstring) :
  handleRuntimeError this error =
    if isConnected this then
      (newService,
       match onError this with
       | Some cb => [onErrorCall cb error]
       | None => []
       end ++ snd (disconnect this))
    else (this, []).
Proof.
  unfold handleRuntimeError. destruct (isConnected this); [|reflexivity].
  now rewrite (disconnect_eq this).
Qed.

End ServiceFacts.

(* ================================================================== *)
(** * The segmentation of the transcript *)
(* ================================================================== *)

Import JS Segmentation JSFacts GeminiLiveService ServiceFacts.

Unset Implicit Arguments.

Lemma appendInput_output (message : LiveServerMessage) (this : Service) :
  currentOutputText (appendInput message this) = currentOutputText this.
Proof. unfold appendInput. now destruct (deltaText (inputTx message)). Qed.

Lemma appendInput_callback (message : LiveServerMessage) (this : Service) :
  onTranscription (appendInput message this) = onTranscription this.
Proof. unfold appendInput. now destruct (deltaText (inputTx message)). Qed.

(** What [handleMessage] does with a message that carries an output delta:
    the sentences of the buffer, then the flush of a completed turn or else
    the preview of what is left. *)
Lemma handleMessage_delta (this : Service) (cb : TranscriptionCallback)
    (message : LiveServerMessage) (d : jsstring) :
  onTranscription this = Some cb ->
  deltaText (outputTx message) = Some d ->
  exists sentences rest this',
    sentencesOf (currentOutputText this ++ d) sentences rest /\
    handleMessage this message =
      Some (this',
            map (final cb) sentences ++
            (if isTurnComplete message
             then (if blank rest then [] else [final cb (trim rest)])
             else (if blank rest then [] else [preview cb rest]))) /\
    currentInputText this' = [] /\
    currentOutputText this' =
      (if isTurnComplete message
       then (if blank rest then rest else [])
       else rest).
Proof.
  intros Hcb Hd. unfold handleMessage. rewrite Hcb.
  destruct (appendOutput_delta cb message (appendInput message this) Hd)
    as (sentences & rest & Hrun & Hspec).
  rewrite appendInput_output in Hspec. rewrite Hrun.
  exists sentences, rest.
  unfold completeTurn, livePreview.
  destruct (isTurnComplete message);
    cbn [currentOutputText currentInputText set_currentOutputText
         set_currentInputText];
    rewrite !trim_truthy; destruct (blank rest) eqn:Hrest;
    cbn [negb currentOutputText currentInputText set_currentOutputText
         set_currentInputText];
    rewrite ?trim_truthy, ?Hrest; cbn [negb blank forallb app];
    eexists; (split; [exact Hspec|]); (split; [reflexivity|]); split; reflexivity.
Qed.

(** C1.  A message with an output-translation delta appends the delta and
    scans the buffer boundary after boundary: each sentence up to and
    including its terminal punctuation mark, trimmed, is emitted as one final
    segment and the buffer keeps what follows the matched white space (the
    scan has one outcome only, and the calls are exactly these); unless
    the turn is completed by the same message, what is left is the new buffer
    and its preview follows if it is not blank.  The delta
    "Hello world. How are you? " on an empty buffer yields the final segments
    "Hello world." and "How are you?", in this order, and nothing else. *)
Theorem C1_sentences_finalized :
  (forall (this : Service) (cb : TranscriptionCallback)
          (message : LiveServerMessage) (d : jsstring),
      onTranscription this = Some cb ->
      deltaText (outputTx message) = Some d ->
      exists sentences rest this',
        sentencesOf (currentOutputText this ++ d) sentences rest /\
        (forall sentences' rest',
            sentencesOf (currentOutputText this ++ d) sentences' rest' ->
            sentences' = sentences /\ rest' = rest) /\
        handleMessage this message =
          Some (this',
                map (final cb) sentences ++
                (if isTurnComplete message
                 then (if blank rest then [] else [final cb (trim rest)])
                 else (if blank rest then [] else [preview cb rest]))) /\
        (isTurnComplete message = false -> currentOutputText this' = rest))
  /\
  (forall (this : Service) (cb : TranscriptionCallback),
      onTranscription this = Some cb ->
      currentOutputText this = [] ->
      exists this',
        handleMessage this (outputDelta (js "Hello world. How are you? ")) =
          Some (this', [final cb (js "Hello world."); final cb (js "How are you?")]) /\
        currentOutputText this' = []).
Proof.
  split.
  - intros this cb message d Hcb Hd.
    destruct (handleMessage_delta this cb message d Hcb Hd)
      as (sentences & rest & this' & Hspec & Hrun & _ & Hout).
    exists sentences, rest, this'.
    split; [exact Hspec|]. split; [exact (sentencesOf_functional Hspec)|].
    split; [exact Hrun|].
    intros Hturn. now rewrite Hturn in Hout.
  - intros this cb Hcb Hout.
    destruct this as [se ac ms pr so ic ot oe it out].
    simpl in Hcb, Hout. subst ot out.
    eexists. split; vm_compute; reflexivity.
Qed.

Lemma C1_witness :
  (exists sentences rest this',
     sentencesOf ([] ++ js "Hello world. How are you? ") sentences rest /\
     (forall sentences' rest',
         sentencesOf ([] ++ js "Hello world. How are you? ") sentences' rest' ->
         sentences' = sentences /\ rest' = rest) /\
     handleMessage listening (outputDelta (js "Hello world. How are you? ")) =
       Some (this',
             map (final 1) sentences ++
             (if blank rest then [] else [preview 1 rest])) /\
     (false = false -> currentOutputText this' = rest))
  /\
  (exists this',
     handleMessage listening (outputDelta (js "Hello world. How are you? ")) =
       Some (this', [final 1 (js "Hello world."); final 1 (js "How are you?")]) /\
     currentOutputText this' = []).
Proof.
  split.
  - exact (proj1 C1_sentences_finalized listening 1
             (outputDelta (js "Hello world. How are you? "))
             (js "Hello world. How are you? ") eq_refl eq_refl).
  - exact (proj2 C1_sentences_finalized listening 1 eq_refl eq_refl).
Defined.

(** What [handleMessage] does with a message without an output delta that
    completes the turn. *)
Lemma handleMessage_turn_only (this : Service) (cb : TranscriptionCallback)
    (message : LiveServerMessage) :
  onTranscription this = Some cb ->
  deltaText (outputTx message) = None ->
  isTurnComplete message = true ->
  exists this',
    handleMessage this message =
      Some (this',
            if blank (currentOutputText this) then []
            else [final cb (trim (currentOutputText this))]) /\
    currentInputText this' = [] /\
    currentOutputText this' =
      (if blank (currentOutputText this) then currentOutputText this else []).
Proof.
  intros Hcb Hd Hturn. unfold handleMessage. rewrite Hcb.
  rewrite (appendOutput_no_delta cb message _ Hd).
  unfold completeTurn, livePreview. rewrite Hturn.
  cbn [currentOutputText currentInputText set_currentOutputText
       set_currentInputText].
  rewrite appendInput_output, !trim_truthy.
  destruct (blank (currentOutputText this)) eqn:Hblank;
    cbn [negb currentOutputText currentInputText set_currentOutputText
         set_currentInputText];
    rewrite ?trim_truthy, ?appendInput_output, ?Hblank; cbn [negb app];
    eexists; (split; [reflexivity|]); split; try reflexivity.
  apply appendInput_output.
Qed.

(** C2, as the code has it.  After the delta "Hello wor" there is no final
    segment and the preview is "Hello wor"; after the delta "ld." there is
    still no final segment: no white space follows the period in the buffer
    "Hello world.", which is only previewed.  The final segment
    "Hello world." comes with a later message, once white space follows the
    period or the turn is complete. *)
Theorem C2_partial_sentence_waits :
  forall (this : Service) (cb : TranscriptionCallback),
    onTranscription this = Some cb ->
    currentOutputText this = [] ->
    exists s1 s2,
      handleMessage this (outputDelta (js "Hello wor")) =
        Some (s1, [preview cb (js "Hello wor")]) /\
      handleMessage s1 (outputDelta (js "ld.")) =
        Some (s2, [preview cb (js "Hello world.")]) /\
      (exists s3, handleMessage s2 (outputDelta (js " ")) =
                    Some (s3, [final cb (js "Hello world.")])) /\
      (exists s3, handleMessage s2 turnCompleteMarker =
                    Some (s3, [final cb (js "Hello world.")])).
Proof.
  intros this cb Hcb Hout.
  destruct this as [se ac ms pr so ic ot oe it out].
  simpl in Hcb, Hout. subst ot out.
  eexists. eexists.
  split; [vm_compute; reflexivity|].
  split; [vm_compute; reflexivity|].
  split; eexists; vm_compute; reflexivity.
Qed.

Lemma C2_witness :
  exists s1 s2,
    handleMessage listening (outputDelta (js "Hello wor")) =
      Some (s1, [preview 1 (js "Hello wor")]) /\
    handleMessage s1 (outputDelta (js "ld.")) =
      Some (s2, [preview 1 (js "Hello world.")]) /\
    (exists s3, handleMessage s2 (outputDelta (js " ")) =
                  Some (s3, [final 1 (js "Hello world.")])) /\
    (exists s3, handleMessage s2 turnCompleteMarker =
                  Some (s3, [final 1 (js "Hello world.")])).
Proof.
  exact (C2_partial_sentence_waits listening 1 eq_refl eq_refl).
Defined.

(** C2 fails as it is worded: on a listening service the delta "ld." after
    "Hello wor" yields no final segment at all. *)
Lemma C2_counterexample :
  exists s1 c1 s2 c2,
    handleMessage listening (outputDelta (js "Hello wor")) = Some (s1, c1) /\
    handleMessage s1 (outputDelta (js "ld.")) = Some (s2, c2) /\
    finalSegments c2 = [] /\
    finalSegments c2 <> [js "Hello world."].
Proof.
  do 4 eexists.
  split; [vm_compute; reflexivity|].
  split; [vm_compute; reflexivity|].
  split; [reflexivity | discriminate].
Qed.

(** C3, as the code has it.  A message with the turn-complete marker empties
    the input-echo buffer; if what the output buffer holds after the scan is
    not blank, it is flushed, trimmed, as exactly one final segment and the
    output buffer is emptied; if it is blank, nothing is flushed and it stays
    as it is.  No preview follows in either case.  "unfinished fragment"
    followed by the marker yields the one final segment "unfinished fragment"
    and empty buffers. *)
Theorem C3_turn_complete_flush :
  (forall (this : Service) (cb : TranscriptionCallback)
          (message : LiveServerMessage),
      onTranscription this = Some cb ->
      isTurnComplete message = true ->
      exists sentences pending this',
        match deltaText (outputTx message) with
        | Some d => sentencesOf (currentOutputText this ++ d) sentences pending
        | None => sentences = [] /\ pending = currentOutputText this
        end /\
        handleMessage this message =
          Some (this',
                map (final cb) sentences ++
                (if blank pending then [] else [final cb (trim pending)])) /\
        currentInputText this' = [] /\
        currentOutputText this' = (if blank pending then pending else []))
  /\
  (forall (this : Service) (cb : TranscriptionCallback),
      onTranscription this = Some cb ->
      currentOutputText this = [] ->
      exists s1 s2,
        handleMessage this (outputDelta (js "unfinished fragment")) =
          Some (s1, [preview cb (js "unfinished fragment")]) /\
        handleMessage s1 turnCompleteMarker =
          Some (s2, [final cb (js "unfinished fragment")]) /\
        currentInputText s2 = [] /\ currentOutputText s2 = []).
Proof.
  split.
  - intros this cb message Hcb Hturn.
    destruct (deltaText (outputTx message)) as [d|] eqn:Hd.
    + destruct (handleMessage_delta this cb message d Hcb Hd)
        as (sentences & rest & this' & Hspec & Hrun & Hin & Hout).
      rewrite Hturn in Hrun, Hout.
      exists sentences, rest, this'. auto.
    + destruct (handleMessage_turn_only this cb message Hcb Hd Hturn)
        as (this' & Hrun & Hin & Hout).
      exists [], (currentOutputText this), this'. auto.
  - intros this cb Hcb Hout.
    destruct this as [se ac ms pr so ic ot oe it out].
    simpl in Hcb, Hout. subst ot out.
    eexists. eexists.
    split; [vm_compute; reflexivity|].
    split; [vm_compute; reflexivity|].
    split; reflexivity.
Qed.

Lemma C3_witness :
  (exists sentences pending this',
     (sentences = [] /\ pending = js "unfinished fragment") /\
     handleMessage
       (set_currentOutputText (js "unfinished fragment") listening)
       turnCompleteMarker =
       Some (this',
             map (final 1) sentences ++
             (if blank pending then [] else [final 1 (trim pending)])) /\
     currentInputText this' = [] /\
     currentOutputText this' = (if blank pending then pending else []))
  /\
  (exists s1 s2,
     handleMessage listening (outputDelta (js "unfinished fragment")) =
       Some (s1, [preview 1 (js "unfinished fragment")]) /\
     handleMessage s1 turnCompleteMarker =
       Some (s2, [final 1 (js "unfinished fragment")]) /\
     currentInputText s2 = [] /\ currentOutputText s2 = []).
Proof.
  split.
  - exact (proj1 C3_turn_complete_flush
             (set_currentOutputText (js "unfinished fragment") listening) 1
             turnCompleteMarker eq_refl eq_refl).
  - exact (proj2 C3_turn_complete_flush listening 1 eq_refl eq_refl).
Defined.

(** C3 fails as it is worded: an output buffer of one space is not empty,
    yet the turn-complete marker flushes no segment for it and does not empty
    the buffer. *)
Lemma C3_counterexample :
  exists s1 c1 s2 c2,
    handleMessage listening (outputDelta (js " ")) = Some (s1, c1) /\
    currentOutputText s1 = js " " /\
    handleMessage s1 turnCompleteMarker = Some (s2, c2) /\
    finalSegments c2 = [] /\
    currentOutputText s2 <> [].
Proof.
  do 4 eexists.
  split; [vm_compute; reflexivity|].
  split; [reflexivity|].
  split; [vm_compute; reflexivity|].
  split; [reflexivity | discriminate].
Qed.

(** C4.  A message with an output-translation delta leaves the input-echo
    buffer empty, whatever it held, and the only preview it can emit is the
    output buffer as the message leaves it (none when that is blank): the
    input echo is never previewed.  The input echo "ich bi" followed by the
    output delta "I am" leaves the input-echo buffer empty and previews
    "I am". *)
Theorem C4_output_preempts_input :
  (forall (this : Service) (cb : TranscriptionCallback)
          (message : LiveServerMessage) (d : jsstring),
      onTranscription this = Some cb ->
      deltaText (outputTx message) = Some d ->
      exists this' calls,
        handleMessage this message = Some (this', calls) /\
        currentInputText this' = [] /\
        previews calls =
          (if blank (currentOutputText this') then []
           else [currentOutputText this']))
  /\
  (forall (this : Service) (cb : TranscriptionCallback),
      onTranscription this = Some cb ->
      currentInputText this = [] ->
      currentOutputText this = [] ->
      exists s1 s2,
        handleMessage this (inputDelta (js "ich bi")) =
          Some (s1, [preview cb (js "ich bi")]) /\
        currentInputText s1 = js "ich bi" /\
        handleMessage s1 (outputDelta (js "I am")) =
          Some (s2, [preview cb (js "I am")]) /\
        currentInputText s2 = [] /\
        currentOutputText s2 = js "I am").
Proof.
  split.
  - intros this cb message d Hcb Hd.
    destruct (handleMessage_delta this cb message d Hcb Hd)
      as (sentences & rest & this' & Hspec & Hrun & Hin & Hout).
    eexists. eexists. split; [exact Hrun|]. split; [exact Hin|].
    rewrite Hout, previews_app, previews_finals.
    destruct (isTurnComplete message), (blank rest) eqn:Hrest;
      simpl; rewrite ?Hrest; reflexivity.
  - intros this cb Hcb Hin Hout.
    destruct this as [se ac ms pr so ic ot oe it out].
    simpl in Hcb, Hin, Hout. subst ot it out.
    eexists. eexists.
    split; [vm_compute; reflexivity|].
    split; [reflexivity|].
    split; [vm_compute; reflexivity|].
    split; reflexivity.
Qed.

Lemma C4_witness :
  (exists this' calls,
     handleMessage (set_currentInputText (js "ich bi") listening)
                   (outputDelta (js "I am")) = Some (this', calls) /\
     currentInputText this' = [] /\
     previews calls =
       (if blank (currentOutputText this') then []
        else [currentOutputText this']))
  /\
  (exists s1 s2,
     handleMessage listening (inputDelta (js "ich bi")) =
       Some (s1, [preview 1 (js "ich bi")]) /\
     currentInputText s1 = js "ich bi" /\
     handleMessage s1 (outputDelta (js "I am")) =
       Some (s2, [preview 1 (js "I am")]) /\
     currentInputText s2 = [] /\
     currentOutputText s2 = js "I am").
Proof.
  split.
  - exact (proj1 C4_output_preempts_input
             (set_currentInputText (js "ich bi") listening) 1
             (outputDelta (js "I am")) (js "I am") eq_refl eq_refl).
  - exact (proj2 C4_output_preempts_input listening 1 eq_refl eq_refl eq_refl).
Defined.

(* ================================================================== *)
(** * The life cycle of the connection *)
(* ================================================================== *)

(** C6.  On a connected service whose output buffer holds text that is not
    blank, [disconnect] first hands that text, trimmed, to the transcription
    callback as a final segment, then releases what the service holds: the
    flush is the only call of a callback, and the object is left as new.  A
    buffer holding "trailing thought" yields exactly the final segment
    "trailing thought". *)
Theorem C6_disconnect_flushes_pending :
  (forall (this : Service) (cb : TranscriptionCallback),
      isConnected this = true ->
      onTranscription this = Some cb ->
      blank (currentOutputText this) = false ->
      disconnect this =
        (newService, final cb (trim (currentOutputText this)) :: releases this) /\
      quiet (releases this) = true /\
      finalSegments (snd (disconnect this)) = [trim (currentOutputText this)])
  /\
  (forall (this : Service) (cb : TranscriptionCallback),
      isConnected this = true ->
      onTranscription this = Some cb ->
      currentOutputText this = js "trailing thought" ->
      disconnect this =
        (newService, final cb (js "trailing thought") :: releases this)).
Proof.
  assert (H : forall this cb,
             isConnected this = true ->
             onTranscription this = Some cb ->
             blank (currentOutputText this) = false ->
             disconnect this =
               (newService, final cb (trim (currentOutputText this)) :: releases this)).
  { intros this cb Hconn Hcb Hblank.
    rewrite (disconnect_eq this), disconnect_calls, Hcb, Hconn, Hblank.
    reflexivity. }
  split.
  - intros this cb Hconn Hcb Hblank.
    rewrite (H this cb Hconn Hcb Hblank).
    split; [reflexivity|]. split; [apply releases_no_callback|].
    simpl. now rewrite releases_no_finals.
  - intros this cb Hconn Hcb Hout.
    rewrite (H this cb Hconn Hcb); rewrite Hout; reflexivity.
Qed.

Lemma C6_witness :
  (disconnect (set_currentOutputText (js "trailing thought") listening) =
     (newService,
      [final 1 (js "trailing thought"); trackStopCall 0;
       processorDisconnectCall 0; sourceDisconnectCall 0; closeCall aContext]))
  /\
  finalSegments
    (snd (disconnect (set_currentOutputText (js "trailing thought") listening))) =
    [js "trailing thought"].
Proof.
  split.
  - exact (proj2 C6_disconnect_flushes_pending
             (set_currentOutputText (js "trailing thought") listening) 1
             eq_refl eq_refl eq_refl).
  - exact (proj2 (proj2 (proj1 C6_disconnect_flushes_pending
             (set_currentOutputText (js "trailing thought") listening) 1
             eq_refl eq_refl eq_refl))).
Defined.

Lemma run_disconnects (n : nat) :
  run newService (repeat disconnectEv n) = Some (newService, []).
Proof.
  induction n as [|n IH]; cbn [repeat run step]; [reflexivity|].
  change (disconnect newService) with (newService, @nil Call).
  cbv beta iota. now rewrite IH.
Qed.

(** C7.  [disconnect] is defined on every state of the object and always
    leaves it as the constructor did; on an object that is already torn down
    it makes no call at all and changes nothing, however often it is called;
    [connect] on a connected object returns at once: it makes no call (it
    opens no channel) and leaves every field as it was. *)
Theorem C7_redundant_calls_are_no_ops :
  (forall this : Service, fst (disconnect this) = newService) /\
  disconnect newService = (newService, []) /\
  (forall (this : Service) (n : nat),
      run this (repeat disconnectEv (S n)) =
        Some (newService, snd (disconnect this))) /\
  (forall (this : Service) (inputLanguage outputLanguage : jsstring)
          (onT : TranscriptionCallback) (onE : ErrorCallback) (setup : Setup),
      isConnected this = true ->
      connect this inputLanguage outputLanguage onT onE setup = (this, [])) /\
  (forall (this : Service) (onT : TranscriptionCallback) (onE : ErrorCallback)
          (ctx : Thrown + AudioContext),
      isConnected this = true ->
      connectStart onT onE ctx this = (this, [])).
Proof.
  split; [exact disconnect_state|].
  split; [reflexivity|].
  split.
  - intros this n. cbn [repeat run step].
    pose proof (disconnect_state this) as Hstate.
    destruct (disconnect this) as [this' calls]. cbn [fst snd] in Hstate |- *.
    subst this'. cbv beta iota. rewrite run_disconnects. now rewrite app_nil_r.
  - split.
    + intros this il ol onT onE setup Hconn. unfold connect. now rewrite Hconn.
    + intros this onT onE ctx Hconn. unfold connectStart. now rewrite Hconn.
Qed.

Lemma C7_witness :
  connect listening (js "Swiss German") (js "English") 3 4
          (established aContext aStream 1) = (listening, [])
  /\ connectStart 3 4 (inr aContext) listening = (listening, []).
Proof.
  split.
  - exact (proj1 (proj2 (proj2 (proj2 C7_redundant_calls_are_no_ops)))
             listening (js "Swiss German") (js "English") 3 4
             (established aContext aStream 1) eq_refl).
  - exact (proj2 (proj2 (proj2 (proj2 C7_redundant_calls_are_no_ops)))
             listening 3 4 (inr aContext) eq_refl).
Defined.

(** With the connected flag down, [disconnect] reaches no callback. *)
Lemma disconnect_quiet_idle (this : Service) :
  isConnected this = false -> quiet (snd (disconnect this)) = true.
Proof.
  intros H. rewrite disconnect_calls, H.
  destruct (onTranscription this); apply releases_no_callback.
Qed.

(** With no callback registered, an event other than a new call of [connect]
    registers none and reaches none. *)
Lemma step_unregistered (this : Service) (e : Event) :
  onTranscription this = None ->
  onError this = None ->
  noConnect [e] = true ->
  exists this' calls,
    step this e = Some (this', calls) /\
    onTranscription this' = None /\ onError this' = None /\
    quiet calls = true.
Proof.
  intros HT HE He.
  assert (Hcatch : forall (err : Thrown) (this0 : Service),
             onTranscription this0 = None -> onError this0 = None ->
             exists this' calls,
               connectCatch err this0 = (this', calls) /\
               onTranscription this' = None /\ onError this' = None /\
               quiet calls = true).
  { intros err this0 HT0 HE0.
    destruct (connectCatch_cases err this0)
      as [[_ Hsame] | (_ & reported & Hrun & [-> | (cb & text & Hcb & _)])];
      [| |congruence].
    - exists this0, []. now rewrite Hsame.
    - exists newService, (snd (disconnect this0)). rewrite Hrun.
      split; [reflexivity|]. do 2 (split; [reflexivity|]).
      now apply disconnect_quiet. }
  destruct e as [onT onE ctx | il ol stream thrown | sess | err | | src proc
                | m | | code | src proc]; cbn [step]; try discriminate.
  - (* the stream arrives *)
    unfold connectWithStream. destruct thrown as [err|].
    + unfold andThen.
      destruct (Hcatch err (set_mediaStream (Some stream) this) HT HE)
        as (this' & calls & Hrun & HT' & HE' & Hquiet).
      rewrite Hrun. do 2 eexists. split; [reflexivity|].
      split; [exact HT'|]. split; [exact HE'|]. exact Hquiet.
    + do 2 eexists. split; [reflexivity|]. now repeat split.
  - (* the session arrives *)
    do 2 eexists. split; [reflexivity|]. now repeat split.
  - (* the set-up fails *)
    destruct (Hcatch err this HT HE) as (this' & calls & Hrun & H).
    rewrite Hrun. now exists this', calls.
  - (* disconnect *)
    rewrite disconnect_eq.
    do 2 eexists. split; [reflexivity|]. do 2 (split; [reflexivity|]).
    now apply disconnect_quiet.
  - (* onopen *)
    unfold onopen, startAudioStreaming, createNodes.
    cbn [audioContext mediaStream set_isConnected].
    destruct (audioContext this) as [[i st]|], (mediaStream this);
      try destruct st;
      do 2 eexists; (split; [reflexivity|]);
      (split; [exact HT|]); (split; [exact HE|]); reflexivity.
  - (* onmessage *)
    unfold onmessage, handleMessage. rewrite HT.
    do 2 eexists. split; [reflexivity|]. now repeat split.
  - (* onerror *)
    unfold onerror. rewrite handleRuntimeError_eq, HE.
    destruct (isConnected this);
      do 2 eexists; (split; [reflexivity|]); repeat split; try assumption.
    rewrite quiet_app. now rewrite disconnect_quiet.
  - (* onclose *)
    unfold onclose. rewrite handleRuntimeError_eq.
    cbn [isConnected set_isConnected].
    destruct (isConnected this && negb (code =? 1000)%Z);
      do 2 eexists; (split; [reflexivity|]); now repeat split.
  - (* the context has resumed *)
    unfold createNodes.
    destruct (audioContext this), (mediaStream this);
      do 2 eexists; (split; [reflexivity|]);
      (split; [exact HT|]); (split; [exact HE|]); reflexivity.
Qed.

Lemma noConnect_cons (e : Event) (events : list Event) :
  noConnect (e :: events) = noConnect [e] && noConnect events.
Proof. unfold noConnect. simpl. now rewrite andb_true_r. Qed.

Lemma run_unregistered (events : list Event) :
  forall this : Service,
    onTranscription this = None ->
    onError this = None ->
    noConnect events = true ->
    exists this' calls,
      run this events = Some (this', calls) /\ quiet calls = true.
Proof.
  induction events as [|e events IH]; intros this HT HE Hno.
  - now exists this, [].
  - rewrite noConnect_cons, andb_true_iff in Hno. destruct Hno as [He Hrest].
    destruct (step_unregistered this e HT HE He)
      as (this1 & calls1 & Hstep & HT1 & HE1 & Hq1).
    destruct (IH this1 HT1 HE1 Hrest) as (this' & calls' & Hrun & Hq').
    exists this', (calls1 ++ calls'). cbn [run]. rewrite Hstep, Hrun.
    split; [reflexivity|]. now rewrite quiet_app, Hq1, Hq'.
Qed.

(** C8, as the code has it.  Once [disconnect] has returned, and as long as
    [connect] is not called again on the object, whatever happens reaches
    none of the caller's callbacks: inbound messages, transport errors and
    close events, a late opening of the channel, the pieces of an attempt
    still in flight and its failure, further calls of [disconnect]. *)
Theorem C8_no_callback_after_disconnect :
  forall (this : Service) (events : list Event),
    noConnect events = true ->
    exists this' calls,
      run (fst (disconnect this)) events = Some (this', calls) /\
      quiet calls = true.
Proof.
  intros this events Hno. rewrite disconnect_state.
  now apply run_unregistered.
Qed.

Lemma C8_witness :
  exists this' calls,
    run (fst (disconnect listening))
        [onmessageEv (outputDelta (js "late. "));
         onerrorEv; oncloseEv 1006; onopenEv 1 1;
         onmessageEv turnCompleteMarker;
         rejectEv {| message := Some (js "permission") |};
         disconnectEv] = Some (this', calls) /\
    quiet calls = true.
Proof.
  exact (C8_no_callback_after_disconnect listening
           [onmessageEv (outputDelta (js "late. "));
            onerrorEv; oncloseEv 1006; onopenEv 1 1;
            onmessageEv turnCompleteMarker;
            rejectEv {| message := Some (js "permission") |};
            disconnectEv] eq_refl).
Defined.

(** C8 fails as it is worded: after [disconnect], a new call of [connect]
    registers callbacks again, and a message that arrives before the new
    attempt has opened its channel (it can only come from the channel of the
    session before) is handed to them. *)
Lemma C8_counterexample :
  exists this',
    run (fst (disconnect listening))
        [connectEv 1 2 (inr aContext); onmessageEv (outputDelta (js "late"))] =
      Some (this', [getUserMediaCall; onTranscriptionCall 1 (js "late") false])
    /\ quiet [getUserMediaCall; onTranscriptionCall 1 (js "late") false] = false.
Proof.
  eexists. split; [vm_compute; reflexivity | reflexivity].
Qed.

(* ================================================================== *)
(** * Failures of the set-up *)
(* ================================================================== *)

Lemma includes_truthy (m pat : jsstring) :
  includes m pat = true -> truthy pat = true -> truthy m = true.
Proof. destruct m, pat; simpl; congruence. Qed.

Lemma errorMessage_notFound (err : JsError) (m : jsstring) :
  message err = Some m ->
  includes m (js "404") || includes m (js "not found") = true ->
  errorMessage err = notFoundError.
Proof.
  intros Hm H. unfold errorMessage. rewrite Hm, H.
  assert (Ht : truthy m = true).
  { apply orb_true_iff in H as [H | H];
      exact (includes_truthy m _ H eq_refl). }
  now rewrite Ht.
Qed.

Lemma errorMessage_accessDenied (err : JsError) (m : jsstring) :
  message err = Some m ->
  includes m (js "404") || includes m (js "not found") = false ->
  includes m (js "403") || includes m (js "permission") = true ->
  errorMessage err = accessDeniedError.
Proof.
  intros Hm Hnf H. unfold errorMessage. rewrite Hm, Hnf, H.
  assert (Ht : truthy m = true).
  { apply orb_true_iff in H as [H | H];
      exact (includes_truthy m _ H eq_refl). }
  now rewrite Ht.
Qed.

Lemma errorMessage_other (err : JsError) (m : jsstring) :
  message err = Some m ->
  indicatesCredentialFailure m = false ->
  errorMessage err = if truthy m then m else networkError.
Proof.
  unfold indicatesCredentialFailure. intros Hm H.
  rewrite <- orb_assoc in H. apply orb_false_iff in H as [Hnf Hdenied].
  unfold errorMessage. rewrite Hm, Hnf, Hdenied.
  now rewrite !andb_false_r.
Qed.

Lemma errorMessage_missing (err : JsError) :
  message err = None -> errorMessage err = networkError.
Proof. intros Hm. unfold errorMessage. now rewrite Hm. Qed.

(** The two credential messages are kept for the failures that indicate a
    credential problem. *)
Lemma errorMessage_distinct (err : JsError) :
  (errorMessage err = notFoundError \/ errorMessage err = accessDeniedError)
  <-> exists m, message err = Some m /\ indicatesCredentialFailure m = true.
Proof.
  destruct (message err) as [m|] eqn:Hm.
  - destruct (indicatesCredentialFailure m) eqn:Hind.
    + split; [eauto|]. intros _. unfold indicatesCredentialFailure in Hind.
      destruct (includes m (js "404") || includes m (js "not found")) eqn:Hnf.
      * left. now apply errorMessage_notFound with m.
      * right. now apply errorMessage_accessDenied with m.
    + rewrite (errorMessage_other err m Hm Hind).
      split; [|intros (m' & [= <-] & H); congruence].
      destruct (truthy m); [|intros [H | H]; discriminate].
      intros [-> | ->]; vm_compute in Hind; discriminate.
  - rewrite (errorMessage_missing err Hm).
    split; [intros [H | H]; discriminate | intros (m & H & _); discriminate].
Qed.

(** A set-up that fails, in a call of [connect] that nothing interleaves
    with: one report to the error callback of this call, and the object is
    left as new. *)
Lemma connect_failure (this : Service) (il ol : jsstring)
    (onT : TranscriptionCallback) (onE : ErrorCallback)
    (setup : Setup) (err : JsError) :
  isConnected this = false ->
  setupError setup = Some (errorObject err) ->
  exists before released,
    connect this il ol onT onE setup =
      (newService, before ++ onErrorCall onE (errorMessage err) :: released) /\
    quiet before = true /\ quiet released = true.
Proof.
  intros Hconn Hsetup. unfold connect, connectStart. rewrite Hconn.
  destruct setup as [e | ctx e | ctx stream e | ctx stream e | ctx stream sess];
    cbn [setupError] in Hsetup; try discriminate; injection Hsetup as ->;
    unfold andThen, connectWithStream, andThen; rewrite connectCatch_eq;
    cbn [onError set_onError set_audioContext set_mediaStream
         set_currentInputText set_currentOutputText].
  - exists [], (snd (disconnect
      (set_currentOutputText [] (set_currentInputText []
         (set_onError (Some onE) (set_onTranscription (Some onT) this)))))).
    split; [reflexivity|]. split; [reflexivity|].
    now apply disconnect_quiet_idle.
  - eexists [getUserMediaCall], _.
    split; [reflexivity|]. split; [reflexivity|].
    now apply disconnect_quiet_idle.
  - eexists [getUserMediaCall; liveConnectCall il ol], _.
    split; [reflexivity|]. split; [reflexivity|].
    now apply disconnect_quiet_idle.
  - eexists [getUserMediaCall; liveConnectCall il ol], _.
    split; [reflexivity|]. split; [reflexivity|].
    now apply disconnect_quiet_idle.
Qed.

(** C9, as the code has it.  An exception of the set-up whose value is an
    error object (its message a string, or missing) is handed to the error
    callback, if one is still registered when it arrives, and a full
    [disconnect] follows; in a call of [connect] that nothing interleaves
    with, the callback of the call gets exactly one report.  The report is
    the not-found credential message if the exception's message contains
    "404" or "not found", else the access-denied credential message if it
    contains "403" or "permission"; any other exception is reported with its
    own message if it has one and with the generic network message if it has
    none, and never with one of the two credential messages.  For a thrown
    value at large the [catch] block may throw in its turn (it does for
    [null], for [undefined] and for a message that is truthy, not a string
    and has no method [includes]; it never does for an error object): then
    nothing is reported and the object stays as it is; whenever the block
    does not throw, it reports at most once and a full [disconnect]
    follows. *)
Theorem C9_setup_failure_reported :
  (forall (this : Service) (err : JsError) (cb : ErrorCallback),
      onError this = Some cb ->
      connectCatch err this =
        (newService, onErrorCall cb (errorMessage err) :: snd (disconnect this)))
  /\
  (forall (this : Service) (err : JsError),
      onError this = None ->
      connectCatch err this = (newService, snd (disconnect this)))
  /\
  (forall (this : Service) (il ol : jsstring)
          (onT : TranscriptionCallback) (onE : ErrorCallback)
          (setup : Setup) (err : JsError),
      isConnected this = false ->
      setupError setup = Some (errorObject err) ->
      exists before released,
        connect this il ol onT onE setup =
          (newService, before ++ onErrorCall onE (errorMessage err) :: released) /\
        quiet before = true /\ quiet released = true)
  /\
  (forall (err : JsError) (m : jsstring),
      message err = Some m ->
      (includes m (js "404") || includes m (js "not found") = true ->
       errorMessage err = notFoundError) /\
      (includes m (js "404") || includes m (js "not found") = false ->
       includes m (js "403") || includes m (js "permission") = true ->
       errorMessage err = accessDeniedError) /\
      (indicatesCredentialFailure m = false ->
       errorMessage err = if truthy m then m else networkError))
  /\
  (forall err : JsError,
      message err = None -> errorMessage err = networkError)
  /\
  (forall err : JsError,
      (errorMessage err = notFoundError \/ errorMessage err = accessDeniedError)
      <-> exists m, message err = Some m /\ indicatesCredentialFailure m = true)
  /\
  (forall (this : Service) (err : Thrown),
      catchThrows err this = true -> connectCatch err this = (this, []))
  /\
  (forall (this : Service) (err : Thrown),
      catchThrows err this = false ->
      connectCatch err this =
        (newService,
         match onError this, classified err with
         | Some cb, Some (Some text) => [onErrorCall cb text]
         | _, _ => []
         end ++ snd (disconnect this)))
  /\
  (forall (this : Service) (err : JsError), catchThrows err this = false)
  /\
  (forall (this : Service) (text : option jsstring),
      catchThrows nullish this = true /\
      catchThrows (oddMessage None text) this = true).
Proof.
  split.
  { intros this err cb Hcb. now rewrite connectCatch_eq, Hcb. }
  split.
  { intros this err Hcb. now rewrite connectCatch_eq, Hcb. }
  split; [exact connect_failure|].
  split.
  { intros err m Hm. split; [|split].
    - now apply errorMessage_notFound.
    - now apply errorMessage_accessDenied.
    - now apply errorMessage_other. }
  split; [exact errorMessage_missing|].
  split; [exact errorMessage_distinct|].
  split.
  { intros this err Hthrows.
    destruct (connectCatch_cases err this) as [[_ H] | [H _]];
      [exact H | congruence]. }
  split.
  { intros this err Hquiet. unfold catchThrows in Hquiet.
    unfold connectCatch, andThen. rewrite (disconnect_eq this).
    destruct (classified err) as [[text|]|]; [| |discriminate];
      destruct (onError this); try discriminate; reflexivity. }
  split.
  { intros this err. unfold catchThrows. cbn [classified].
    now destruct (onError this). }
  intros this text. now split.
Qed.

Lemma C9_witness :
  (exists before released,
     connect newService (js "Swiss German") (js "English") 1 2
             (channelRejects aContext aStream
                {| message := Some (js "HTTP 403: permission denied") |}) =
       (newService,
        before ++
        onErrorCall 2
          (errorMessage {| message := Some (js "HTTP 403: permission denied") |})
        :: released) /\
     quiet before = true /\ quiet released = true)
  /\
  errorMessage {| message := Some (js "HTTP 403: permission denied") |} =
    accessDeniedError
  /\
  errorMessage {| message := Some (js "models/x is not found") |} =
    notFoundError
  /\
  errorMessage {| message := Some (js "Permission denied") |} =
    js "Permission denied"
  /\
  errorMessage {| message := None |} = networkError
  /\
  connectCatch {| message := None |}
               (set_onError (Some 2) newService) =
    (newService,
     onErrorCall 2 (errorMessage {| message := None |})
     :: snd (disconnect (set_onError (Some 2) newService)))
  /\
  connectCatch {| message := None |} newService =
    (newService, snd (disconnect newService))
  /\
  connectCatch nullish listening = (listening, [])
  /\
  connectCatch (oddMessage (Some (fun pattern => false)) (Some (js "7,8")))
               listening =
    (newService, [onErrorCall 2 (js "7,8")] ++ snd (disconnect listening)).
Proof.
  destruct C9_setup_failure_reported
    as (Hcatch & Hcatch' & Hconnect & Hclass & Hnone & _ & Hthrows & Hruns & _).
  split.
  { exact (Hconnect newService (js "Swiss German") (js "English") 1 2
             (channelRejects aContext aStream
                {| message := Some (js "HTTP 403: permission denied") |})
             {| message := Some (js "HTTP 403: permission denied") |}
             eq_refl eq_refl). }
  split.
  { exact (proj1 (proj2 (Hclass {| message := Some (js "HTTP 403: permission denied") |}
                           (js "HTTP 403: permission denied") eq_refl))
             eq_refl eq_refl). }
  split.
  { exact (proj1 (Hclass {| message := Some (js "models/x is not found") |}
                    (js "models/x is not found") eq_refl) eq_refl). }
  split.
  { exact (proj2 (proj2 (Hclass {| message := Some (js "Permission denied") |}
                           (js "Permission denied") eq_refl)) eq_refl). }
  split.
  { exact (Hnone {| message := None |} eq_refl). }
  split.
  { exact (Hcatch (set_onError (Some 2) newService) {| message := None |} 2 eq_refl). }
  split.
  { exact (Hcatch' newService {| message := None |} eq_refl). }
  split.
  { exact (Hthrows listening nullish eq_refl). }
  exact (Hruns listening
           (oddMessage (Some (fun pattern => false)) (Some (js "7,8"))) eq_refl).
Defined.

(** C9 fails as it is worded: a set-up exception that indicates no credential
    problem is reported with its own message, not with the generic network
    message; an exception that arrives after [disconnect] has cleared the
    callbacks is not reported at all; and when the microphone's promise is
    rejected with [null], the [catch] block throws at [err.message]: the
    promise of [connect] is rejected, the error callback of the call, still
    registered, is not called, and no [disconnect] runs (the audio context is
    neither closed nor let go of). *)
Lemma C9_counterexample :
  (indicatesCredentialFailure (js "Permission denied") = false /\
   errorMessage {| message := Some (js "Permission denied") |} <> networkError)
  /\
  (exists this',
     run newService
         [connectEv 1 2 (inr aContext); disconnectEv;
          rejectEv {| message := Some (js "Permission denied") |}] =
       Some (this', [getUserMediaCall; closeCall aContext]))
  /\
  (exists this',
     connect newService (js "Swiss German") (js "English") 1 2
             (microphoneRejects aContext nullish) =
       (this', [getUserMediaCall]) /\
     catchThrows nullish this' = true /\
     onError this' = Some 2 /\
     audioContext this' = Some aContext).
Proof.
  split.
  - split; [reflexivity | discriminate].
  - split.
    + eexists. vm_compute. reflexivity.
    + eexists. split; [vm_compute; reflexivity|]. now repeat split.
Qed.

(* ================================================================== *)
(** * Final segments are never blank *)
(* ================================================================== *)

Lemma solidFinals_app (a b : list Call) :
  solidFinals a -> solidFinals b -> solidFinals (a ++ b).
Proof.
  unfold solidFinals. rewrite finalSegments_app. intros Ha Hb.
  apply Forall_app. now split.
Qed.

Lemma solidFinals_quiet (calls : list Call) :
  quiet calls = true -> solidFinals calls.
Proof.
  intros H. unfold solidFinals. rewrite (quiet_no_finals calls H). constructor.
Qed.

(** What passes the guard [if (x.trim())] is solid once trimmed. *)
Lemma guarded_trim_solid (s : jsstring) :
  truthy (trim s) = true -> solid (trim s).
Proof.
  intros H. split.
  - intros Hnil. rewrite Hnil in H. discriminate.
  - now apply trim_truthy_not_blank.
Qed.

Lemma finalizeSentences_solid (cb : TranscriptionCallback) (fuel : nat) :
  forall (s rest : jsstring) (calls : list Call),
    finalizeSentences fuel cb s = Some (rest, calls) -> solidFinals calls.
Proof.
  induction fuel as [|fuel IH]; intros s rest calls; cbn [finalizeSentences];
    destruct (matchSentenceEnd s) as [m|]; try discriminate;
    try (intros [= <- <-]; constructor).
  destruct (finalizeSentences fuel cb _) as [[rest' more]|] eqn:Hrun;
    [|discriminate].
  intros [= <- <-]. apply solidFinals_app; [|exact (IH _ _ _ Hrun)].
  destruct (truthy (trim _)) eqn:Hguard; [|constructor].
  constructor; [|constructor]. now apply guarded_trim_solid.
Qed.

Lemma appendOutput_solid (cb : TranscriptionCallback) (message : LiveServerMessage)
    (this this' : Service) (calls : list Call) :
  appendOutput cb message this = Some (this', calls) -> solidFinals calls.
Proof.
  unfold appendOutput.
  destruct (deltaText (outputTx message)) as [d|];
    [|intros [= _ <-]; constructor].
  cbn zeta.
  destruct (finalizeSentences _ cb _) as [[rest finals]|] eqn:Hrun;
    [|discriminate].
  intros [= _ <-]. exact (finalizeSentences_solid _ _ _ _ _ Hrun).
Qed.

Lemma completeTurn_solid (cb : TranscriptionCallback) (message : LiveServerMessage)
    (this : Service) :
  solidFinals (snd (completeTurn cb message this)).
Proof.
  unfold completeTurn. destruct (isTurnComplete message); [|constructor].
  destruct (truthy (trim _)) eqn:Hguard; [|constructor].
  constructor; [|constructor]. now apply guarded_trim_solid.
Qed.

Lemma livePreview_solid (cb : TranscriptionCallback) (this : Service) :
  solidFinals (livePreview cb this).
Proof.
  unfold livePreview.
  destruct (truthy (trim (currentOutputText this))); [constructor|].
  destruct (truthy (trim (currentInputText this))); constructor.
Qed.

Lemma handleMessage_solid (this this' : Service) (message : LiveServerMessage)
    (calls : list Call) :
  handleMessage this message = Some (this', calls) -> solidFinals calls.
Proof.
  unfold handleMessage. destruct (onTranscription this) as [cb|];
    [|intros [= <- <-]; constructor].
  destruct (appendOutput cb message _) as [[this1 finals]|] eqn:Hout;
    [|discriminate].
  pose proof (completeTurn_solid cb message this1) as Hturn.
  destruct (completeTurn cb message this1) as [this2 flushed].
  cbn [snd] in Hturn. intros H. injection H as _ Hcalls. rewrite <- Hcalls.
  apply solidFinals_app; [exact (appendOutput_solid _ _ _ _ _ Hout)|].
  apply solidFinals_app; [exact Hturn | apply livePreview_solid].
Qed.

Lemma disconnect_solid (this : Service) : solidFinals (snd (disconnect this)).
Proof.
  rewrite disconnect_calls. apply solidFinals_app;
    [|apply solidFinals_quiet, releases_no_callback].
  destruct (onTranscription this) as [cb|]; [|constructor].
  destruct (isConnected this); [|constructor].
  destruct (blank (currentOutputText this)) eqn:Hblank; [constructor|].
  constructor; [|constructor]. apply guarded_trim_solid.
  now rewrite trim_truthy, Hblank.
Qed.

Lemma connectCatch_solid (err : Thrown) (this : Service) :
  solidFinals (snd (connectCatch err this)).
Proof.
  destruct (connectCatch_cases err this)
    as [[_ H] | (_ & reported & H & Hreported)]; rewrite H; [constructor|].
  cbn [snd]. apply solidFinals_app; [|apply disconnect_solid].
  destruct Hreported as [-> | (cb & text & _ & _ & ->)]; constructor.
Qed.

Lemma handleRuntimeError_solid (this : Service) (error : jsstring) :
  solidFinals (snd (handleRuntimeError this error)).
Proof.
  rewrite handleRuntimeError_eq. destruct (isConnected this); [|constructor].
  cbn [snd]. apply solidFinals_app.
  - destruct (onError this); constructor.
  - apply disconnect_solid.
Qed.

Lemma step_solid (this this' : Service) (e : Event) (calls : list Call) :
  step this e = Some (this', calls) -> solidFinals calls.
Proof.
  destruct e as [onT onE ctx | il ol stream thrown | sess | err | | src proc
                | m | | code | src proc]; cbn [step].
  - intros [= H]. apply (f_equal snd) in H. cbn [snd] in H. subst calls.
    unfold connectStart. destruct (isConnected this); [constructor|].
    destruct ctx as [err|ctx]; [apply connectCatch_solid | constructor].
  - intros [= H]. apply (f_equal snd) in H. cbn [snd] in H. subst calls.
    unfold connectWithStream. destruct thrown as [err|]; [|constructor].
    unfold andThen.
    pose proof (connectCatch_solid err (set_mediaStream (Some stream) this)) as Hc.
    destruct (connectCatch err _) as [s c]. cbn [snd] in Hc |- *.
    now apply solidFinals_app; [constructor|].
  - intros [= _ <-]. constructor.
  - intros [= H]. apply (f_equal snd) in H. cbn [snd] in H. subst calls.
    apply connectCatch_solid.
  - intros [= H]. apply (f_equal snd) in H. cbn [snd] in H. subst calls.
    apply disconnect_solid.
  - intros [= H]. apply (f_equal snd) in H. cbn [snd] in H. subst calls.
    unfold onopen, startAudioStreaming, createNodes.
    cbn [audioContext mediaStream set_isConnected].
    destruct (audioContext this) as [[i st]|], (mediaStream this);
      try destruct st; constructor.
  - apply handleMessage_solid.
  - intros [= H]. apply (f_equal snd) in H. cbn [snd] in H. subst calls.
    unfold onerror. destruct (isConnected this); [|constructor].
    apply handleRuntimeError_solid.
  - intros [= H]. apply (f_equal snd) in H. cbn [snd] in H. subst calls.
    unfold onclose. destruct (isConnected this && negb (code =? 1000)%Z);
      [|constructor].
    apply handleRuntimeError_solid.
  - intros [= H]. apply (f_equal snd) in H. cbn [snd] in H. subst calls.
    unfold createNodes.
    destruct (audioContext this), (mediaStream this); constructor.
Qed.

Lemma step_total (this : Service) (e : Event) :
  exists this' calls, step this e = Some (this', calls).
Proof.
  destruct e; cbn [step];
    try (match goal with |- exists _ _, Some ?o = _ => destruct o end; eauto).
  apply handleMessage_total.
Qed.

(** C10.  Whatever happens to a service object, in any state and in any
    order, the run goes through and every segment that it emits as final has
    a text that is neither empty nor white space only: each of the three
    places that finalize (the scan of the sentence boundaries, the flush of a
    completed turn, the flush of [disconnect]) emits a trimmed text, behind
    the test that it is not empty. *)
Theorem C10_final_segments_not_blank :
  forall (this : Service) (events : list Event),
    exists this' calls,
      run this events = Some (this', calls) /\
      Forall solid (finalSegments calls).
Proof.
  intros this events. revert this.
  induction events as [|e events IH]; intros this.
  - exists this, []. split; [reflexivity | constructor].
  - destruct (step_total this e) as (this1 & calls1 & Hstep).
    destruct (IH this1) as (this' & calls' & Hrun & Hsolid).
    exists this', (calls1 ++ calls'). cbn [run]. rewrite Hstep, Hrun.
    split; [reflexivity|].
    apply solidFinals_app; [exact (step_solid _ _ _ _ Hstep) | exact Hsolid].
Qed.

(* ================================================================== *)
(** * The quantisation of the samples *)
(* ================================================================== *)

Import AudioUtils.

Lemma ToInt16_range (x : spec_float) : (-32768 <= ToInt16 x <= 32767)%Z.
Proof.
  destruct x as [s|s| |s m e]; cbn [ToInt16]; try lia.
  pose proof (Z.mod_pos_bound (truncate (S754_finite s m e)) 65536 eq_refl).
  destruct (32768 <=? _)%Z eqn:Hhigh;
    [apply Z.leb_le in Hhigh | apply Z.leb_gt in Hhigh]; lia.
Qed.

(** Comparing the other way round gives the opposite answer. *)
Lemma SFcompare_antisym (x y : spec_float) :
  SFcompare y x = option_map CompOpp (SFcompare x y).
Proof.
  destruct x as [sx|sx| |sx mx ex], y as [sy|sy| |sy my ey]; cbn;
    try destruct sx; try destruct sy; try reflexivity;
    rewrite (Z.compare_antisym ex ey);
    destruct (ex ?= ey)%Z; cbn; try reflexivity;
    change (Pos.compare_cont Eq my mx) with (Pos.compare my mx);
    change (Pos.compare_cont Eq mx my) with (Pos.compare mx my);
    rewrite (Pos.compare_antisym mx my); now rewrite ?CompOpp_involutive.
Qed.

Lemma SFleb_not_lt (x y : spec_float) : SFleb x y = true -> SFltb y x = false.
Proof.
  unfold SFleb, SFltb. rewrite (SFcompare_antisym x y).
  now destruct (SFcompare x y) as [[]|].
Qed.

Lemma SFltb_leb (x y : spec_float) : SFltb x y = true -> SFleb x y = true.
Proof. unfold SFleb, SFltb. now destruct (SFcompare x y) as [[]|]. Qed.

Lemma SFleb_not_nan (x y : spec_float) : SFleb x y = true -> isNaN y = false.
Proof. now destruct x, y. Qed.

Lemma SFleb_not_nan_l (x y : spec_float) : SFleb x y = true -> isNaN x = false.
Proof. now destruct x, y. Qed.

(** A number that compares equal to a finite one is that number. *)
Lemma SFcompare_Eq_finite (x : spec_float) (s : bool) (m : positive) (e : Z) :
  SFcompare x (S754_finite s m e) = Some Eq -> x = S754_finite s m e.
Proof.
  destruct x as [sx|sx| |sx mx ex]; cbn;
    try destruct sx; try destruct s; try discriminate;
    destruct (Z.compare_spec ex e) as [-> | _ | _]; try discriminate;
    intros [= H]; try apply CompOpp_iff in H; cbn in H;
    apply Pos.compare_eq in H; now subst.
Qed.

(** [Math.min(1, x)] and [Math.max(-1, y)] in closed form. *)
Lemma Math_min_one (x : spec_float) :
  Math_min one x = if isNaN x then S754_nan else if lt x one then x else one.
Proof.
  unfold Math_min. cbn [minFrom].
  change (isNaN one) with false. change (isZero true one) with false.
  change (lt one infinity) with true. cbn [andb].
  change (isZero false one) with false. now rewrite andb_false_r.
Qed.

Lemma Math_max_minusOne (y : spec_float) :
  Math_max minusOne y =
    if isNaN y then S754_nan else if lt minusOne y then y else minusOne.
Proof.
  unfold Math_max. cbn [maxFrom].
  change (isNaN minusOne) with false. change (isZero false minusOne) with false.
  change (lt minusInfinity minusOne) with true. cbn [andb].
  change (isZero true minusOne) with false. now rewrite andb_false_r.
Qed.

Lemma clamp_closed_form (x : spec_float) :
  clamp x =
    if isNaN x then S754_nan
    else if lt x one
         then (if lt minusOne x then x else minusOne)
         else one.
Proof.
  unfold clamp. rewrite Math_max_minusOne, Math_min_one.
  destruct (isNaN x) eqn:Hnan; [reflexivity|].
  destruct (lt x one); [now rewrite Hnan | reflexivity].
Qed.

Lemma clamp_range (x : spec_float) :
  isNaN x = false ->
  SFleb minusOne (clamp x) = true /\ SFleb (clamp x) one = true.
Proof.
  intros Hnan. rewrite clamp_closed_form, Hnan.
  destruct (lt x one) eqn:Hhigh; [|split; reflexivity].
  destruct (lt minusOne x) eqn:Hlow; [|split; reflexivity].
  split; now apply SFltb_leb.
Qed.

Lemma clamp_inside (x : spec_float) :
  SFleb minusOne x = true -> SFleb x one = true -> clamp x = x.
Proof.
  intros Hlow Hhigh. rewrite clamp_closed_form, (SFleb_not_nan_l x one Hhigh).
  unfold lt, SFltb. unfold SFleb in Hlow, Hhigh.
  destruct (SFcompare x one) as [[]|] eqn:Hone; try discriminate.
  - now apply SFcompare_Eq_finite in Hone.
  - destruct (SFcompare minusOne x) as [[]|] eqn:Hminus; try discriminate;
      [|reflexivity].
    rewrite SFcompare_antisym in Hminus.
    destruct (SFcompare x minusOne) as [[]|] eqn:Hx; try discriminate.
    now apply SFcompare_Eq_finite in Hx.
Qed.

Lemma clamp_above (x : spec_float) : SFleb one x = true -> clamp x = one.
Proof.
  intros H. rewrite clamp_closed_form, (SFleb_not_nan one x H).
  unfold lt. now rewrite (SFleb_not_lt one x H).
Qed.

Lemma clamp_below (x : spec_float) : SFleb x minusOne = true -> clamp x = minusOne.
Proof.
  intros H. rewrite clamp_closed_form, (SFleb_not_nan_l x minusOne H).
  unfold lt. rewrite (SFleb_not_lt x minusOne H).
  now destruct x as [s|[]| |[] m e].
Qed.

Lemma float32ToInt16_nth (samples : list spec_float) :
  forall (i : nat) (x : spec_float),
    nth_error samples i = Some x ->
    nth_error (float32ToInt16 samples) i = Some (quantize x).
Proof.
  induction samples as [|s samples IH]; intros [|i] x; cbn;
    try discriminate; [now intros [= ->] | apply IH].
Qed.

(** ** Rounding keeps the scaled sample within 16 bits *)

Local Open Scope Z_scope.

Lemma digits2_pos_bounds (m : positive) :
  2 ^ (Zpos (digits2_pos m) - 1) <= Zpos m < 2 ^ Zpos (digits2_pos m).
Proof.
  induction m as [m IH | m IH |]; cbn [digits2_pos].
  - rewrite Pos2Z.inj_succ. change (Zpos m~1) with (2 * Zpos m + 1).
    replace (Z.succ (Zpos (digits2_pos m)) - 1) with (Z.succ (Zpos (digits2_pos m) - 1)) by lia.
    rewrite !Z.pow_succ_r by lia.
    revert IH. generalize (2 ^ (Zpos (digits2_pos m) - 1)) (2 ^ Zpos (digits2_pos m)).
    intros a b IH. lia.
  - rewrite Pos2Z.inj_succ. change (Zpos m~0) with (2 * Zpos m).
    replace (Z.succ (Zpos (digits2_pos m)) - 1) with (Z.succ (Zpos (digits2_pos m) - 1)) by lia.
    rewrite !Z.pow_succ_r by lia.
    revert IH. generalize (2 ^ (Zpos (digits2_pos m) - 1)) (2 ^ Zpos (digits2_pos m)).
    intros a b IH. lia.
  - cbn. lia.
Qed.

Lemma iter_pos_nat {A : Type} (f : A -> A) (p : positive) :
  forall x, iter_pos f p x = Nat.iter (Pos.to_nat p) f x.
Proof.
  induction p as [p IH | p IH |]; intros x; cbn [iter_pos].
  - rewrite !IH, Pos2Nat.inj_xI, <- Nat.iter_add.
    replace (S (2 * Pos.to_nat p)) with (S (Pos.to_nat p + Pos.to_nat p)) by lia.
    now rewrite Nat.iter_succ_r.
  - rewrite !IH, Pos2Nat.inj_xO, <- Nat.iter_add.
    now replace (2 * Pos.to_nat p)%nat with (Pos.to_nat p + Pos.to_nat p)%nat by lia.
  - reflexivity.
Qed.

Lemma shr_1_spec (m : Z) (r s : bool) :
  0 <= m ->
  shr_1 {| shr_m := m; shr_r := r; shr_s := s |} =
    {| shr_m := m / 2; shr_r := Z.odd m; shr_s := r || s |}.
Proof.
  intros Hm. destruct m as [|[p|p|]|p]; try lia; cbn [shr_1 Z.odd];
    f_equal; try reflexivity.
  - change (Zpos p~1) with (2 * Zpos p + 1). apply Z.div_unique with 1; lia.
  - change (Zpos p~0) with (2 * Zpos p). apply Z.div_unique with 0; lia.
Qed.

Lemma shr_iter (k : nat) (m : Z) :
  0 <= m ->
  let mrs := Nat.iter k shr_1 {| shr_m := m; shr_r := false; shr_s := false |} in
  shr_m mrs = m / 2 ^ Z.of_nat k /\
  (m mod 2 ^ Z.of_nat k = 0 -> shr_r mrs = false /\ shr_s mrs = false).
Proof.
  intros Hm. induction k as [|k [IHm IHx]]; cbn zeta.
  - cbn. split; [now rewrite Z.div_1_r | auto].
  - rewrite Nat.iter_succ.
    destruct (Nat.iter k shr_1 _) as [mk rk sk]. cbn [shr_m shr_r shr_s] in *.
    assert (Hk : 0 < 2 ^ Z.of_nat k) by (apply Z.pow_pos_nonneg; lia).
    rewrite shr_1_spec by (subst mk; apply Z.div_pos; lia).
    cbn [shr_m shr_r shr_s]. rewrite Nat2Z.inj_succ, Z.pow_succ_r by lia.
    split.
    + subst mk. rewrite Z.div_div by lia. f_equal. lia.
    + intros Hmod.
      assert (Hdiv : m = 2 * 2 ^ Z.of_nat k * (m / (2 * 2 ^ Z.of_nat k))).
      { apply Z.div_exact; lia. }
      assert (Hmk : mk = 2 * (m / (2 * 2 ^ Z.of_nat k))).
      { subst mk. rewrite Hdiv at 1.
        replace (2 * 2 ^ Z.of_nat k * (m / (2 * 2 ^ Z.of_nat k)))
          with ((2 * (m / (2 * 2 ^ Z.of_nat k))) * 2 ^ Z.of_nat k) by lia.
        apply Z.div_mul. lia. }
      destruct IHx as [-> ->].
      { rewrite Hdiv.
        replace (2 * 2 ^ Z.of_nat k * (m / (2 * 2 ^ Z.of_nat k)))
          with ((2 * (m / (2 * 2 ^ Z.of_nat k))) * 2 ^ Z.of_nat k) by lia.
        apply Z.mod_mul. lia. }
      split; [|reflexivity].
      rewrite Hmk, Z.odd_mul. reflexivity.
Qed.

Lemma shr_fexp_spec (M E : Z) :
  0 <= M ->
  exists n mrs,
    shr_fexp prec emax M E loc_Exact = (mrs, E + n) /\
    0 <= n /\
    E + n = Z.max E (fexp prec emax (Zdigits2 M + E)) /\
    shr_m mrs = M / 2 ^ n /\
    (M mod 2 ^ n = 0 -> loc_of_shr_record mrs = loc_Exact).
Proof.
  intros HM. unfold shr_fexp, shr. cbn [shr_record_of_loc].
  assert (Hnone :
    exists n mrs,
      ({| shr_m := M; shr_r := false; shr_s := false |}, E) = (mrs, E + n) /\
      0 <= n /\ n = Z.max 0 0 /\
      shr_m mrs = M / 2 ^ n /\
      (M mod 2 ^ n = 0 -> loc_of_shr_record mrs = loc_Exact)).
  { exists 0, {| shr_m := M; shr_r := false; shr_s := false |}.
    rewrite Z.add_0_r. split; [reflexivity|]. split; [lia|]. split; [reflexivity|].
    split; [cbn; now rewrite Z.div_1_r | reflexivity]. }
  destruct (fexp prec emax (Zdigits2 M + E) - E) as [|p|p] eqn:Hd.
  - destruct Hnone as (n & mrs & H1 & H2 & H3 & H4 & H5).
    exists n, mrs. split; [exact H1|]. split; [exact H2|]. split; [lia|]. now split.
  - exists (Zpos p), (iter_pos shr_1 p {| shr_m := M; shr_r := false; shr_s := false |}).
    rewrite iter_pos_nat.
    destruct (shr_iter (Pos.to_nat p) M HM) as [Hm Hx].
    rewrite positive_nat_Z in Hm, Hx.
    split; [reflexivity|]. split; [lia|]. split; [lia|]. split; [exact Hm|].
    intros Hmod. destruct (Hx Hmod) as [Hr Hs].
    destruct (Nat.iter _ _ _) as [mk rk sk]. cbn in Hr, Hs. now subst.
  - destruct Hnone as (n & mrs & H1 & H2 & H3 & H4 & H5).
    exists n, mrs. split; [exact H1|]. split; [exact H2|]. split; [lia|]. now split.
Qed.

Lemma round_nearest_even_le (m : Z) (l : location) :
  m <= round_nearest_even m l <= m + 1.
Proof.
  destruct l as [|[]]; cbn; try lia. destruct (Z.even m); lia.
Qed.

Lemma fexp_nonpos (z : Z) : z <= 53 -> fexp prec emax z <= 0.
Proof. unfold fexp, emin, prec, emax. lia. Qed.

Lemma Zdigits2_le (M k : Z) : 0 <= M < 2 ^ k -> 0 <= k -> Zdigits2 M <= k.
Proof.
  intros [HM Hlt] Hk. destruct M as [|m|m]; cbn [Zdigits2]; try lia.
  pose proof (digits2_pos_bounds m) as [Hlow _].
  assert (H : 2 ^ (Zpos (digits2_pos m) - 1) < 2 ^ k) by lia.
  apply Z.pow_lt_mono_r_iff in H; lia.
Qed.

(** Below [2^53], a bound that is an integer is kept by the rounding. *)
Lemma binary_round_aux_bound (sx : bool) (M E B : Z) :
  0 < M -> E < 0 -> 0 < B < 2 ^ 53 -> M <= B * 2 ^ (- E) ->
  match binary_round_aux prec emax sx M E loc_Exact with
  | S754_finite _ m e => Z.shiftl (Zpos m) e <= B
  | _ => True
  end.
Proof.
  intros HM HE HB Hbound. unfold binary_round_aux.
  destruct (shr_fexp_spec M E) as (n & mrs & -> & Hn & He1 & Hm & Hx); [lia|].
  set (e1 := E + n) in *.
  set (m1 := round_nearest_even (shr_m mrs) (loc_of_shr_record mrs)).
  assert (Hpow : forall a b, 0 <= a -> 0 <= b -> 2 ^ (a + b) = 2 ^ a * 2 ^ b)
    by (intros; apply Z.pow_add_r; lia).
  assert (Hpos : forall a, 0 <= a -> 0 < 2 ^ a)
    by (intros; apply Z.pow_pos_nonneg; lia).
  (* the exponent after the first shift is not positive *)
  assert (He1' : e1 <= 0).
  { rewrite He1. apply Z.max_lub; [lia|]. apply fexp_nonpos.
    assert (Zdigits2 M <= 53 - E); [|lia].
    apply Zdigits2_le; [|lia]. split; [lia|].
    replace (53 - E) with (53 + - E) by lia.
    rewrite (Hpow 53 (- E)) by lia. pose proof (Hpos (- E)). nia. }
  (* the rounded mantissa keeps the bound *)
  assert (Hsplit : 2 ^ (- E) = 2 ^ (- e1) * 2 ^ n).
  { rewrite <- Hpow by lia. f_equal. lia. }
  assert (Hm1 : 0 <= m1 <= B * 2 ^ (- e1)).
  { pose proof (round_nearest_even_le (shr_m mrs) (loc_of_shr_record mrs)) as Hr.
    fold m1 in Hr. rewrite Hm in Hr.
    pose proof (Hpos n Hn) as Hpn.
    assert (Hq : 0 <= M / 2 ^ n) by (apply Z.div_pos; lia).
    split; [lia|].
    assert (Hle : M / 2 ^ n <= B * 2 ^ (- e1)).
    { apply Z.div_le_upper_bound; [lia|]. rewrite Hsplit in Hbound. lia. }
    destruct (Z.eq_dec (M / 2 ^ n) (B * 2 ^ (- e1))) as [Heq | Hne]; [|lia].
    assert (Hexact : M mod 2 ^ n = 0).
    { pose proof (Z.div_mod M (2 ^ n)) as Hdm.
      pose proof (Z.mod_pos_bound M (2 ^ n) Hpn).
      rewrite Heq in Hdm. rewrite Hsplit in Hbound. lia. }
    unfold m1. rewrite (Hx Hexact), Hm, Heq. cbn. lia. }
  destruct (shr_fexp_spec m1 e1) as (n2 & mrs2 & -> & Hn2 & He2 & Hm2 & _); [lia|].
  assert (He2' : e1 + n2 <= 0).
  { rewrite He2. apply Z.max_lub; [lia|]. apply fexp_nonpos.
    assert (Zdigits2 m1 <= 53 - e1); [|lia].
    apply Zdigits2_le; [|lia]. split; [lia|].
    replace (53 - e1) with (53 + - e1) by lia.
    rewrite (Hpow 53 (- e1)) by lia. pose proof (Hpos (- e1)). nia. }
  destruct (shr_m mrs2) as [|m2|m2]; try exact I.
  destruct (e1 + n2 <=? emax - prec); [|exact I].
  rewrite Z.shiftl_div_pow2 by lia. rewrite Hm2.
  rewrite Z.div_div by (try apply Hpos; lia).
  rewrite <- Hpow by lia.
  replace (n2 + - (e1 + n2)) with (- e1) by lia.
  apply Z.div_le_upper_bound; [apply Hpos; lia | lia].
Qed.

Lemma valid_mantissa (s : bool) (m : positive) (e : Z) :
  valid_binary prec emax (S754_finite s m e) = true -> Zpos m < 2 ^ 53.
Proof.
  cbn [valid_binary]. unfold bounded, canonical_mantissa, fexp, emin, prec, emax.
  rewrite andb_true_iff, Z.eqb_eq. intros [Hc _].
  pose proof (digits2_pos_bounds m) as [_ Hhigh].
  assert (Hd : Zpos (digits2_pos m) <= 53) by lia.
  apply Z.lt_le_trans with (1 := Hhigh). apply Z.pow_le_mono_r; lia.
Qed.

Lemma SFleb_finite_pos (m m0 : positive) (e e0 : Z) :
  SFleb (S754_finite false m e) (S754_finite false m0 e0) = true ->
  e < e0 \/ (e = e0 /\ Zpos m <= Zpos m0).
Proof.
  unfold SFleb. cbn [SFcompare].
  destruct (Z.compare_spec e e0) as [-> | Hlt | Hgt]; try discriminate;
    [right | now left].
  split; [reflexivity|]. apply Pos2Z.pos_le_pos. unfold Pos.le.
  change (Pos.compare_cont Eq m m0) with (Pos.compare m m0) in H.
  now destruct (m ?= m0)%positive.
Qed.

Lemma SFleb_finite_neg (m m0 : positive) (e e0 : Z) :
  SFleb (S754_finite true m0 e0) (S754_finite true m e) = true ->
  e < e0 \/ (e = e0 /\ Zpos m <= Zpos m0).
Proof.
  unfold SFleb. cbn [SFcompare]. rewrite (Z.compare_antisym e e0).
  destruct (Z.compare_spec e e0) as [-> | Hlt | Hgt]; cbn [CompOpp];
    try discriminate; [right | now left].
  split; [reflexivity|]. apply Pos2Z.pos_le_pos. unfold Pos.le.
  change (Pos.compare_cont Eq m0 m) with (Pos.compare m0 m) in H.
  rewrite (Pos.compare_antisym m m0) in H.
  now destruct (m ?= m0)%positive.
Qed.

(** A finite number between -1 and 1: its mantissa against its exponent. *)
Lemma unit_bound (s : bool) (m : positive) (e : Z) :
  Zpos m < 2 ^ 53 ->
  SFleb minusOne (S754_finite s m e) = true ->
  SFleb (S754_finite s m e) one = true ->
  e < 0 /\ Zpos m <= 2 ^ (- e).
Proof.
  intros Hm Hlow Hhigh.
  assert (H : e < -52 \/ (e = -52 /\ Zpos m <= 4503599627370496)).
  { destruct s.
    - exact (SFleb_finite_neg m _ e _ Hlow).
    - exact (SFleb_finite_pos m _ e _ Hhigh). }
  destruct H as [Hlt | [-> Hle]].
  - split; [lia|].
    apply Z.lt_le_incl, Z.lt_le_trans with (1 := Hm).
    apply Z.pow_le_mono_r; lia.
  - split; [reflexivity|]. exact Hle.
Qed.

Lemma ToInt16_no_wrap (x : spec_float) :
  -32768 <= truncate x <= 32767 -> ToInt16 x = truncate x.
Proof.
  destruct x as [s|s| |s m e]; try reflexivity.
  intros H. cbn [ToInt16]. set (int := truncate _) in *.
  destruct (Z_lt_le_dec int 0) as [Hneg | Hpos].
  - assert (Hmod : int mod 65536 = int + 65536).
    { symmetry. apply Z.mod_unique with (-1); lia. }
    rewrite Hmod. destruct (32768 <=? int + 65536) eqn:Hc;
      [lia | apply Z.leb_gt in Hc; lia].
  - rewrite Z.mod_small by lia.
    destruct (32768 <=? int) eqn:Hc; [apply Z.leb_le in Hc; lia | reflexivity].
Qed.

Lemma mul_x8000_bound (s : bool) (m : positive) (e : Z) :
  e < 0 -> Zpos m <= 2 ^ (- e) ->
  match mul (S754_finite s m e) x8000 with
  | S754_finite s' m' e' => s' = s /\ Z.shiftl (Zpos m') e' <= 32768
  | _ => True
  end.
Proof.
  intros He Hm. unfold mul, x8000. cbn [SFmul].
  pose proof (binary_round_aux_bound (xorb s false)
                (Zpos (m * 4503599627370496)) (e + -37) 32768) as H.
  assert (Hsign : forall M E,
    match binary_round_aux prec emax (xorb s false) M E loc_Exact with
    | S754_finite s' _ _ => s' = s
    | _ => True
    end).
  { intros M E. unfold binary_round_aux.
    destruct (shr_fexp prec emax M E loc_Exact) as [mrs e1].
    destruct (shr_fexp prec emax _ e1 loc_Exact) as [mrs2 e2].
    destruct (shr_m mrs2); try exact I.
    destruct (e2 <=? emax - prec); [now destruct s | exact I]. }
  specialize (Hsign (Zpos (m * 4503599627370496)) (e + -37)).
  destruct (binary_round_aux _ _ _ _ _ _) as [| | |s' m' e']; try exact I.
  split; [exact Hsign|]. apply H; try lia.
  rewrite Pos2Z.inj_mul.
  replace (- (e + -37)) with (37 + - e) by lia.
  rewrite Z.pow_add_r by lia.
  change (2 ^ 37) with 137438953472. change (Zpos 4503599627370496) with 4503599627370496.
  assert (0 < 2 ^ (- e)) by (apply Z.pow_pos_nonneg; lia). nia.
Qed.

Lemma mul_x7fff_bound (s : bool) (m : positive) (e : Z) :
  e < 0 -> Zpos m <= 2 ^ (- e) ->
  match mul (S754_finite s m e) x7fff with
  | S754_finite s' m' e' => s' = s /\ Z.shiftl (Zpos m') e' <= 32767
  | _ => True
  end.
Proof.
  intros He Hm. unfold mul, x7fff. cbn [SFmul].
  pose proof (binary_round_aux_bound (xorb s false)
                (Zpos (m * 9006924376834048)) (e + -38) 32767) as H.
  assert (Hsign : forall M E,
    match binary_round_aux prec emax (xorb s false) M E loc_Exact with
    | S754_finite s' _ _ => s' = s
    | _ => True
    end).
  { intros M E. unfold binary_round_aux.
    destruct (shr_fexp prec emax M E loc_Exact) as [mrs e1].
    destruct (shr_fexp prec emax _ e1 loc_Exact) as [mrs2 e2].
    destruct (shr_m mrs2); try exact I.
    destruct (e2 <=? emax - prec); [now destruct s | exact I]. }
  specialize (Hsign (Zpos (m * 9006924376834048)) (e + -38)).
  destruct (binary_round_aux _ _ _ _ _ _) as [| | |s' m' e']; try exact I.
  split; [exact Hsign|]. apply H; try lia.
  rewrite Pos2Z.inj_mul.
  replace (- (e + -38)) with (38 + - e) by lia.
  rewrite Z.pow_add_r by lia.
  change (2 ^ 38) with 274877906944. change (Zpos 9006924376834048) with 9006924376834048.
  assert (0 < 2 ^ (- e)) by (apply Z.pow_pos_nonneg; lia). nia.
Qed.

Lemma clamp_valid (x : spec_float) :
  valid_binary prec emax x = true -> valid_binary prec emax (clamp x) = true.
Proof.
  intros Hx. rewrite clamp_closed_form.
  destruct (isNaN x); [reflexivity|].
  destruct (lt x one); [|reflexivity].
  destruct (lt minusOne x); [exact Hx | reflexivity].
Qed.

Lemma shiftl_nonneg (m : positive) (e : Z) : 0 <= Z.shiftl (Zpos m) e.
Proof. apply Z.shiftl_nonneg. lia. Qed.

(** For a sample that is a binary64 number, the scaled value is within the
    16 bits before it is stored. *)
Lemma scaled_range (x : spec_float) :
  valid_binary prec emax x = true ->
  -32768 <= truncate (scaled x) <= 32767.
Proof.
  intros Hx. unfold scaled.
  pose proof (clamp_valid x Hx) as Hvalid.
  destruct (isNaN x) eqn:Hnan.
  { rewrite clamp_closed_form, Hnan. cbn. lia. }
  destruct (clamp_range x Hnan) as [Hlow Hhigh].
  destruct (clamp x) as [s|s| |s m e] eqn:Hs.
  - destruct s; cbn; lia.
  - destruct s; cbn in Hlow, Hhigh; discriminate.
  - discriminate.
  - destruct (unit_bound s m e (valid_mantissa s m e Hvalid) Hlow Hhigh) as [He Hm].
    destruct s.
    + change (lt (S754_finite true m e) zero) with true. cbv iota.
      pose proof (mul_x8000_bound true m e He Hm) as H.
      destruct (mul _ x8000) as [| | |s' m' e']; cbn [truncate]; try lia.
      destruct H as [-> H]. pose proof (shiftl_nonneg m' e'). lia.
    + change (lt (S754_finite false m e) zero) with false. cbv iota.
      pose proof (mul_x7fff_bound false m e He Hm) as H.
      destruct (mul _ x7fff) as [| | |s' m' e']; cbn [truncate]; try lia.
      destruct H as [-> H]. pose proof (shiftl_nonneg m' e'). lia.
Qed.

Lemma quantize_truncates (x : spec_float) :
  valid_binary prec emax x = true -> quantize x = truncate (scaled x).
Proof.
  intros Hx. apply ToInt16_no_wrap, scaled_range, Hx.
Qed.

Local Close Scope Z_scope.

(** C5.  [float32ToInt16] maps every sample on its own; the sample is clamped
    to [-1, 1] (a sample inside is kept, one above becomes 1, one below
    becomes -1), multiplied by 32768 if the clamped value is negative and by
    32767 otherwise, and stored as a 16-bit integer: every output lies in
    [-32768, 32767], also for [NaN] and the infinities; 0 gives 0, 1 gives
    32767, -1 gives -32768 (and 1/2 gives 16383, -1/2 gives -16384), and the
    samples beyond 1 and -1 give 32767 and -32768.  For a sample that is a
    binary64 number the scaled value is within the range before it is
    stored, so that the store only drops its fraction and never wraps. *)
Theorem C5_quantization :
  (forall samples : list spec_float,
      length (float32ToInt16 samples) = length samples /\
      Forall (fun v => (-32768 <= v <= 32767)%Z) (float32ToInt16 samples))
  /\
  (forall (samples : list spec_float) (i : nat) (x : spec_float),
      nth_error samples i = Some x ->
      nth_error (float32ToInt16 samples) i = Some (quantize x))
  /\
  (forall x : spec_float,
      quantize x =
        ToInt16 (if lt (clamp x) zero then mul (clamp x) x8000
                 else mul (clamp x) x7fff))
  /\
  (forall x : spec_float,
      isNaN x = false ->
      SFleb minusOne (clamp x) = true /\ SFleb (clamp x) one = true)
  /\
  (forall x : spec_float,
      SFleb minusOne x = true -> SFleb x one = true -> clamp x = x)
  /\
  (quantize zero = 0 /\ quantize one = 32767 /\ quantize minusOne = -32768)%Z
  /\
  (quantize half = 16383 /\ quantize minusHalf = -16384)%Z
  /\
  (forall x : spec_float, SFleb one x = true -> quantize x = 32767%Z)
  /\
  (forall x : spec_float, SFleb x minusOne = true -> quantize x = (-32768)%Z)
  /\
  (forall x : spec_float,
      valid_binary prec emax x = true ->
      (-32768 <= truncate (scaled x) <= 32767)%Z /\
      quantize x = truncate (scaled x)).
Proof.
  split.
  { induction samples as [|s samples [IHlen IHrange]]; cbn.
    - split; [reflexivity | constructor].
    - split; [now rewrite IHlen|].
      constructor; [apply ToInt16_range | exact IHrange]. }
  split; [exact float32ToInt16_nth|].
  split; [reflexivity|].
  split; [exact clamp_range|].
  split; [exact clamp_inside|].
  split; [repeat split; reflexivity|].
  split; [split; reflexivity|].
  split.
  { intros x H. unfold quantize, scaled. now rewrite (clamp_above x H). }
  split.
  { intros x H. unfold quantize, scaled. now rewrite (clamp_below x H). }
  intros x Hx. split; [now apply scaled_range | now apply quantize_truncates].
Qed.

Lemma C5_witness :
  nth_error (float32ToInt16 [zero; ofInteger 2; ofInteger (-3)]) 1 =
    Some (quantize (ofInteger 2))
  /\
  (SFleb minusOne (clamp (ofInteger 2)) = true /\
   SFleb (clamp (ofInteger 2)) one = true)
  /\
  clamp zero = zero
  /\
  quantize (ofInteger 2) = 32767%Z
  /\
  quantize (ofInteger (-3)) = (-32768)%Z
  /\
  ((-32768 <= truncate (scaled minusHalf) <= 32767)%Z /\
   quantize minusHalf = truncate (scaled minusHalf)).
Proof.
  destruct C5_quantization
    as (_ & Hnth & _ & Hrange & Hinside & _ & _ & Habove & Hbelow & Hkept).
  split.
  { exact (Hnth [zero; ofInteger 2; ofInteger (-3)] 1 (ofInteger 2) eq_refl). }
  split.
  { exact (Hrange (ofInteger 2) eq_refl). }
  split.
  { exact (Hinside zero eq_refl eq_refl). }
  split.
  { exact (Habove (ofInteger 2) eq_refl). }
  split.
  { exact (Hbelow (ofInteger (-3)) eq_refl). }
  exact (Hkept minusHalf eq_refl).
Defined.

(* ================================================================== *)
(** * Properties of the audio encoding *)
(* ================================================================== *)

Import JS AudioWire.

Lemma list_ind3 {A : Type} (P : list A -> Prop) :
  P [] -> (forall a, P [a]) -> (forall a b, P [a; b]) ->
  (forall a b c l, P l -> P (a :: b :: c :: l)) ->
  forall l, P l.
Proof.
  intros H0 H1 H2 H3 l.
  assert (H : forall n l, length l <= n -> P l).
  { induction n as [|n IH]; intros [|a [|b [|c k]]] Hlen; simpl in Hlen;
      auto; try lia.
    apply H3, IH. lia. }
  exact (H (length l) l (le_n _)).
Qed.

Lemma base64Char_sextet (s : N) : (s < 64)%N -> sextetOf (base64Char s) = Some s.
Proof.
  intros Hs. unfold base64Char, sextetOf.
  destruct (s <? 26)%N eqn:H26; [apply N.ltb_lt in H26 | apply N.ltb_ge in H26].
  { replace ((65 <=? 65 + s) && (65 + s <=? 90))%N with true
      by (symmetry; apply andb_true_iff; split; apply N.leb_le; lia).
    f_equal. lia. }
  destruct (s <? 52)%N eqn:H52; [apply N.ltb_lt in H52 | apply N.ltb_ge in H52].
  { replace ((65 <=? 97 + (s - 26)) && (97 + (s - 26) <=? 90))%N with false
      by (symmetry; apply andb_false_iff; right; apply N.leb_gt; lia).
    replace ((97 <=? 97 + (s - 26)) && (97 + (s - 26) <=? 122))%N with true
      by (symmetry; apply andb_true_iff; split; apply N.leb_le; lia).
    f_equal. lia. }
  destruct (s <? 62)%N eqn:H62; [apply N.ltb_lt in H62 | apply N.ltb_ge in H62].
  { replace ((65 <=? 48 + (s - 52)) && (48 + (s - 52) <=? 90))%N with false
      by (symmetry; apply andb_false_iff; left; apply N.leb_gt; lia).
    replace ((97 <=? 48 + (s - 52)) && (48 + (s - 52) <=? 122))%N with false
      by (symmetry; apply andb_false_iff; left; apply N.leb_gt; lia).
    replace ((48 <=? 48 + (s - 52)) && (48 + (s - 52) <=? 57))%N with true
      by (symmetry; apply andb_true_iff; split; apply N.leb_le; lia).
    f_equal. lia. }
  destruct (s =? 62)%N eqn:E62; [apply N.eqb_eq in E62; now subst|].
  apply N.eqb_neq in E62. assert (s = 63%N) by lia. now subst.
Qed.

Lemma base64Char_alphabet (s : N) : (s < 64)%N -> isBase64Char (base64Char s) = true.
Proof. intros Hs. unfold isBase64Char. now rewrite base64Char_sextet. Qed.

Lemma base64Char_not_padding (s : N) : (base64Char s =? padding)%N = false.
Proof.
  unfold base64Char, padding. apply N.eqb_neq.
  repeat match goal with
         | |- context [if ?b then _ else _] => destruct b eqn:?
         end;
    repeat match goal with
           | H : (_ <? _)%N = true |- _ => apply N.ltb_lt in H
           | H : (_ <? _)%N = false |- _ => apply N.ltb_ge in H
           end; lia.
Qed.

Lemma div_mod_split (x m q r : N) :
  (x = m * q + r -> r < m -> x / m = q /\ x mod m = r)%N.
Proof.
  intros Hx Hr. split.
  - symmetry. now apply N.div_unique with r.
  - symmetry. now apply N.mod_unique with q.
Qed.

Lemma byte_split (a m : N) :
  (0 < m -> a = m * (a / m) + a mod m /\ a mod m < m)%N.
Proof.
  intros Hm. split; [apply N.div_mod; lia | apply N.mod_lt; lia].
Qed.

Lemma quad_bounds (a b c : N) :
  (a < 256 -> b < 256 -> c < 256 ->
   a / 4 < 64 /\ (a mod 4) * 16 + b / 16 < 64 /\
   (b mod 16) * 4 + c / 64 < 64 /\ c mod 64 < 64 /\
   (a mod 4) * 16 < 64 /\ (b mod 16) * 4 < 64)%N.
Proof.
  intros Ha Hb Hc.
  destruct (byte_split a 4 eq_refl) as [Ea Ra].
  destruct (byte_split b 16 eq_refl) as [Eb Rb].
  destruct (byte_split c 64 eq_refl) as [Ec Rc].
  revert Ea Ra Eb Rb Ec Rc.
  generalize (a / 4)%N (a mod 4)%N (b / 16)%N (b mod 16)%N (c / 64)%N (c mod 64)%N.
  intros. lia.
Qed.

Lemma quad_bytes (a b c : N) :
  (a < 256 -> b < 256 -> c < 256 ->
   a / 4 * 4 + ((a mod 4) * 16 + b / 16) / 16 = a /\
   ((a mod 4) * 16 + b / 16) mod 16 * 16 + ((b mod 16) * 4 + c / 64) / 4 = b /\
   ((b mod 16) * 4 + c / 64) mod 4 * 64 + c mod 64 = c)%N.
Proof.
  intros Ha Hb Hc.
  destruct (byte_split a 4 eq_refl) as [Ea Ra].
  destruct (byte_split b 16 eq_refl) as [Eb Rb].
  destruct (byte_split c 64 eq_refl) as [Ec Rc].
  revert Ea Ra Eb Rb Ec Rc.
  generalize (a / 4)%N (a mod 4)%N (b / 16)%N (b mod 16)%N (c / 64)%N (c mod 64)%N.
  intros qa ra qb rb qc rc Ea Ra Eb Rb Ec Rc.
  destruct (div_mod_split (ra * 16 + qb) 16 ra qb) as [D2 M2]; [lia | lia |].
  destruct (div_mod_split (rb * 4 + qc) 4 rb qc) as [D3 M3]; [lia | lia |].
  rewrite D2, M2, D3, M3. lia.
Qed.

Lemma decodeQuad_three (a b c : N) :
  (a < 256)%N -> (b < 256)%N -> (c < 256)%N ->
  decodeQuad (base64Char (a / 4)) (base64Char ((a mod 4) * 16 + b / 16))
             (base64Char ((b mod 16) * 4 + c / 64)) (base64Char (c mod 64))
  = Some [a; b; c].
Proof.
  intros Ha Hb Hc.
  destruct (quad_bounds a b c Ha Hb Hc) as (H1 & H2 & H3 & H4 & _).
  destruct (quad_bytes a b c Ha Hb Hc) as (E1 & E2 & E3).
  unfold decodeQuad.
  rewrite !base64Char_sextet, !base64Char_not_padding by assumption.
  cbn [andb]. now rewrite E1, E2, E3.
Qed.

Lemma decodeQuad_two (a b : N) :
  (a < 256)%N -> (b < 256)%N ->
  decodeQuad (base64Char (a / 4)) (base64Char ((a mod 4) * 16 + b / 16))
             (base64Char ((b mod 16) * 4)) padding
  = Some [a; b].
Proof.
  intros Ha Hb.
  destruct (quad_bounds a b 0 Ha Hb eq_refl) as (H1 & H2 & H3 & _).
  destruct (quad_bytes a b 0 Ha Hb eq_refl) as (E1 & E2 & _).
  change (0 / 64)%N with 0%N in H3, E2. rewrite N.add_0_r in H3, E2.
  unfold decodeQuad.
  rewrite !base64Char_sextet, !base64Char_not_padding by assumption.
  rewrite N.eqb_refl. cbn [andb]. now rewrite E1, E2.
Qed.

Lemma decodeQuad_one (a : N) :
  (a < 256)%N ->
  decodeQuad (base64Char (a / 4)) (base64Char ((a mod 4) * 16)) padding padding
  = Some [a].
Proof.
  intros Ha.
  destruct (quad_bounds a 0 0 Ha eq_refl eq_refl) as (H1 & H2 & _).
  destruct (quad_bytes a 0 0 Ha eq_refl eq_refl) as (E1 & _).
  change (0 / 16)%N with 0%N in H2, E1. rewrite N.add_0_r in H2, E1.
  unfold decodeQuad.
  rewrite !base64Char_sextet by assumption.
  rewrite N.eqb_refl. cbn [andb]. now rewrite E1.
Qed.

Lemma base64_nil (bytes : list N) : base64 bytes = [] -> bytes = [].
Proof. destruct bytes as [|a [|b [|c rest]]]; cbn; congruence. Qed.

(** Decoding undoes [base64]. *)
Lemma decodeBase64_base64 (bytes : list N) :
  Forall isByte bytes -> decodeBase64 (base64 bytes) = Some bytes.
Proof.
  induction bytes as [|a|a b|a b c rest IH] using list_ind3; intros Hall.
  - reflexivity.
  - inversion Hall as [|? ? Ha _]; subst. cbn [base64 decodeBase64].
    now rewrite decodeQuad_one.
  - inversion Hall as [|? ? Ha Hall']; subst.
    inversion Hall' as [|? ? Hb _]; subst. cbn [base64 decodeBase64].
    now rewrite decodeQuad_two.
  - inversion Hall as [|? ? Ha Hall1]; subst.
    inversion Hall1 as [|? ? Hb Hall2]; subst.
    inversion Hall2 as [|? ? Hc Hrest]; subst.
    cbn [base64 app decodeBase64].
    rewrite decodeQuad_three by assumption.
    rewrite base64Char_not_padding, (IH Hrest).
    destruct (base64 rest) eqn:Hnil; [|reflexivity].
    now rewrite (base64_nil rest Hnil).
Qed.

Lemma int16_split (v : Z) :
  let u := (v mod 65536)%Z in
  (0 <= u mod 256 < 256 /\ 0 <= u / 256 < 256 /\ u = 256 * (u / 256) + u mod 256)%Z.
Proof.
  cbn zeta. pose proof (Z.mod_pos_bound v 65536 eq_refl) as Hu.
  pose proof (Z.mod_pos_bound (v mod 65536) 256 eq_refl) as Hlow.
  pose proof (Z.div_mod (v mod 65536) 256) as Hsplit.
  split; [exact Hlow|]. split; [|apply Hsplit; lia].
  split; [apply Z.div_pos; lia | apply Z.div_lt_upper_bound; lia].
Qed.

Lemma int16Bytes_bytes (v : Z) : Forall isByte (int16Bytes v).
Proof.
  destruct (int16_split v) as (Hlow & Hhigh & _).
  unfold int16Bytes, isByte. repeat constructor; lia.
Qed.

Lemma elementBytes_bytes (vs : list Z) : Forall isByte (elementBytes vs).
Proof.
  induction vs as [|v vs IH]; cbn; [constructor|].
  pose proof (int16Bytes_bytes v) as H. unfold int16Bytes in *.
  inversion H as [|? ? H1 H']; subst. inversion H' as [|? ? H2 _]; subst.
  now repeat constructor.
Qed.

Lemma binaryString_bytes (bytes : list N) :
  Forall isByte bytes -> binaryString bytes = bytes.
Proof.
  induction 1 as [|b bytes Hb _ IH]; cbn; [reflexivity|].
  rewrite IH. f_equal. unfold fromCharCode, isByte in *. apply N.mod_small. lia.
Qed.

Lemma isByte_forallb (bytes : list N) :
  Forall isByte bytes -> forallb (fun c => c <? 256)%N bytes = true.
Proof.
  induction 1 as [|b bytes Hb _ IH]; cbn; [reflexivity|].
  rewrite IH. unfold isByte in Hb. apply N.ltb_lt in Hb. now rewrite Hb.
Qed.

Lemma bufferBytes_bytes (int16Array : Int16Array.t) :
  Forall isByte (bufferBytes int16Array).
Proof.
  unfold bufferBytes.
  induction (Int16Array.buffer int16Array) as [|b bytes IH]; cbn;
    constructor; [|exact IH].
  unfold isByte. pose proof (Byte.to_N_bounded b). lia.
Qed.

Lemma to_N_byteOf (n : N) : isByte n -> Byte.to_N (byteOf n) = n.
Proof.
  unfold isByte, byteOf. intros Hn.
  destruct (Byte.of_N n) as [b|] eqn:Hb.
  - now apply Byte.to_of_N.
  - apply Byte.of_N_None_iff in Hb. lia.
Qed.

Lemma to_N_injective (a b : list Byte.byte) :
  map Byte.to_N a = map Byte.to_N b -> a = b.
Proof.
  revert b. induction a as [|x a IH]; intros [|y b]; cbn; try discriminate;
    [reflexivity|].
  intros [= Hxy Hab]. f_equal; [|now apply IH].
  pose proof (Byte.of_to_N x) as Hx. rewrite Hxy, Byte.of_to_N in Hx.
  congruence.
Qed.

(** An array that owns its buffer has the bytes of its elements, and no
    other. *)
Lemma bufferBytes_owned (elements : list Z) :
  bufferBytes (owned elements) = elementBytes elements.
Proof.
  unfold bufferBytes, owned. cbn [Int16Array.buffer]. rewrite map_map.
  induction (elementBytes_bytes elements) as [|n bytes Hn _ IH]; cbn;
    [reflexivity|].
  now rewrite IH, (to_N_byteOf n Hn).
Qed.

(** [btoa] never fails in [base64EncodeAudio]. *)
Lemma base64EncodeAudio_eq (int16Array : Int16Array.t) :
  base64EncodeAudio int16Array = Some (base64 (bufferBytes int16Array)).
Proof.
  unfold base64EncodeAudio, btoa.
  rewrite (binaryString_bytes _ (bufferBytes_bytes int16Array)).
  now rewrite (isByte_forallb _ (bufferBytes_bytes int16Array)).
Qed.

Lemma base64EncodeAudio_owned (elements : list Z) :
  base64EncodeAudio (owned elements) = Some (base64 (elementBytes elements)).
Proof.
  now rewrite base64EncodeAudio_eq, bufferBytes_owned.
Qed.

Lemma int16OfBytes_int16Bytes (v : Z) :
  isInt16 v ->
  int16OfBytes (Z.to_N ((v mod 65536) mod 256)) (Z.to_N ((v mod 65536) / 256)) = v.
Proof.
  unfold isInt16, int16OfBytes. intros Hv. cbn zeta.
  destruct (int16_split v) as (Hlow & Hhigh & Hsplit).
  rewrite !Z2N.id by lia. rewrite Z.add_comm, <- Hsplit.
  destruct (Z_lt_le_dec v 0) as [Hneg | Hpos].
  - assert (Hmod : (v mod 65536 = v + 65536)%Z)
      by (symmetry; apply Z.mod_unique with (-1)%Z; lia).
    rewrite Hmod.
    destruct (32768 <=? v + 65536)%Z eqn:Hc;
      [lia | apply Z.leb_gt in Hc; lia].
  - rewrite Z.mod_small by lia.
    destruct (32768 <=? v)%Z eqn:Hc; [apply Z.leb_le in Hc; lia | reflexivity].
Qed.

Lemma samplesOfBytes_elementBytes (vs : list Z) :
  Forall isInt16 vs -> samplesOfBytes (elementBytes vs) = Some vs.
Proof.
  induction 1 as [|v vs Hv _ IH]; [reflexivity|].
  cbn [elementBytes flat_map int16Bytes app samplesOfBytes].
  change (flat_map int16Bytes vs) with (elementBytes vs).
  now rewrite IH, int16OfBytes_int16Bytes.
Qed.

Lemma length_base64 (bytes : list N) :
  length (base64 bytes) = 4 * ((length bytes + 2) / 3).
Proof.
  induction bytes as [|a|a b|a b c rest IH] using list_ind3;
    try reflexivity.
  cbn [base64 app length]. rewrite IH.
  replace (S (S (S (length rest))) + 2) with (length rest + 2 + 1 * 3) by lia.
  rewrite Nat.div_add by lia. lia.
Qed.

Lemma length_elementBytes (vs : list Z) : length (elementBytes vs) = 2 * length vs.
Proof.
  induction vs as [|v vs IH]; [reflexivity|].
  unfold elementBytes in *. cbn [flat_map]. rewrite length_app, IH.
  cbn [int16Bytes length]. lia.
Qed.

Lemma base64_text (bytes : list N) : Forall isByte bytes -> isBase64Text (base64 bytes).
Proof.
  induction bytes as [|a|a b|a b c rest IH] using list_ind3; intros Hall.
  - exists [], []. auto.
  - inversion Hall as [|? ? Ha _]; subst.
    destruct (quad_bounds a 0 0 Ha eq_refl eq_refl) as (H1 & _ & _ & _ & H5 & _).
    exists [base64Char (a / 4); base64Char ((a mod 4) * 16)]%N, [padding; padding].
    split; [reflexivity|]. split; [|auto].
    repeat constructor; now apply base64Char_alphabet.
  - inversion Hall as [|? ? Ha Hall']; subst.
    inversion Hall' as [|? ? Hb _]; subst.
    destruct (quad_bounds a b 0 Ha Hb eq_refl) as (H1 & H2 & _ & _ & _ & H6).
    exists [base64Char (a / 4); base64Char ((a mod 4) * 16 + b / 16);
            base64Char ((b mod 16) * 4)]%N, [padding].
    split; [reflexivity|]. split; [|auto].
    repeat constructor; now apply base64Char_alphabet.
  - inversion Hall as [|? ? Ha Hall1]; subst.
    inversion Hall1 as [|? ? Hb Hall2]; subst.
    inversion Hall2 as [|? ? Hc Hrest]; subst.
    destruct (IH Hrest) as (body & pad & Heq & Hbody & Hpad).
    destruct (quad_bounds a b c Ha Hb Hc) as (H1 & H2 & H3 & H4 & _).
    exists ([base64Char (a / 4); base64Char ((a mod 4) * 16 + b / 16);
             base64Char ((b mod 16) * 4 + c / 64); base64Char (c mod 64)]%N
            ++ body), pad.
    split; [cbn [base64]; rewrite Heq; now rewrite <- app_assoc|].
    split; [|exact Hpad].
    apply Forall_app. split; [|exact Hbody].
    repeat constructor; now apply base64Char_alphabet.
Qed.

(** X1.  [base64EncodeAudio] never fails ([btoa] only sees bytes).  Its text
    is made from the whole buffer that the array is a view of: for a buffer
    of [b] bytes it has [4 * ceil (b / 3)] characters, all of the base64
    alphabet but for one or two padding characters at the very end.  For an
    array that owns its buffer that is [4 * ceil (2 n / 3)] characters for
    [n] samples. *)
Theorem X1_base64EncodeAudio_shape :
  (forall int16Array : Int16Array.t,
      exists data,
        base64EncodeAudio int16Array = Some data /\
        length data = 4 * ((length (Int16Array.buffer int16Array) + 2) / 3) /\
        isBase64Text data)
  /\
  (forall samples : list Z,
      exists data,
        base64EncodeAudio (owned samples) = Some data /\
        length data = 4 * ((2 * length samples + 2) / 3)).
Proof.
  split.
  - intros int16Array. exists (base64 (bufferBytes int16Array)).
    split; [apply base64EncodeAudio_eq|].
    split; [|apply base64_text, bufferBytes_bytes].
    rewrite length_base64. unfold bufferBytes. now rewrite length_map.
  - intros samples. exists (base64 (elementBytes samples)).
    split; [apply base64EncodeAudio_owned|].
    now rewrite length_base64, length_elementBytes.
Qed.

Lemma base64EncodeAudio_decodes (int16Array : list Z) :
  Forall isInt16 int16Array ->
  decodeAudio (base64 (elementBytes int16Array)) = Some int16Array.
Proof.
  intros Hvs. unfold decodeAudio.
  rewrite (decodeBase64_base64 _ (elementBytes_bytes int16Array)).
  now apply samplesOfBytes_elementBytes.
Qed.

Lemma elements_owned (samples : list Z) :
  Forall isInt16 samples -> elements (owned samples) = samples.
Proof.
  intros Hs. unfold elements. rewrite bufferBytes_owned.
  cbn [owned Int16Array.byteOffset Int16Array.length skipn].
  rewrite <- (length_elementBytes samples), firstn_all.
  now rewrite samplesOfBytes_elementBytes.
Qed.

(** X2.  [base64EncodeAudio] loses nothing of the buffer: decoding the
    base64 text gives back the bytes of the whole buffer that the array is a
    view of, so two arrays have the same text exactly if they are views of
    equal buffers, whatever part each of them shows.  For an array of 16-bit
    samples that owns its buffer, pairing the decoded bytes, low byte first,
    gives back its elements; so two such arrays with the same text have the
    same elements. *)
Theorem X2_base64EncodeAudio_lossless :
  (forall int16Array : Int16Array.t,
      exists data,
        base64EncodeAudio int16Array = Some data /\
        decodeBase64 data = Some (bufferBytes int16Array))
  /\
  (forall a b : Int16Array.t,
      base64EncodeAudio a = base64EncodeAudio b <->
      Int16Array.buffer a = Int16Array.buffer b)
  /\
  (forall samples : list Z,
      Forall isInt16 samples ->
      elements (owned samples) = samples /\
      exists data,
        base64EncodeAudio (owned samples) = Some data /\
        decodeAudio data = Some samples)
  /\
  (forall a b : list Z,
      Forall isInt16 a -> Forall isInt16 b ->
      base64EncodeAudio (owned a) = base64EncodeAudio (owned b) -> a = b).
Proof.
  split.
  { intros int16Array. exists (base64 (bufferBytes int16Array)).
    split; [apply base64EncodeAudio_eq|].
    apply decodeBase64_base64, bufferBytes_bytes. }
  split.
  { intros a b. rewrite !base64EncodeAudio_eq. split.
    - intros [= Heq]. apply to_N_injective.
      pose proof (decodeBase64_base64 _ (bufferBytes_bytes a)) as Da.
      pose proof (decodeBase64_base64 _ (bufferBytes_bytes b)) as Db.
      rewrite Heq in Da. unfold bufferBytes in *. congruence.
    - intros Heq. unfold bufferBytes. now rewrite Heq. }
  split.
  { intros samples Hs. split; [now apply elements_owned|].
    exists (base64 (elementBytes samples)).
    split; [apply base64EncodeAudio_owned | now apply base64EncodeAudio_decodes]. }
  intros a b Ha Hb Heq. rewrite !base64EncodeAudio_owned in Heq.
  pose proof (base64EncodeAudio_decodes a Ha) as Da.
  pose proof (base64EncodeAudio_decodes b Hb) as Db.
  assert (Heq' : base64 (elementBytes a) = base64 (elementBytes b)) by congruence.
  rewrite Heq' in Da. congruence.
Qed.

Lemma X2_witness :
  (exists data,
     base64EncodeAudio (owned [0; 1; -1; 32767; -32768]%Z) = Some data /\
     decodeAudio data = Some [0; 1; -1; 32767; -32768]%Z)
  /\
  (exists data,
     base64EncodeAudio aView = Some data /\
     decodeAudio data = Some [1; 2; 3; 4]%Z /\
     elements aView = [2; 3]%Z)
  /\
  base64EncodeAudio aView = base64EncodeAudio (owned [1; 2; 3; 4]%Z).
Proof.
  assert (H1 : Forall isInt16 [0; 1; -1; 32767; -32768]%Z)
    by (repeat constructor; unfold isInt16; lia).
  destruct X2_base64EncodeAudio_lossless as (Hbytes & Hsame & Hsamples & _).
  split; [exact (proj2 (Hsamples _ H1))|].
  split.
  - destruct (Hbytes aView) as (data & Hdata & Hdecoded).
    exists data. split; [exact Hdata|]. split; [|reflexivity].
    unfold decodeAudio. rewrite Hdecoded. reflexivity.
  - apply (proj2 (Hsame aView (owned [1; 2; 3; 4]%Z))). reflexivity.
Defined.

Lemma float32ToInt16_int16 (float32Array : list SpecFloat.spec_float) :
  Forall isInt16 (AudioUtils.float32ToInt16 float32Array).
Proof.
  induction float32Array as [|x xs IH]; cbn; constructor; [|exact IH].
  apply ToInt16_range.
Qed.

(** X3.  The audio path end to end: for every buffer of captured samples,
    quantising and encoding never fails, and what the receiver decodes from
    the text are exactly the quantised samples, one per captured sample
    ([float32ToInt16] returns a new array, which owns its buffer). *)
Theorem X3_audio_frame_round_trip :
  forall float32Array : list SpecFloat.spec_float,
    exists data,
      base64EncodeAudio (owned (AudioUtils.float32ToInt16 float32Array)) =
        Some data /\
      decodeAudio data = Some (AudioUtils.float32ToInt16 float32Array) /\
      length (AudioUtils.float32ToInt16 float32Array) = length float32Array.
Proof.
  intros xs. exists (base64 (elementBytes (AudioUtils.float32ToInt16 xs))).
  split; [apply base64EncodeAudio_owned|].
  split; [apply base64EncodeAudio_decodes, float32ToInt16_int16|].
  induction xs as [|x xs IH]; cbn; congruence.
Qed.

(* ================================================================== *)
(** * Properties of the service *)
(* ================================================================== *)

Import JS Segmentation JSFacts GeminiLiveService ServiceFacts ServiceProperties.

(** What one call of [handleMessage] does, in full, when a transcription
    callback is registered. *)
Lemma handleMessage_shape (this : Service) (cb : TranscriptionCallback)
    (message : LiveServerMessage) :
  onTranscription this = Some cb ->
  exists sentences pending,
    match deltaText (outputTx message) with
    | Some d => sentencesOf (currentOutputText this ++ d) sentences pending
    | None => sentences = [] /\ pending = currentOutputText this
    end /\
    let turn := isTurnComplete message in
    let out' := if turn then (if blank pending then pending else []) else pending in
    let input' :=
      if turn then []
      else match deltaText (outputTx message) with
           | Some _ => []
           | None => currentInputText this ++ inputDeltaOf message
           end in
    handleMessage this message =
      Some (set_currentOutputText out' (set_currentInputText input' this),
            map (final cb) sentences ++
            (if turn && negb (blank pending) then [final cb (trim pending)] else []) ++
            (if blank out'
             then (if blank input' then [] else [preview cb input'])
             else [preview cb out'])).
Proof.
  intros Hcb. destruct this as [se ac ms pr so ic ot oe it out].
  cbn [onTranscription] in Hcb. subst ot.
  unfold handleMessage, appendInput, appendOutput, inputDeltaOf.
  cbn [onTranscription currentOutputText currentInputText].
  destruct (deltaText (outputTx message)) as [d|].
  - assert (Hscan : exists sentences rest,
              finalizeSentences (length (out ++ d)) cb (out ++ d) =
                Some (rest, map (final cb) sentences) /\
              sentencesOf (out ++ d) sentences rest)
      by (apply finalizeSentences_spec; apply le_n).
    destruct Hscan as (sentences & rest & Hrun & Hspec).
    exists sentences, rest. split; [exact Hspec|].
    destruct (deltaText (inputTx message)) as [di|];
      cbn [currentOutputText currentInputText set_currentOutputText
           set_currentInputText];
      rewrite Hrun; unfold completeTurn, livePreview;
      cbn [currentOutputText currentInputText set_currentOutputText
           set_currentInputText];
      rewrite !trim_truthy;
      destruct (isTurnComplete message), (blank rest) eqn:Hrest;
      cbn [negb andb currentOutputText currentInputText set_currentOutputText
           set_currentInputText];
      rewrite ?trim_truthy, ?Hrest; reflexivity.
  - exists [], out. split; [now split|].
    destruct (deltaText (inputTx message)) as [di|];
      cbn [currentOutputText currentInputText set_currentOutputText
           set_currentInputText];
      unfold completeTurn, livePreview;
      cbn [currentOutputText currentInputText set_currentOutputText
           set_currentInputText];
      rewrite ?app_nil_r, !trim_truthy;
      destruct (isTurnComplete message), (blank out) eqn:Hout;
      cbn [negb andb currentOutputText currentInputText set_currentOutputText
           set_currentInputText map app];
      rewrite ?trim_truthy, ?Hout; cbn [negb];
      try match goal with
          | |- context [blank ?x] => destruct (blank x)
          end; reflexivity.
Qed.

(** ** Nothing but white space is dropped *)

Lemma nonSpace_app (s t : jsstring) : nonSpace (s ++ t) = nonSpace s ++ nonSpace t.
Proof. apply filter_app. Qed.

Lemma nonSpace_blank (s : jsstring) : blank s = true -> nonSpace s = [].
Proof.
  unfold nonSpace. induction s as [|c s IH]; cbn; [reflexivity|].
  rewrite andb_true_iff. intros [Hc Hs]. now rewrite Hc, IH.
Qed.

Lemma nonSpace_trimStart (s : jsstring) : nonSpace (trimStart s) = nonSpace s.
Proof.
  unfold nonSpace. induction s as [|c s IH]; cbn; [reflexivity|].
  destruct (isWhiteSpace c) eqn:Hc; cbn; [exact IH | now rewrite Hc].
Qed.

Lemma nonSpace_rev (s : jsstring) : nonSpace (rev s) = rev (nonSpace s).
Proof.
  induction s as [|c s IH]; [reflexivity|].
  cbn [rev]. rewrite nonSpace_app, IH. unfold nonSpace. cbn.
  destruct (isWhiteSpace c); cbn; [now rewrite app_nil_r | reflexivity].
Qed.

Lemma nonSpace_trim (s : jsstring) : nonSpace (trim s) = nonSpace s.
Proof.
  unfold trim, trimEnd.
  now rewrite nonSpace_rev, nonSpace_trimStart, nonSpace_rev,
    nonSpace_trimStart, rev_involutive.
Qed.

Lemma firstBoundary_nonSpace (s sentence remainder : jsstring) :
  firstBoundary s sentence remainder ->
  nonSpace (trim sentence) ++ nonSpace remainder = nonSpace s.
Proof.
  intros [pre p ws rem Hp Hne Hb Hr Hnb].
  rewrite nonSpace_trim.
  change (p :: ws ++ rem) with ([p] ++ ws ++ rem).
  rewrite !nonSpace_app, (nonSpace_blank ws Hb). cbn [app].
  now rewrite <- app_assoc.
Qed.

Lemma sentencesOf_nonSpace (s : jsstring) (sentences : list jsstring)
    (rest : jsstring) :
  sentencesOf s sentences rest ->
  nonSpace (concat sentences ++ rest) = nonSpace s.
Proof.
  induction 1 as [s Hnb | s a rem ss r Hfirst Hrest IH]; [reflexivity|].
  cbn [concat]. rewrite <- app_assoc, nonSpace_app, IH.
  now apply firstBoundary_nonSpace.
Qed.

Lemma sentencesOf_rest (s : jsstring) (sentences : list jsstring)
    (rest : jsstring) :
  sentencesOf s sentences rest -> ~ hasBoundary rest.
Proof. induction 1; assumption. Qed.

Lemma no_boundary_nil : ~ hasBoundary [].
Proof. intros (pre & p & w & post & H & _). now destruct pre. Qed.

Lemma handleMessage_conserves (this : Service) (cb : TranscriptionCallback)
    (message : LiveServerMessage) :
  onTranscription this = Some cb ->
  exists this' calls,
    handleMessage this message = Some (this', calls) /\
    nonSpace (concat (finalSegments calls) ++ currentOutputText this') =
    nonSpace (currentOutputText this ++ outputDeltaOf message) /\
    onTranscription this' = Some cb /\
    isConnected this' = isConnected this.
Proof.
  intros Hcb.
  destruct (handleMessage_shape this cb message Hcb)
    as (sentences & pending & Hscan & Hrun).
  cbv zeta in Hrun. rewrite Hrun. do 2 eexists. split; [reflexivity|].
  split; [|split; [exact Hcb | reflexivity]].
  assert (Hpending : nonSpace (concat sentences ++ pending) =
                     nonSpace (currentOutputText this ++ outputDeltaOf message)).
  { unfold outputDeltaOf. destruct (deltaText (outputTx message)) as [d|].
    - now apply sentencesOf_nonSpace.
    - destruct Hscan as [-> ->]. now rewrite app_nil_r. }
  rewrite <- Hpending.
  cbn [currentOutputText set_currentOutputText].
  rewrite !finalSegments_app, finalSegments_finals.
  assert (Hpv : forall out inp,
            finalSegments (if blank out
                           then (if blank inp then [] else [preview cb inp])
                           else [preview cb out]) = []).
  { intros out inp. now destruct (blank out), (blank inp). }
  rewrite Hpv, app_nil_r.
  destruct (isTurnComplete message), (blank pending) eqn:Hblank;
    cbn [andb negb finalSegments flat_map final app];
    rewrite ?app_nil_r; try reflexivity.
  rewrite concat_app. cbn [concat]. rewrite !app_nil_r, !nonSpace_app.
  now rewrite nonSpace_trim.
Qed.

(** X4.  Through a message the service drops or reorders nothing but white
    space: the final segments that the message emits, followed by what the
    output buffer holds afterwards, have exactly the non-white-space code
    units of the buffer before followed by the output delta of the message. *)
Theorem X4_message_conserves_text :
  forall (this : Service) (cb : TranscriptionCallback)
         (message : LiveServerMessage),
    onTranscription this = Some cb ->
    exists this' calls,
      handleMessage this message = Some (this', calls) /\
      nonSpace (concat (finalSegments calls) ++ currentOutputText this') =
      nonSpace (currentOutputText this ++ outputDeltaOf message).
Proof.
  intros this cb message Hcb.
  destruct (handleMessage_conserves this cb message Hcb)
    as (this' & calls & Hrun & Hcons & _).
  now exists this', calls.
Qed.

Lemma X4_witness :
  exists this' calls,
    handleMessage listening (outputDelta (js "Hi there. How ")) =
      Some (this', calls) /\
    nonSpace (concat (finalSegments calls) ++ currentOutputText this') =
    nonSpace (currentOutputText listening ++
              outputDeltaOf (outputDelta (js "Hi there. How "))).
Proof.
  exact (X4_message_conserves_text listening 1
           (outputDelta (js "Hi there. How ")) eq_refl).
Defined.

Lemma disconnect_finals (this : Service) (cb : TranscriptionCallback) :
  onTranscription this = Some cb ->
  isConnected this = true ->
  nonSpace (concat (finalSegments (snd (disconnect this)))) =
  nonSpace (currentOutputText this).
Proof.
  intros Hcb Hconn.
  rewrite disconnect_calls, Hcb, Hconn, finalSegments_app, releases_no_finals.
  cbn [andb]. destruct (blank (currentOutputText this)) eqn:Hblank; cbn.
  - now rewrite (nonSpace_blank _ Hblank).
  - now rewrite app_nil_r, nonSpace_trim.
Qed.

(** X5.  A session from its first message to the stop: while the service is
    connected with a callback registered, a run of messages followed by
    [disconnect] emits final segments that have, put together, exactly the
    non-white-space code units of the buffer at the start and of all the
    output deltas, in order: nothing that was translated is lost. *)
Theorem X5_session_conserves_text :
  forall (messages : list LiveServerMessage) (this : Service)
         (cb : TranscriptionCallback),
    onTranscription this = Some cb ->
    isConnected this = true ->
    exists calls,
      run this (map onmessageEv messages ++ [disconnectEv]) =
        Some (newService, calls) /\
      nonSpace (concat (finalSegments calls)) =
      nonSpace (currentOutputText this ++ concat (map outputDeltaOf messages)).
Proof.
  induction messages as [|message messages IH]; intros this cb Hcb Hconn.
  - cbn [map app run step concat].
    pose proof (disconnect_state this) as Hstate.
    pose proof (disconnect_finals this cb Hcb Hconn) as Hfinals.
    destruct (disconnect this) as [this' calls]. cbn [fst snd] in *. subst this'.
    exists (calls ++ []). split; [reflexivity|].
    now rewrite !app_nil_r.
  - destruct (handleMessage_conserves this cb message Hcb) as (this' & calls1 & Hrun' & Hcons & Hcb' & Hconn').
    destruct (IH this' cb Hcb' (eq_trans Hconn' Hconn)) as (calls & Hrest & Hfinals).
    exists (calls1 ++ calls). cbn [map app run step onmessage].
    unfold onmessage. rewrite Hrun', Hrest. split; [reflexivity|].
    rewrite finalSegments_app, concat_app, nonSpace_app, Hfinals.
    cbn [concat]. rewrite nonSpace_app, app_assoc, <- nonSpace_app, Hcons.
    now rewrite <- !nonSpace_app, <- app_assoc.
Qed.

Lemma X5_witness :
  exists calls,
    run listening
        (map onmessageEv [outputDelta (js "Hello wor"); outputDelta (js "ld. By");
                          inputDelta (js "tschuess"); outputDelta (js "e")]
         ++ [disconnectEv]) = Some (newService, calls) /\
    nonSpace (concat (finalSegments calls)) =
    nonSpace (currentOutputText listening ++
              concat (map outputDeltaOf
                        [outputDelta (js "Hello wor"); outputDelta (js "ld. By");
                         inputDelta (js "tschuess"); outputDelta (js "e")])).
Proof.
  exact (X5_session_conserves_text
           [outputDelta (js "Hello wor"); outputDelta (js "ld. By");
            inputDelta (js "tschuess"); outputDelta (js "e")]
           listening 1 eq_refl eq_refl).
Defined.

(** ** What holds between two events *)

Lemma settled_new : settled newService.
Proof.
  split; [exact no_boundary_nil|]. split; [now split | now split].
Qed.

Lemma handleMessage_settled (this this' : Service) (message : LiveServerMessage)
    (calls : list Call) :
  settled this ->
  handleMessage this message = Some (this', calls) ->
  settled this'.
Proof.
  intros (Hnb & Hempty & Hboth) Hrun.
  destruct (onTranscription this) as [cb|] eqn:Hcb.
  - destruct (handleMessage_shape this cb message Hcb)
      as (sentences & pending & Hscan & Hrun').
    cbv zeta in Hrun'. rewrite Hrun' in Hrun. injection Hrun as <- _.
    assert (Hpending : ~ hasBoundary pending).
    { destruct (deltaText (outputTx message)) as [d|].
      - exact (sentencesOf_rest _ _ _ Hscan).
      - now destruct Hscan as [_ ->]. }
    split; [|split].
    + cbn [currentOutputText set_currentOutputText].
      destruct (isTurnComplete message); [|exact Hpending].
      destruct (blank pending); [exact Hpending | exact no_boundary_nil].
    + cbn [onTranscription set_currentOutputText set_currentInputText].
      rewrite Hcb. discriminate.
    + cbn [onTranscription onError set_currentOutputText set_currentInputText].
      rewrite Hcb. exact Hboth.
  - unfold handleMessage in Hrun. rewrite Hcb in Hrun.
    injection Hrun as <- _.
    split; [exact Hnb | rewrite Hcb; now split].
Qed.

Lemma settled_frame (this this' : Service) :
  currentInputText this' = currentInputText this ->
  currentOutputText this' = currentOutputText this ->
  onTranscription this' = onTranscription this ->
  onError this' = onError this ->
  settled this -> settled this'.
Proof.
  unfold settled. intros -> -> -> ->. trivial.
Qed.

Lemma connectCatch_settled (err : Thrown) (this : Service) :
  settled this -> settled (fst (connectCatch err this)).
Proof.
  intros Hs.
  destruct (connectCatch_cases err this) as [[_ H] | (_ & reported & H & _)];
    rewrite H; [exact Hs | exact settled_new].
Qed.

Lemma step_settled (this this' : Service) (e : Event) (calls : list Call) :
  settled this -> step this e = Some (this', calls) -> settled this'.
Proof.
  intros Hs.
  destruct e as [onT onE ctx | il ol stream thrown | sess | err | | src proc
                | m | | code | src proc]; cbn [step].
  - intros [= H]. apply (f_equal fst) in H. cbn [fst] in H. subst this'.
    unfold connectStart. destruct (isConnected this); [exact Hs|].
    assert (settled (set_currentOutputText [] (set_currentInputText []
              (set_onError (Some onE) (set_onTranscription (Some onT) this)))))
      as Hfresh.
    { split; [exact no_boundary_nil|]. split; [discriminate|].
      split; discriminate. }
    destruct ctx as [err|ctx].
    + now apply connectCatch_settled.
    + revert Hfresh. now apply settled_frame.
  - intros [= H]. apply (f_equal fst) in H. cbn [fst] in H. subst this'.
    unfold connectWithStream. destruct thrown as [err|].
    + unfold andThen.
      pose proof (connectCatch_settled err (set_mediaStream (Some stream) this))
        as Hc.
      destruct (connectCatch err _) as [this1 calls1]. cbn [fst] in *.
      apply Hc. now apply settled_frame with this.
    + now apply settled_frame with this.
  - intros [= <- _]. now apply settled_frame with this.
  - intros [= H]. apply (f_equal fst) in H. cbn [fst] in H. subst this'.
    now apply connectCatch_settled.
  - intros [= H]. apply (f_equal fst) in H. cbn [fst] in H. subst this'.
    rewrite disconnect_state. exact settled_new.
  - intros [= H]. apply (f_equal fst) in H. cbn [fst] in H. subst this'.
    unfold onopen, startAudioStreaming, createNodes.
    cbn [audioContext mediaStream set_isConnected].
    destruct (audioContext this) as [[i st]|], (mediaStream this);
      try destruct st; now apply settled_frame with this.
  - now apply handleMessage_settled.
  - intros [= H]. apply (f_equal fst) in H. cbn [fst] in H. subst this'.
    unfold onerror. rewrite handleRuntimeError_eq.
    destruct (isConnected this); [exact settled_new | exact Hs].
  - intros [= H]. apply (f_equal fst) in H. cbn [fst] in H. subst this'.
    unfold onclose. rewrite handleRuntimeError_eq.
    cbn [isConnected set_isConnected].
    destruct (isConnected this && negb (code =? 1000)%Z);
      now apply settled_frame with this.
  - intros [= H]. apply (f_equal fst) in H. cbn [fst] in H. subst this'.
    unfold createNodes.
    destruct (audioContext this), (mediaStream this);
      now apply settled_frame with this.
Qed.

Lemma run_settled (events : list Event) :
  forall (this this' : Service) (calls : list Call),
    settled this -> run this events = Some (this', calls) -> settled this'.
Proof.
  induction events as [|e events IH]; intros this this' calls Hs; cbn [run].
  - now intros [= <- _].
  - destruct (step this e) as [[this1 calls1]|] eqn:Hstep; [|discriminate].
    destruct (run this1 events) as [[this2 calls2]|] eqn:Hrun; [|discriminate].
    intros [= <- _]. apply (IH this1 this2 calls2); [|exact Hrun].
    exact (step_settled this this1 e calls1 Hs Hstep).
Qed.

(** X6.  Whatever has happened to a service object since it was made, its
    output buffer holds no finished sentence (no terminal punctuation mark
    followed by white space is left in it), both buffers are empty whenever
    no transcription callback is registered, and the two callbacks are
    registered together or not at all. *)
Theorem X6_buffers_settled :
  forall (events : list Event) (this : Service) (calls : list Call),
    run newService events = Some (this, calls) ->
    ~ hasBoundary (currentOutputText this) /\
    (onTranscription this = None ->
     currentInputText this = [] /\ currentOutputText this = []) /\
    (onTranscription this = None <-> onError this = None).
Proof.
  intros events this calls Hrun.
  exact (run_settled events newService this calls settled_new Hrun).
Qed.

Lemma X6_witness :
  ~ hasBoundary (currentOutputText (set_currentOutputText (js "Yo") listening)) /\
  (onTranscription (set_currentOutputText (js "Yo") listening) = None ->
   currentInputText (set_currentOutputText (js "Yo") listening) = [] /\
   currentOutputText (set_currentOutputText (js "Yo") listening) = []) /\
  (onTranscription (set_currentOutputText (js "Yo") listening) = None <->
   onError (set_currentOutputText (js "Yo") listening) = None).
Proof.
  exact (X6_buffers_settled
           [connectEv 1 2 (inr aContext);
            streamEv (js "Swiss German") (js "Standard German") aStream None;
            sessionEv 0; onopenEv 0 0;
            onmessageEv (outputDelta (js "Hi. Yo"))]
           (set_currentOutputText (js "Yo") listening)
           [getUserMediaCall;
            liveConnectCall (js "Swiss German") (js "Standard German");
            connectNodesCall 0 0;
            final 1 (js "Hi."); preview 1 (js "Yo")]
           eq_refl).
Defined.

(** X7.  The calls of one message are its final segments followed by at most
    one preview, which is the last call: the output buffer as the message
    leaves it if that is not blank, else the input-echo buffer if that is
    not blank, else none.  A preview is never blank. *)
Theorem X7_one_preview_last :
  forall (this : Service) (cb : TranscriptionCallback)
         (message : LiveServerMessage),
    onTranscription this = Some cb ->
    exists this' finals,
      handleMessage this message =
        Some (this',
              map (final cb) finals ++
              (if blank (currentOutputText this')
               then (if blank (currentInputText this') then []
                     else [preview cb (currentInputText this')])
               else [preview cb (currentOutputText this')])).
Proof.
  intros this cb message Hcb.
  destruct (handleMessage_shape this cb message Hcb)
    as (sentences & pending & _ & Hrun).
  cbv zeta in Hrun. rewrite Hrun.
  exists (set_currentOutputText
            (if isTurnComplete message
             then (if blank pending then pending else [])
             else pending)
            (set_currentInputText
               (if isTurnComplete message then []
                else match deltaText (outputTx message) with
                     | Some _ => []
                     | None => currentInputText this ++ inputDeltaOf message
                     end) this)),
         (sentences ++
          (if isTurnComplete message && negb (blank pending)
           then [trim pending] else [])).
  cbn [currentOutputText currentInputText set_currentOutputText
       set_currentInputText].
  rewrite map_app, <- app_assoc.
  now destruct (isTurnComplete message && negb (blank pending)).
Qed.

Lemma X7_witness :
  exists this' finals,
    handleMessage listening (inputDelta (js "gruezi")) =
      Some (this',
            map (final 1) finals ++
            (if blank (currentOutputText this')
             then (if blank (currentInputText this') then []
                   else [preview 1 (currentInputText this')])
             else [preview 1 (currentOutputText this')])).
Proof.
  exact (X7_one_preview_last listening 1 (inputDelta (js "gruezi")) eq_refl).
Defined.

(** X8.  A close event of the channel, whatever its code, only lowers the
    connected flag: it reports no error and releases nothing; and when
    [disconnect] follows, it releases what the object holds but does not
    finalize the text left in the output buffer: no callback is called. *)
Theorem X8_close_reports_nothing :
  forall (this : Service) (code : Z),
    onclose code this = (set_isConnected false this, []) /\
    run this [oncloseEv code; disconnectEv] =
      Some (newService, releases this).
Proof.
  intros this code.
  assert (Hclose : onclose code this = (set_isConnected false this, [])).
  { unfold onclose. rewrite handleRuntimeError_eq.
    cbn [isConnected set_isConnected].
    now destruct (isConnected this && negb (code =? 1000)%Z). }
  split; [exact Hclose|].
  cbn [run step]. rewrite Hclose.
  rewrite (disconnect_eq (set_isConnected false this)), disconnect_calls.
  cbn [isConnected set_isConnected onTranscription andb app].
  destruct (onTranscription this); now rewrite app_nil_r.
Qed.

Lemma run_failures_new (later : list Event) :
  onlyFailures later = true -> run newService later = Some (newService, []).
Proof.
  induction later as [|e later IH]; [reflexivity|].
  unfold onlyFailures. cbn [forallb]. rewrite andb_true_iff. intros [He Hlater].
  destruct e; try discriminate; cbn [run step].
  - change (onerror newService) with (newService, @nil Call).
    cbv beta iota. now rewrite (IH Hlater).
  - assert (Hclose : onclose code newService = (newService, [])).
    { unfold onclose. rewrite handleRuntimeError_eq. reflexivity. }
    rewrite Hclose. now rewrite (IH Hlater).
Qed.

(** X9.  A transport error on a connected service is reported once, with
    the interruption message and before anything else; then [disconnect]
    runs (the pending text, if any, is finalized after the report) and the
    object is left as new, so that further transport errors or close events
    report nothing.  On a service that is not connected a transport error
    does nothing. *)
Theorem X9_transport_error_once :
  (forall (this : Service) (cb : ErrorCallback) (later : list Event),
      isConnected this = true ->
      onError this = Some cb ->
      onlyFailures later = true ->
      run this (onerrorEv :: later) =
        Some (newService,
              onErrorCall cb interruptedError :: snd (disconnect this)))
  /\
  (forall this : Service,
      isConnected this = false -> onerror this = (this, [])).
Proof.
  split.
  - intros this cb later Hconn Hcb Hlater. cbn [run step].
    unfold onerror. rewrite handleRuntimeError_eq, Hconn, Hcb.
    rewrite (run_failures_new later Hlater). cbn [app].
    now rewrite app_nil_r.
  - intros this Hconn. unfold onerror. now rewrite Hconn.
Qed.

Lemma X9_witness :
  run (set_currentOutputText (js "half a sent") listening)
      [onerrorEv; oncloseEv 1006; onerrorEv] =
    Some (newService,
          onErrorCall 2 interruptedError
          :: snd (disconnect (set_currentOutputText (js "half a sent") listening)))
  /\ onerror newService = (newService, []).
Proof.
  split.
  - exact (proj1 X9_transport_error_once
             (set_currentOutputText (js "half a sent") listening) 2
             [oncloseEv 1006; onerrorEv] eq_refl eq_refl eq_refl).
  - exact (proj2 X9_transport_error_once newService eq_refl).
Defined.

(* ================================================================== *)
(** * Properties of the audio stream *)
(* ================================================================== *)

Import JS Segmentation JSFacts GeminiLiveService ServiceFacts ServiceProperties.
Import AudioUtils AudioWire AudioStreaming.

Lemma handleMessage_connected (this this' : Service) (message : LiveServerMessage)
    (calls : list Call) :
  handleMessage this message = Some (this', calls) ->
  isConnected this' = isConnected this.
Proof.
  destruct (onTranscription this) as [cb|] eqn:Hcb.
  - destruct (handleMessage_shape this cb message Hcb)
      as (sentences & pending & _ & Hrun).
    cbv zeta in Hrun. rewrite Hrun. now intros [= <- _].
  - unfold handleMessage. rewrite Hcb. now intros [= <- _].
Qed.

Lemma connectCatch_not_connected (err : Thrown) (this : Service) :
  isConnected this = false -> isConnected (fst (connectCatch err this)) = false.
Proof.
  intros Hconn.
  destruct (connectCatch_cases err this) as [[_ H] | (_ & reported & H & _)];
    rewrite H; [exact Hconn | reflexivity].
Qed.

(** Only the opening of a channel raises the connected flag. *)
Lemma step_not_connected (this this' : Service) (e : Event) (calls : list Call) :
  isConnected this = false ->
  noOpen [e] = true ->
  step this e = Some (this', calls) ->
  isConnected this' = false.
Proof.
  intros Hconn He.
  destruct e as [onT onE ctx | il ol stream thrown | sess | err | | src proc
                | m | | code | src proc]; cbn [step]; try discriminate.
  - intros [= H]. apply (f_equal fst) in H. cbn [fst] in H. subst this'.
    unfold connectStart. rewrite Hconn.
    destruct ctx as [err|ctx]; [|exact Hconn].
    now apply connectCatch_not_connected.
  - intros [= H]. apply (f_equal fst) in H. cbn [fst] in H. subst this'.
    unfold connectWithStream. destruct thrown as [err|]; [|exact Hconn].
    unfold andThen.
    pose proof (connectCatch_not_connected err
                  (set_mediaStream (Some stream) this) Hconn) as Hc.
    now destruct (connectCatch err _) as [this1 calls1].
  - intros [= <- _]. exact Hconn.
  - intros [= H]. apply (f_equal fst) in H. cbn [fst] in H. subst this'.
    now apply connectCatch_not_connected.
  - intros [= H]. apply (f_equal fst) in H. cbn [fst] in H. subst this'.
    now rewrite disconnect_state.
  - intros H. rewrite (handleMessage_connected this this' m calls H). exact Hconn.
  - intros [= H]. apply (f_equal fst) in H. cbn [fst] in H. subst this'.
    unfold onerror. now rewrite Hconn.
  - intros [= H]. apply (f_equal fst) in H. cbn [fst] in H. subst this'.
    unfold onclose. rewrite handleRuntimeError_eq.
    cbn [isConnected set_isConnected]. now rewrite Hconn.
  - intros [= H]. apply (f_equal fst) in H. cbn [fst] in H. subst this'.
    unfold createNodes.
    destruct (audioContext this), (mediaStream this); exact Hconn.
Qed.

Lemma noOpen_cons (e : Event) (events : list Event) :
  noOpen (e :: events) = noOpen [e] && noOpen events.
Proof. unfold noOpen. cbn. now rewrite andb_true_r. Qed.

Lemma run_not_connected (events : list Event) :
  forall (this this' : Service) (calls : list Call),
    isConnected this = false ->
    noOpen events = true ->
    run this events = Some (this', calls) ->
    isConnected this' = false.
Proof.
  induction events as [|e events IH]; intros this this' calls Hconn Hno;
    cbn [run].
  - now intros [= <- _].
  - rewrite noOpen_cons, andb_true_iff in Hno. destruct Hno as [He Hrest].
    destruct (step this e) as [[this1 calls1]|] eqn:Hstep; [|discriminate].
    destruct (run this1 events) as [[this2 calls2]|] eqn:Hrun; [|discriminate].
    intros [= <- _]. apply (IH this1 this2 calls2); try assumption.
    exact (step_not_connected this this1 e calls1 Hconn He Hstep).
Qed.

(** X10.  No audio leaves a service that is not connected: after
    [disconnect], and as long as no channel opens, a captured buffer makes no
    frame and a frame that was waiting for the session is not sent.  On a
    connected service every captured buffer makes one frame of type
    "audio/pcm;rate=16000" whose data the receiver decodes to the quantised
    samples. *)
Theorem X10_audio_only_while_connected :
  (forall (this this' : Service) (events : list Event) (calls : list Call)
          (inputData : list spec_float) (media : Media),
      noOpen events = true ->
      run (fst (disconnect this)) events = Some (this', calls) ->
      onaudioprocess inputData this' = None /\
      sendWhenReady media this' = [])
  /\
  (forall (this : Service) (inputData : list spec_float),
      isConnected this = true ->
      exists base64Data,
        onaudioprocess inputData this =
          Some {| mimeType := js "audio/pcm;rate=16000"; data := base64Data |} /\
        decodeAudio base64Data = Some (float32ToInt16 inputData) /\
        sendWhenReady
          {| mimeType := js "audio/pcm;rate=16000"; data := base64Data |} this =
          [{| mimeType := js "audio/pcm;rate=16000"; data := base64Data |}]).
Proof.
  split.
  - intros this this' events calls inputData media Hno Hrun.
    rewrite disconnect_state in Hrun.
    pose proof (run_not_connected events newService this' calls eq_refl Hno Hrun)
      as Hconn.
    unfold onaudioprocess, sendWhenReady. now rewrite Hconn.
  - intros this inputData Hconn.
    exists (base64 (elementBytes (float32ToInt16 inputData))).
    unfold onaudioprocess, sendWhenReady. rewrite Hconn. cbn [negb].
    rewrite base64EncodeAudio_owned. split; [reflexivity|]. split; [|reflexivity].
    apply base64EncodeAudio_decodes, float32ToInt16_int16.
Qed.

Lemma X10_witness :
  (onaudioprocess [one; minusHalf] newService = None /\
   sendWhenReady {| mimeType := js "audio/pcm;rate=16000"; data := js "AAA=" |}
                 newService = [])
  /\
  (exists base64Data,
     onaudioprocess [one; minusHalf] listening =
       Some {| mimeType := js "audio/pcm;rate=16000"; data := base64Data |} /\
     decodeAudio base64Data = Some (float32ToInt16 [one; minusHalf]) /\
     sendWhenReady
       {| mimeType := js "audio/pcm;rate=16000"; data := base64Data |} listening =
       [{| mimeType := js "audio/pcm;rate=16000"; data := base64Data |}]).
Proof.
  split.
  - exact (proj1 X10_audio_only_while_connected listening newService
             [onmessageEv (outputDelta (js "late")); onerrorEv; disconnectEv] []
             [one; minusHalf]
             {| mimeType := js "audio/pcm;rate=16000"; data := js "AAA=" |}
             eq_refl eq_refl).
  - exact (proj2 X10_audio_only_while_connected listening [one; minusHalf] eq_refl).
Defined.

(* ================================================================== *)
(** * Properties of the storage *)
(* ================================================================== *)

Import JS Types Storage.

Lemma strictEquals_eq (a b : jsstring) : strictEquals a b = true <-> a = b.
Proof.
  revert b. induction a as [|x a IH]; intros [|y b]; cbn; split;
    try congruence.
  - rewrite andb_true_iff, N.eqb_eq, IH. now intros [-> ->].
  - intros [= -> ->]. rewrite N.eqb_refl. now apply IH.
Qed.

Lemma strictEquals_refl (a : jsstring) : strictEquals a a = true.
Proof. now apply strictEquals_eq. Qed.

Lemma strictEquals_neq (a b : jsstring) : strictEquals a b = false <-> a <> b.
Proof.
  rewrite <- strictEquals_eq. now destruct (strictEquals a b).
Qed.

(** [findIndex] and the assignment at the index it finds. *)
Lemma findIndexFrom_assign (session : Session.t) (sessions : list Session.t) :
  forall i : Z,
    (0 <= i)%Z ->
    let index :=
      findIndexFrom (fun s => strictEquals (Session.id s) (Session.id session))
                    i sessions in
    (hasId (Session.id session) sessions = false /\ index = (-1)%Z) \/
    (hasId (Session.id session) sessions = true /\ (i <= index)%Z /\
     assign sessions (Z.to_nat (index - i)) session = replaceFirst session sessions).
Proof.
  induction sessions as [|s rest IH]; intros i Hi; cbn zeta.
  - left. now split.
  - cbn [findIndexFrom hasId existsb replaceFirst].
    destruct (strictEquals (Session.id s) (Session.id session)) eqn:Hs.
    + right. split; [reflexivity|]. split; [lia|].
      now rewrite Z.sub_diag.
    + destruct (IH (i + 1)%Z ltac:(lia)) as [[Hno Hidx] | (Hyes & Hle & Hassign)].
      * left. split; [exact Hno | exact Hidx].
      * right. split; [exact Hyes|]. split; [lia|].
        set (index := findIndexFrom _ (i + 1) rest) in *.
        replace (Z.to_nat (index - i)) with (S (Z.to_nat (index - (i + 1)))) by lia.
        cbn [assign]. now rewrite Hassign.
Qed.

(** [saveSession] on an array: replace the first session of that id, or put
    the session in front. *)
Lemma saveSession_array (session : Session.t) (store : Item)
    (sessions : list Session.t) :
  loadSessions store = array sessions ->
  saveSession session store =
    Some (sessionsOf
            (if hasId (Session.id session) sessions
             then replaceFirst session sessions
             else session :: sessions)).
Proof.
  intros Hload. unfold saveSession, findIndex. rewrite Hload.
  destruct (findIndexFrom_assign session sessions 0 (Z.le_refl 0))
    as [[Hno Hidx] | (Hyes & Hle & Hassign)]; cbn zeta in *.
  - now rewrite Hidx, Hno.
  - rewrite Hyes. rewrite Z.sub_0_r in Hassign.
    destruct (0 <=? _)%Z eqn:Hcmp; [now rewrite Hassign|].
    apply Z.leb_gt in Hcmp. lia.
Qed.

Lemma findById_replaceFirst (session : Session.t) (sessions : list Session.t) :
  hasId (Session.id session) sessions = true ->
  findById (Session.id session) (replaceFirst session sessions) = Some session.
Proof.
  unfold findById, hasId.
  induction sessions as [|s rest IH]; cbn; [discriminate|].
  destruct (strictEquals (Session.id s) (Session.id session)) eqn:Hs; cbn.
  - now rewrite strictEquals_refl.
  - now rewrite Hs.
Qed.

Lemma others_replaceFirst (session : Session.t) (sessions : list Session.t) :
  others (Session.id session) (replaceFirst session sessions) =
  others (Session.id session) sessions.
Proof.
  unfold others. induction sessions as [|s rest IH]; cbn; [reflexivity|].
  destruct (strictEquals (Session.id s) (Session.id session)) eqn:Hs; cbn.
  - now rewrite strictEquals_refl.
  - now rewrite Hs, IH.
Qed.

Lemma length_replaceFirst (session : Session.t) (sessions : list Session.t) :
  length (replaceFirst session sessions) = length sessions.
Proof.
  induction sessions as [|s rest IH]; cbn; [reflexivity|].
  destruct (strictEquals (Session.id s) (Session.id session)); cbn; congruence.
Qed.

Lemma hasId_replaceFirst (session : Session.t) (sessions : list Session.t) :
  hasId (Session.id session) (replaceFirst session sessions) =
  hasId (Session.id session) sessions.
Proof.
  unfold hasId. induction sessions as [|s rest IH]; cbn; [reflexivity|].
  destruct (strictEquals (Session.id s) (Session.id session)) eqn:Hs; cbn.
  - now rewrite strictEquals_refl.
  - now rewrite Hs.
Qed.

Lemma replaceFirst_again (session : Session.t) (sessions : list Session.t) :
  replaceFirst session (replaceFirst session sessions) =
  replaceFirst session sessions.
Proof.
  induction sessions as [|s rest IH]; cbn; [reflexivity|].
  destruct (strictEquals (Session.id s) (Session.id session)) eqn:Hs; cbn.
  - now rewrite strictEquals_refl.
  - now rewrite Hs, IH.
Qed.

Lemma others_none (id : jsstring) (sessions : list Session.t) :
  hasId id sessions = false -> others id sessions = sessions.
Proof.
  unfold hasId, others. induction sessions as [|s rest IH]; cbn; [reflexivity|].
  rewrite orb_false_iff. intros [Hs Hrest]. now rewrite Hs, IH.
Qed.

(** X11.  [saveSession] and then [loadSessions]: on a store that reads as an
    array (also a missing or unreadable item, which reads as the empty
    array), the session is saved; looking it up by its id in what is loaded
    afterwards gives the session as saved; the sessions with other ids stay,
    in their order; the array grows by one, at its front, exactly if the id
    was new; and saving the same session again changes nothing. *)
Theorem X11_save_then_load :
  forall (session : Session.t) (store : Item) (sessions : list Session.t),
    loadSessions store = array sessions ->
    exists saved,
      saveSession session store = Some (sessionsOf saved) /\
      loadSessions (sessionsOf saved) = array saved /\
      findById (Session.id session) saved = Some session /\
      others (Session.id session) saved = others (Session.id session) sessions /\
      (hasId (Session.id session) sessions = true ->
       length saved = length sessions) /\
      (hasId (Session.id session) sessions = false ->
       saved = session :: sessions) /\
      saveSession session (sessionsOf saved) = Some (sessionsOf saved).
Proof.
  intros session store sessions Hload.
  rewrite (saveSession_array session store sessions Hload).
  destruct (hasId (Session.id session) sessions) eqn:Hhas.
  - exists (replaceFirst session sessions).
    split; [reflexivity|]. split; [reflexivity|].
    split; [now apply findById_replaceFirst|].
    split; [apply others_replaceFirst|].
    split; [intros _; apply length_replaceFirst|].
    split; [discriminate|].
    rewrite (saveSession_array session (sessionsOf (replaceFirst session sessions))
               (replaceFirst session sessions) eq_refl).
    now rewrite hasId_replaceFirst, Hhas, replaceFirst_again.
  - exists (session :: sessions).
    split; [reflexivity|]. split; [reflexivity|].
    split; [unfold findById; cbn; now rewrite strictEquals_refl|].
    split; [unfold others; cbn; now rewrite strictEquals_refl|].
    split; [discriminate|]. split; [reflexivity|].
    rewrite (saveSession_array session (sessionsOf (session :: sessions))
               (session :: sessions) eq_refl).
    unfold hasId. cbn. now rewrite strictEquals_refl.
Qed.

Lemma ids_replaceFirst (session : Session.t) (sessions : list Session.t) :
  ids (replaceFirst session sessions) = ids sessions.
Proof.
  unfold ids. induction sessions as [|s rest IH]; cbn; [reflexivity|].
  destruct (strictEquals (Session.id s) (Session.id session)) eqn:Hs; cbn.
  - apply strictEquals_eq in Hs. now rewrite Hs.
  - now rewrite IH.
Qed.

Lemma hasId_In (id : jsstring) (sessions : list Session.t) :
  hasId id sessions = true <-> In id (ids sessions).
Proof.
  unfold hasId, ids. rewrite existsb_exists, in_map_iff.
  split; intros (s & H1 & H2).
  - exists s. split; [now apply strictEquals_eq | exact H1].
  - exists s. split; [exact H2 | now apply strictEquals_eq].
Qed.

Lemma hasId_not_In (id : jsstring) (sessions : list Session.t) :
  hasId id sessions = false <-> ~ In id (ids sessions).
Proof.
  rewrite <- hasId_In. destruct (hasId id sessions); split; congruence.
Qed.

Lemma In_replaceFirst (session s : Session.t) (sessions : list Session.t) :
  In s (replaceFirst session sessions) -> s = session \/ In s sessions.
Proof.
  induction sessions as [|x rest IH]; cbn; [tauto|].
  destruct (strictEquals (Session.id x) (Session.id session)); cbn.
  - intros [H | H]; [left; congruence | right; now right].
  - intros [H | H]; [right; now left|].
    destruct (IH H); [now left | right; now right].
Qed.

Lemma replaceFirst_only (session s : Session.t) (sessions : list Session.t) :
  NoDup (ids sessions) ->
  In s (replaceFirst session sessions) ->
  Session.id s = Session.id session -> s = session.
Proof.
  unfold ids. induction sessions as [|x rest IH]; cbn; [tauto|].
  intros Hnd. inversion Hnd as [|? ? Hx Hrest]; subst.
  destruct (strictEquals (Session.id x) (Session.id session)) eqn:Hs; cbn.
  - apply strictEquals_eq in Hs.
    intros [H | H] Hid; [congruence|].
    exfalso. apply Hx. rewrite Hs, <- Hid. now apply in_map.
  - intros [H | H] Hid.
    + subst x. rewrite Hid, strictEquals_refl in Hs. discriminate.
    + now apply IH.
Qed.

Lemma ids_others (id : jsstring) (sessions : list Session.t) :
  ids (others id sessions) =
  filter (fun i => negb (strictEquals i id)) (ids sessions).
Proof.
  unfold ids, others. induction sessions as [|s rest IH]; cbn; [reflexivity|].
  destruct (strictEquals (Session.id s) id); cbn; now rewrite IH.
Qed.

Lemma NoDup_others (id : jsstring) (sessions : list Session.t) :
  NoDup (ids sessions) -> NoDup (ids (others id sessions)).
Proof.
  rewrite ids_others. apply NoDup_filter.
Qed.

Lemma findById_others (id : jsstring) (sessions : list Session.t) :
  findById id (others id sessions) = None.
Proof.
  unfold findById, others. induction sessions as [|s rest IH]; cbn; [reflexivity|].
  destruct (strictEquals (Session.id s) id) eqn:Hs; cbn; [exact IH|].
  now rewrite Hs.
Qed.

Lemma findById_others_neq (id id' : jsstring) (sessions : list Session.t) :
  id' <> id ->
  findById id' (others id sessions) = findById id' sessions.
Proof.
  intros Hne. unfold findById, others.
  induction sessions as [|s rest IH]; cbn; [reflexivity|].
  destruct (strictEquals (Session.id s) id) eqn:Hs; cbn.
  - apply strictEquals_eq in Hs.
    destruct (strictEquals (Session.id s) id') eqn:Hs'; [|exact IH].
    apply strictEquals_eq in Hs'. congruence.
  - now rewrite IH.
Qed.

Lemma others_again (id : jsstring) (sessions : list Session.t) :
  others id (others id sessions) = others id sessions.
Proof.
  unfold others. induction sessions as [|s rest IH]; cbn; [reflexivity|].
  destruct (strictEquals (Session.id s) id) eqn:Hs; cbn; [exact IH|].
  now rewrite Hs, IH.
Qed.

Lemma deleteSession_array (id : jsstring) (store : Item)
    (sessions : list Session.t) :
  loadSessions store = array sessions ->
  deleteSession id store = Some (sessionsOf (others id sessions)).
Proof.
  intros Hload. unfold deleteSession. now rewrite Hload.
Qed.

(** X12.  The ids of the stored sessions: [saveSession] changes at most one
    place of the array, so the list of ids stays as it is when the id is
    there and gets the new id in front otherwise.  Unique ids therefore stay
    unique, and then the saved session is the only one with its id. *)
Theorem X12_save_keeps_ids :
  forall (session : Session.t) (store : Item) (sessions : list Session.t),
    loadSessions store = array sessions ->
    exists saved,
      saveSession session store = Some (sessionsOf saved) /\
      ids saved =
        (if hasId (Session.id session) sessions then ids sessions
         else Session.id session :: ids sessions) /\
      (NoDup (ids sessions) ->
       NoDup (ids saved) /\
       forall s, In s saved -> Session.id s = Session.id session -> s = session).
Proof.
  intros session store sessions Hload.
  rewrite (saveSession_array session store sessions Hload).
  destruct (hasId (Session.id session) sessions) eqn:Hhas.
  - exists (replaceFirst session sessions).
    split; [reflexivity|]. split; [apply ids_replaceFirst|].
    intros Hnd. split; [now rewrite ids_replaceFirst|].
    intros s. now apply replaceFirst_only.
  - exists (session :: sessions).
    split; [reflexivity|]. split; [reflexivity|].
    apply hasId_not_In in Hhas.
    intros Hnd. split; [now constructor|].
    intros s [H | H] Hid; [congruence|].
    exfalso. apply Hhas. rewrite <- Hid. now apply in_map.
Qed.

(** X13.  [deleteSession] on a store that reads as an array: no session of
    that id is left (not one of several either), the sessions with other ids
    are found as before, a store without that id keeps its array, unique ids
    stay unique, and deleting once more changes nothing. *)
Theorem X13_delete_removes_id :
  forall (id : jsstring) (store : Item) (sessions : list Session.t),
    loadSessions store = array sessions ->
    exists kept,
      deleteSession id store = Some (sessionsOf kept) /\
      findById id kept = None /\
      (forall id', id' <> id -> findById id' kept = findById id' sessions) /\
      (hasId id sessions = false -> kept = sessions) /\
      (NoDup (ids sessions) -> NoDup (ids kept)) /\
      deleteSession id (sessionsOf kept) = Some (sessionsOf kept).
Proof.
  intros id store sessions Hload.
  exists (others id sessions).
  split; [now apply deleteSession_array|].
  split; [apply findById_others|].
  split; [intros id' Hne; now apply findById_others_neq|].
  split; [apply others_none|].
  split; [apply NoDup_others|].
  rewrite (deleteSession_array id (sessionsOf (others id sessions))
             (others id sessions) eq_refl).
  now rewrite others_again.
Qed.

(** X14.  [createSession] and then [deleteSession] of the new id: with an id
    that no stored session has, the new session is put in front of the
    array, it has no segments and the creation time as its time of update,
    and deleting it gives back the array that was there. *)
Theorem X14_create_then_delete :
  forall (now : Z) (uuid localeString : jsstring) (store : Item)
         (sessions : list Session.t),
    loadSessions store = array sessions ->
    hasId uuid sessions = false ->
    exists newSession,
      createSession now uuid localeString store =
        Some (newSession, sessionsOf (newSession :: sessions)) /\
      Session.id newSession = uuid /\
      Session.segments newSession = [] /\
      Session.updatedAt newSession = Session.createdAt newSession /\
      deleteSession uuid (sessionsOf (newSession :: sessions)) =
        Some (sessionsOf sessions).
Proof.
  intros now uuid localeString store sessions Hload Hfresh.
  eexists. unfold createSession.
  rewrite (saveSession_array _ store sessions Hload).
  cbn [Session.id]. rewrite Hfresh.
  split; [reflexivity|]. split; [reflexivity|].
  split; [reflexivity|]. split; [reflexivity|].
  unfold deleteSession. cbn. rewrite strictEquals_refl. cbn.
  fold (others uuid sessions). now rewrite others_none.
Qed.

Ltac compare_units :=
  repeat (match goal with
          | |- context [(?a <=? ?b)%N] => destruct (N.leb_spec a b)
          | |- context [(?a =? ?b)%N] => destruct (N.eqb_spec a b)
          | H : context [(?a <=? ?b)%N] |- _ => destruct (N.leb_spec a b)
          | H : context [(?a =? ?b)%N] |- _ => destruct (N.eqb_spec a b)
          end; cbn in *);
  try reflexivity; try discriminate; try lia.

Lemma isSafeChar_lower (c : N) :
  isSafeChar
    ((fun c => if (65 <=? c) && (c <=? 90) then c + 32 else c)
       ((fun c => if isAlphanumeric c then c else 95) c))%N = true.
Proof.
  cbv beta. unfold isAlphanumeric, isSafeChar. compare_units.
Qed.

Lemma safe_fixed (c : N) :
  isSafeChar c = true ->
  ((fun c => if (65 <=? c) && (c <=? 90) then c + 32 else c)
     ((fun c => if isAlphanumeric c then c else 95) c))%N = c.
Proof.
  cbv beta. unfold isAlphanumeric, isSafeChar. intros H. compare_units.
Qed.

Lemma stem_safe (name : jsstring) :
  forallb isSafeChar (toLowerCase (replaceOthers name)) = true.
Proof.
  unfold toLowerCase, replaceOthers. rewrite map_map.
  induction name as [|c name IH]; cbn [map forallb]; [reflexivity|].
  now rewrite IH, (isSafeChar_lower c).
Qed.

Lemma stem_fixed (name : jsstring) :
  forallb isSafeChar name = true ->
  toLowerCase (replaceOthers name) = name.
Proof.
  unfold toLowerCase, replaceOthers. rewrite map_map.
  induction name as [|c name IH]; cbn [map forallb]; [reflexivity|].
  rewrite andb_true_iff. intros [Hc Hname].
  now rewrite IH, (safe_fixed c Hc).
Qed.

(** X15.  The file name of a download: whatever the name of the session, the
    name before the ending [.json] has as many characters as the session's
    name, all of them lower-case ASCII letters, digits or underscores (so no
    separator of a path, no dot and no blank); and a name that is made of
    such characters only is kept as it is. *)
Theorem X15_download_name_safe :
  forall session : Session.t,
    exists stem,
      downloadName session = stem ++ js ".json" /\
      length stem = length (Session.name session) /\
      forallb isSafeChar stem = true /\
      (forallb isSafeChar (Session.name session) = true ->
       stem = Session.name session).
Proof.
  intros session. exists (toLowerCase (replaceOthers (Session.name session))).
  split; [reflexivity|].
  split; [unfold toLowerCase, replaceOthers; now rewrite !length_map|].
  split; [apply stem_safe | apply stem_fixed].
Qed.

Lemma X11_witness :
  exists saved,
    saveSession bSession (sessionsOf [aSession]) = Some (sessionsOf saved) /\
    findById (js "b") saved = Some bSession /\
    saved = [bSession; aSession].
Proof.
  destruct (X11_save_then_load bSession (sessionsOf [aSession]) [aSession] eq_refl)
    as (saved & Hsave & _ & Hfind & _ & _ & Hnew & _).
  exists saved. split; [exact Hsave|]. split; [exact Hfind|].
  exact (Hnew eq_refl).
Defined.

Lemma X12_witness :
  exists saved,
    saveSession aSession (sessionsOf [aSession; bSession]) =
      Some (sessionsOf saved) /\
    ids saved = [js "a"; js "b"].
Proof.
  destruct (X12_save_keeps_ids aSession (sessionsOf [aSession; bSession])
              [aSession; bSession] eq_refl) as (saved & Hsave & Hids & _).
  exists saved. split; [exact Hsave | exact Hids].
Defined.

Lemma X13_witness :
  exists kept,
    deleteSession (js "a") (sessionsOf [aSession; bSession]) =
      Some (sessionsOf kept) /\
    findById (js "a") kept = None /\
    findById (js "b") kept = Some bSession.
Proof.
  destruct (X13_delete_removes_id (js "a") (sessionsOf [aSession; bSession])
              [aSession; bSession] eq_refl)
    as (kept & Hdelete & Hgone & Hothers & _).
  exists kept. split; [exact Hdelete|]. split; [exact Hgone|].
  rewrite (Hothers (js "b")); [reflexivity|]. discriminate.
Defined.

Lemma X14_witness :
  exists newSession,
    createSession 7 (js "c") (js "1.1.2025") malformed =
      Some (newSession, sessionsOf [newSession]) /\
    deleteSession (js "c") (sessionsOf [newSession]) = Some (sessionsOf []).
Proof.
  destruct (X14_create_then_delete 7 (js "c") (js "1.1.2025") malformed []
              eq_refl eq_refl) as (newSession & Hcreate & _ & _ & _ & Hdelete).
  exists newSession. split; [exact Hcreate | exact Hdelete].
Defined.

(* ================================================================== *)
(** * Properties of the page *)
(* ================================================================== *)

Import JS Types Storage App.

(** With unique ids, replacing every session of an id is replacing the first
    one. *)
Lemma map_replaceFirst (session : Session.t) (sessions : list Session.t) :
  NoDup (ids sessions) ->
  map (fun s => if strictEquals (Session.id s) (Session.id session)
                then session else s) sessions =
  replaceFirst session sessions.
Proof.
  unfold ids. induction sessions as [|s rest IH]; cbn; [reflexivity|].
  intros Hnd. inversion Hnd as [|? ? Hs Hrest]; subst.
  destruct (strictEquals (Session.id s) (Session.id session)) eqn:Heq.
  - f_equal. apply strictEquals_eq in Heq.
    clear IH Hnd Hrest. induction rest as [|x rest IH]; cbn; [reflexivity|].
    destruct (strictEquals (Session.id x) (Session.id session)) eqn:Hx.
    + apply strictEquals_eq in Hx. exfalso. apply Hs. left. congruence.
    + f_equal. apply IH. intros Hin. apply Hs. now right.
  - f_equal. now apply IH.
Qed.

Lemma hasId_others (id id' : jsstring) (sessions : list Session.t) :
  id' <> id -> hasId id' (others id sessions) = hasId id' sessions.
Proof.
  intros Hne. unfold hasId, others.
  induction sessions as [|s rest IH]; cbn; [reflexivity|].
  destruct (strictEquals (Session.id s) id) eqn:Hs; cbn.
  - destruct (strictEquals (Session.id s) id') eqn:Hs'; [|exact IH].
    apply strictEquals_eq in Hs, Hs'. congruence.
  - now rewrite IH.
Qed.

Lemma hasId_ids (id : jsstring) (a b : list Session.t) :
  ids a = ids b -> hasId id a = hasId id b.
Proof.
  intros Hids.
  destruct (hasId id a) eqn:Ha, (hasId id b) eqn:Hb; try reflexivity.
  - apply hasId_In in Ha. rewrite Hids in Ha. apply hasId_In in Ha. congruence.
  - apply hasId_In in Hb. rewrite <- Hids in Hb. apply hasId_In in Hb. congruence.
Qed.

Lemma handle_inSync (a : Action) (w : World) :
  inSync w -> offered a (fst w) = true ->
  exists w', handle a w = Some w' /\ inSync w'.
Proof.
  destruct w as [st store]. intros (Hload & Hnd & Hsel) Hoff.
  cbn [fst snd] in *. destruct a as [now uuid ls | id | id | updated | open];
    cbn [handle offered] in *.
  - apply negb_true_iff in Hoff. unfold handleCreateSession, createSession.
    rewrite (saveSession_array _ store (sessions st) Hload).
    cbn [Session.id]. rewrite Hoff. eexists. split; [reflexivity|].
    split; [reflexivity|]. cbn [fst snd sessions selectedSessionId].
    split.
    + cbn. constructor; [now apply hasId_not_In | exact Hnd].
    + intros id [= <-]. unfold hasId. cbn. now rewrite strictEquals_refl.
  - unfold handleDeleteSession.
    rewrite (deleteSession_array id store (sessions st) Hload).
    eexists. split; [reflexivity|]. split; [reflexivity|].
    cbn [fst snd sessions selectedSessionId]. fold (others id (sessions st)).
    split; [now apply NoDup_others|].
    intros id' Hid'. destruct (selectedSessionId st) as [selected|] eqn:Hs;
      [|discriminate].
    destruct (strictEquals selected id) eqn:Heq; [discriminate|].
    injection Hid' as <-. rewrite hasId_others; [now apply Hsel|].
    intros ->. now rewrite strictEquals_refl in Heq.
  - eexists. split; [reflexivity|]. unfold handleSelectSession.
    split; [exact Hload|]. split; [exact Hnd|].
    cbn. now intros id' [= <-].
  - unfold handleUpdateSession.
    rewrite (saveSession_array updated store (sessions st) Hload), Hoff.
    eexists. split; [reflexivity|].
    unfold inSync. cbn [fst snd sessions selectedSessionId].
    rewrite (map_replaceFirst updated (sessions st) Hnd).
    split; [reflexivity|]. split; [now rewrite ids_replaceFirst|].
    intros id' Hid'.
    rewrite (hasId_ids id' _ (sessions st) (ids_replaceFirst updated (sessions st))).
    now apply Hsel.
  - eexists. split; [reflexivity|]. unfold setIsSidebarOpen.
    split; [exact Hload|]. split; [exact Hnd | exact Hsel].
Qed.

Lemma handleAll_inSync (actions : list Action) :
  forall w : World,
    inSync w -> offeredAll actions w = true ->
    exists w', handleAll actions w = Some w' /\ inSync w'.
Proof.
  induction actions as [|a rest IH]; intros w Hsync Hoff.
  - exists w. now split.
  - cbn [offeredAll] in Hoff. apply andb_true_iff in Hoff as [Ha Hrest].
    destruct (handle_inSync a w Hsync Ha) as (w1 & Hw1 & Hsync1).
    cbn [handleAll]. rewrite Hw1 in *. now apply IH.
Qed.

Lemma find_hasId (id : jsstring) (sessions : list Session.t) :
  hasId id sessions = true ->
  exists s, find (fun s => strictEquals (Session.id s) id) sessions = Some s /\
            Session.id s = id.
Proof.
  unfold hasId. induction sessions as [|x rest IH]; cbn; [discriminate|].
  destruct (strictEquals (Session.id x) id) eqn:Hx; cbn.
  - intros _. exists x. split; [reflexivity | now apply strictEquals_eq].
  - exact IH.
Qed.

(** X16.  The page and its storage stay in step.  From a storage that reads
    as an array of sessions with unique ids, after the mount and any actions
    that the page offers (creation under a new id; deletion of any id;
    selection and update of listed sessions; the side bar), no handler
    throws, the storage reads as exactly the sessions that are listed, in
    their order, the ids are still unique, and a selected id always names a
    listed session. *)
Theorem X16_page_and_storage_in_step :
  forall (store : Item) (loaded : list Session.t) (actions : list Action),
    loadSessions store = array loaded ->
    NoDup (ids loaded) ->
    exists st,
      mount store = Some st /\
      (offeredAll actions (st, store) = true ->
       exists st' store',
         handleAll actions (st, store) = Some (st', store') /\
         loadSessions store' = array (sessions st') /\
         NoDup (ids (sessions st')) /\
         (selectedSessionId st' = None \/
          exists s, selectedSession st' = Some s /\
                    selectedSessionId st' = Some (Session.id s))).
Proof.
  intros store loaded actions Hload Hnd. unfold mount. rewrite Hload.
  eexists. split; [reflexivity|]. intros Hoff.
  assert (Hsync : inSync ({| sessions := loaded; selectedSessionId := None;
                             isSidebarOpen := false |}, store)).
  { split; [exact Hload|]. split; [exact Hnd|]. cbn. discriminate. }
  destruct (handleAll_inSync actions _ Hsync Hoff)
    as ([st' store'] & Hrun & Hl & Hn & Hs).
  exists st', store'. cbn [fst snd] in *.
  split; [exact Hrun|]. split; [exact Hl|]. split; [exact Hn|].
  unfold selectedSession.
  destruct (selectedSessionId st') as [id|] eqn:Hid; [right | now left].
  destruct (find_hasId id (sessions st') (Hs id eq_refl)) as (s & Hfind & Hsid).
  exists s. split; [exact Hfind | now rewrite Hsid].
Qed.

Lemma X16_witness :
  exists st',
    handleAll [create 7 (js "c") (js "1.1.2025"); select (js "a");
               update bSession; delete (js "a")]
              ({| sessions := [aSession; bSession]; selectedSessionId := None;
                  isSidebarOpen := false |},
               sessionsOf [aSession; bSession]) =
      Some (st', sessionsOf (sessions st')) /\
    selectedSessionId st' = None.
Proof.
  assert (Hnd : NoDup (ids [aSession; bSession])).
  { constructor; [|constructor; [|constructor]].
    - intros [H | []]. discriminate H.
    - intros []. }
  destruct (X16_page_and_storage_in_step (sessionsOf [aSession; bSession])
              [aSession; bSession]
              [create 7 (js "c") (js "1.1.2025"); select (js "a");
               update bSession; delete (js "a")] eq_refl Hnd)
    as (st & Hmount & Hrun).
  injection Hmount as <-.
  destruct (Hrun eq_refl) as (st' & store' & Hall & _).
  exists st'. rewrite Hall. injection Hall as <- <-.
  split; reflexivity.
Defined.

(* ================================================================== *)
(** * Properties of the view, the page and the storage together *)
(* ================================================================== *)

Import JS Segmentation JSFacts GeminiLiveService ServiceFacts.
Import Types Storage App SessionView.

Lemma trimStart_suffix (s : jsstring) : exists w, s = w ++ trimStart s.
Proof.
  induction s as [|c s [w IH]]; [now exists []|].
  cbn [trimStart]. destruct (isWhiteSpace c).
  - exists (c :: w). cbn. now f_equal.
  - now exists [].
Qed.

Lemma trimEnd_prefix (s : jsstring) : exists w, s = trimEnd s ++ w.
Proof.
  unfold trimEnd. destruct (trimStart_suffix (rev s)) as [w Hw].
  exists (rev w). rewrite <- rev_app_distr, <- Hw. now rewrite rev_involutive.
Qed.

Lemma trim_idem (s : jsstring) : trim (trim s) = trim s.
Proof.
  unfold trim.
  rewrite (trimStart_fixed (s := trimEnd (trimStart s))).
  - apply trimEnd_idem.
  - intros c r Hcr. destruct (trimEnd_prefix (trimStart s)) as [w Hw].
    rewrite Hcr in Hw. cbn in Hw.
    exact (trimStart_head s Hw).
Qed.

(** What [handleTranscription] does for a final segment and for a preview. *)
Lemma deliver_cons_final (env : nat -> Fresh) (k : nat) (cb : TranscriptionCallback)
    (t : jsstring) (rest : list Call) (v : View) :
  deliver env k (onTranscriptionCall cb t true :: rest) v =
  (fst (deliver env (S k) rest (fst (handleTranscription (env k) t true v))),
   snd (handleTranscription (env k) t true v) ++
   snd (deliver env (S k) rest (fst (handleTranscription (env k) t true v)))).
Proof.
  cbn [deliver]. destruct (handleTranscription (env k) t true v) as [v1 u1].
  cbn [fst snd]. now destruct (deliver env (S k) rest v1).
Qed.

Lemma deliver_cons_preview (env : nat -> Fresh) (k : nat)
    (cb : TranscriptionCallback) (t : jsstring) (rest : list Call) (v : View) :
  deliver env k (onTranscriptionCall cb t false :: rest) v =
  deliver env k rest (set_liveTranscript t v).
Proof.
  cbn [deliver handleTranscription]. now destruct (deliver env k rest _).
Qed.

(** The segments that the view holds after a delivery, and the updates that
    it has sent. *)
Lemma deliver_spec (env : nat -> Fresh) (calls : list Call) :
  forall (k : nat) (v : View),
    let v' := fst (deliver env k calls v) in
    let updates := snd (deliver env k calls v) in
    sessionRef v' = sessionRef v /\
    texts (localSegmentsRef v') =
      texts (localSegmentsRef v) ++ map trim (finalSegments calls) /\
    Forall (fun u => Session.id u = Session.id (sessionRef v)) updates /\
    length updates = length (finalSegments calls) /\
    (updates = [] -> localSegmentsRef v' = localSegmentsRef v) /\
    (forall u, updates <> [] ->
               Session.segments (last updates u) = localSegmentsRef v' /\
               renderedSegments v' = localSegmentsRef v').
Proof.
  induction calls as [|c rest IH]; intros k v; cbn zeta.
  - cbn. rewrite app_nil_r. repeat split; try constructor; congruence.
  - destruct c as [cb t [|] | | | | | | | | | ];
      try exact (IH k v); try exact (IH k (handleError v)).
    + rewrite deliver_cons_final.
      set (v1 := fst (handleTranscription (env k) t true v)).
      destruct (IH (S k) v1) as (Href & Htexts & Hids & Hcount & Hnone & Hlast).
      cbn [fst snd handleTranscription finalSegments flat_map app map].
      fold (finalSegments rest). fold v1.
      split; [exact Href|].
      split.
      { rewrite Htexts. unfold v1, texts. cbn. rewrite map_app. cbn.
        now rewrite <- app_assoc. }
      split; [constructor; [reflexivity | exact Hids]|].
      split; [cbn [length]; now rewrite Hcount|].
      split; [discriminate|].
      intros u _.
      destruct (snd (deliver env (S k) rest v1)) as [|u1 more] eqn:Hmore.
      * rewrite (Hnone eq_refl). cbn [last].
        split; [reflexivity|].
        assert (Hkeep : forall (calls : list Call) (k : nat) (v : View),
                   snd (deliver env k calls v) = [] ->
                   renderedSegments (fst (deliver env k calls v)) =
                   renderedSegments v).
        { clear. induction calls as [|c calls IH]; intros k v; [reflexivity|].
          destruct c as [cb t [|] | | | | | | | | | ];
            try exact (IH k v); try exact (IH k (handleError v)).
          - rewrite deliver_cons_final. cbn. discriminate.
          - rewrite deliver_cons_preview. exact (IH k _). }
        rewrite (Hkeep rest (S k) v1 Hmore). reflexivity.
      * destruct (Hlast u ltac:(discriminate)) as [Hseg Hren].
        split; [|exact Hren].
        rewrite <- Hseg. cbn [app]. reflexivity.
    + rewrite deliver_cons_preview. exact (IH k (set_liveTranscript t v)).
Qed.

Lemma findById_saved (session : Session.t) (listed : list Session.t) :
  findById (Session.id session)
    (if hasId (Session.id session) listed
     then replaceFirst session listed else session :: listed) = Some session.
Proof.
  destruct (hasId (Session.id session) listed) eqn:Hhas.
  - now apply findById_replaceFirst.
  - unfold findById. cbn. now rewrite strictEquals_refl.
Qed.

(** Updates of one session, forwarded to [App]: the storage ends with the
    last of them under their id. *)
Lemma forward_same_id (id : jsstring) (updates : list Session.t) :
  forall (st : App.State) (store : Item) (listed : list Session.t),
    Forall (fun u => Session.id u = id) updates ->
    loadSessions store = array listed ->
    exists st' store' stored,
      forward updates (st, store) = Some (st', store') /\
      loadSessions store' = array stored /\
      sessions st' =
        fold_left (fun l u =>
                     map (fun s => if strictEquals (Session.id s) (Session.id u)
                                   then u else s) l)
                  updates (sessions st) /\
      forall u, updates <> [] -> findById id stored = Some (last updates u).
Proof.
  unfold forward.
  induction updates as [|u rest IH]; intros st store listed Hids Hload.
  - exists st, store, listed. repeat split; try assumption. congruence.
  - inversion Hids as [|? ? Hu Hrest]; subst.
    cbn [map handleAll handle]. unfold handleUpdateSession.
    rewrite (saveSession_array u store listed Hload).
    set (saved := if hasId (Session.id u) listed
                  then replaceFirst u listed else u :: listed).
    set (st1 := {| sessions := _ |}).
    destruct (IH st1 (sessionsOf saved) saved Hrest eq_refl)
      as (st' & store' & stored & Hrun & Hload' & Hmem & Hlast).
    exists st', store', stored.
    split; [exact Hrun|]. split; [exact Hload'|].
    split; [exact Hmem|].
    intros d _. destruct rest as [|u2 rest'].
    + cbn in Hrun. injection Hrun as <- <-. cbn in Hload'.
      injection Hload' as <-. cbn [last]. apply findById_saved.
    + change (last (u :: u2 :: rest') d) with (last (u2 :: rest') d).
      apply Hlast. discriminate.
Qed.

(** X17.  Final segments reach the storage.  Whatever calls the service
    object makes in one run, the view appends one segment for each final
    segment, with its text trimmed, in the order of the calls, and sends one
    update for each; forwarded to [App] on a storage that reads as an array,
    no update throws, and if there was a final segment the storage then holds,
    under the id of the session shown, a session whose segments are exactly
    the segments of the view, which are also the ones it renders. *)
Theorem X17_final_segments_reach_storage :
  forall (env : nat -> Fresh) (calls : list Call) (v : View)
         (st : App.State) (store : Item) (listed : list Session.t),
    loadSessions store = array listed ->
    exists v' updates st' store' stored,
      deliver env 0 calls v = (v', updates) /\
      texts (localSegmentsRef v') =
        texts (localSegmentsRef v) ++ map trim (finalSegments calls) /\
      length updates = length (finalSegments calls) /\
      forward updates (st, store) = Some (st', store') /\
      loadSessions store' = array stored /\
      (finalSegments calls <> [] ->
       renderedSegments v' = localSegmentsRef v' /\
       exists saved,
         findById (Session.id (sessionRef v)) stored = Some saved /\
         Session.segments saved = localSegmentsRef v').
Proof.
  intros env calls v st store listed Hload.
  destruct (deliver_spec env calls 0 v)
    as (Href & Htexts & Hids & Hcount & Hnone & Hlast).
  destruct (deliver env 0 calls v) as [v' updates] eqn:Hdeliver.
  cbn [fst snd] in *.
  destruct (forward_same_id (Session.id (sessionRef v)) updates st store listed
              Hids Hload) as (st' & store' & stored & Hrun & Hload' & _ & Hfind).
  exists v', updates, st', store', stored.
  split; [reflexivity|]. split; [exact Htexts|]. split; [exact Hcount|].
  split; [exact Hrun|]. split; [exact Hload'|].
  intros Hfinals.
  assert (Hsome : updates <> []).
  { intros ->. cbn in Hcount. destruct (finalSegments calls); [congruence|].
    discriminate. }
  destruct (Hlast (sessionRef v) Hsome) as [Hseg Hren].
  split; [exact Hren|].
  exists (last updates (sessionRef v)).
  split; [now apply Hfind | exact Hseg].
Qed.

Lemma deliver_flush (env : nat -> Fresh) (this : Service)
    (cb : TranscriptionCallback) (v : View) :
  onTranscription this = Some cb ->
  isConnected this = true ->
  blank (currentOutputText this) = false ->
  let flushed :=
    {| TranscriptSegment.id := newId (env 0%nat);
       TranscriptSegment.text := trim (currentOutputText this);
       TranscriptSegment.timestamp := timestamp (env 0%nat);
       TranscriptSegment.isFinal := true |} in
  let updated :=
    {| Session.id := Session.id (sessionRef v);
       Session.name := Session.name (sessionRef v);
       Session.createdAt := Session.createdAt (sessionRef v);
       Session.updatedAt := updatedAt (env 0%nat);
       Session.inputLanguage := Session.inputLanguage (sessionRef v);
       Session.outputLanguage := Session.outputLanguage (sessionRef v);
       Session.segments := localSegmentsRef v ++ [flushed] |} in
  exists v',
    deliver env 0 (snd (disconnect this)) v = (v', [updated]) /\
    sessionRef v' = sessionRef v /\
    isRecording v' = isRecording v /\
    localSegmentsRef v' = localSegmentsRef v ++ [flushed] /\
    renderedSegments v' = localSegmentsRef v ++ [flushed].
Proof.
  intros Hcb Hconn Hblank. cbn zeta.
  rewrite disconnect_calls, Hcb, Hconn, Hblank. cbn [andb negb app].
  unfold final. rewrite deliver_cons_final.
  assert (Hquiet : forall (calls : list Call) (k : nat) (w : View),
             quiet calls = true -> deliver env k calls w = (w, [])).
  { induction calls as [|c calls IH]; intros k w; [reflexivity|].
    cbn [quiet forallb]. rewrite andb_true_iff. intros [Hc Hrest].
    destruct c; try discriminate; cbn [deliver]; now apply IH. }
  rewrite (Hquiet _ _ _ (releases_no_callback this)).
  cbn [fst snd handleTranscription]. rewrite trim_idem, app_nil_r.
  eexists. split; [reflexivity|]. now repeat split.
Qed.

Lemma map_update_absent (u : Session.t) (listed : list Session.t) :
  hasId (Session.id u) listed = false ->
  map (fun s => if strictEquals (Session.id s) (Session.id u) then u else s)
      listed = listed.
Proof.
  unfold hasId. induction listed as [|s rest IH]; cbn; [reflexivity|].
  rewrite orb_false_iff. intros [Hs Hrest]. now rewrite Hs, IH.
Qed.

Lemma hasId_others_same (id : jsstring) (listed : list Session.t) :
  hasId id (others id listed) = false.
Proof.
  unfold hasId, others. induction listed as [|s rest IH]; cbn; [reflexivity|].
  destruct (strictEquals (Session.id s) id) eqn:Hs; cbn; [exact IH|].
  now rewrite Hs.
Qed.

(** X18.  Stopping a recording while a text waits in the output buffer.
    [disconnect] hands the text to the view as a final segment, the view
    appends and renders it and sends the update; then [toggleRecording] sends
    a second update made from [sessionRef.current], which is still the
    session of the last render.  No update throws, and the storage ends with
    the segments of that earlier session under the session's id: when the
    view was in step with its session before, the stored session lacks the
    segment that the view shows last. *)
Theorem X18_stop_stores_the_session_of_the_last_render :
  forall (env : nat -> Fresh) (now : Z) (v : View) (this : Service)
         (cb : TranscriptionCallback) (st : App.State) (store : Item)
         (listed : list Session.t),
    isRecording v = true ->
    onTranscription this = Some cb ->
    isConnected this = true ->
    blank (currentOutputText this) = false ->
    loadSessions store = array listed ->
    exists v' updates flushed st' store' stored saved,
      toggleRecording env now v this = stopped v' newService updates /\
      localSegmentsRef v' = localSegmentsRef v ++ [flushed] /\
      renderedSegments v' = localSegmentsRef v' /\
      TranscriptSegment.text flushed = trim (currentOutputText this) /\
      forward updates (st, store) = Some (st', store') /\
      loadSessions store' = array stored /\
      findById (Session.id (sessionRef v)) stored = Some saved /\
      Session.segments saved = Session.segments (sessionRef v) /\
      (Session.segments (sessionRef v) = localSegmentsRef v ->
       localSegmentsRef v' = Session.segments saved ++ [flushed]).
Proof.
  intros env now v this cb st store listed Hrec Hcb Hconn Hblank Hload.
  destruct (deliver_flush env this cb v Hcb Hconn Hblank)
    as (v1 & Hdeliver & Href & _ & Hlocal & Hren).
  cbn zeta in *.
  unfold toggleRecording. rewrite Hrec, (disconnect_eq this), Hdeliver.
  cbn [sessionRef set_liveTranscript set_status set_isRecording].
  match goal with
  | |- context [stopped ?w newService ?us] =>
      set (v' := w); set (updates := us)
  end.
  assert (Hids : Forall (fun u => Session.id u = Session.id (sessionRef v))
                        updates).
  { unfold updates. rewrite Href.
    constructor; [reflexivity|]. constructor; [reflexivity | constructor]. }
  destruct (forward_same_id (Session.id (sessionRef v)) updates st store listed
              Hids Hload) as (st' & store' & stored & Hrun & Hload' & _ & Hfind).
  eexists v', updates, _, st', store', stored, (touched now (sessionRef v)).
  split; [reflexivity|].
  split; [exact Hlocal|].
  split; [unfold v'; cbn; now rewrite Hren, Hlocal|].
  split; [reflexivity|].
  split; [exact Hrun|]. split; [exact Hload'|].
  split.
  { rewrite (Hfind (sessionRef v) ltac:(discriminate)).
    unfold updates. cbn [app last]. now rewrite Href. }
  split; [reflexivity|].
  intros Hstep. unfold v'. cbn. now rewrite Hlocal, Hstep.
Qed.

(** X19.  Deleting the session that is being recorded.  [handleDeleteSession]
    takes the session out of the storage and out of the list; the view then
    leaves the page and its clean-up disconnects the service object, which
    flushes the text that waits in its output buffer to the view, and the
    update that the view sends saves the session again: the storage ends with
    the deleted session in front, with the flushed text as its last segment,
    while the list of the page does not have it. *)
Theorem X19_delete_while_recording_saves_again :
  forall (env : nat -> Fresh) (v : View) (this : Service)
         (cb : TranscriptionCallback) (st : App.State) (store : Item)
         (listed : list Session.t),
    onTranscription this = Some cb ->
    isConnected this = true ->
    blank (currentOutputText this) = false ->
    loadSessions store = array listed ->
    let id := Session.id (sessionRef v) in
    exists st1 v' updates st2 saved,
      handleDeleteSession id (st, store) =
        Some (st1, sessionsOf (others id listed)) /\
      cleanup env v this = (v', newService, updates) /\
      forward updates (st1, sessionsOf (others id listed)) =
        Some (st2, sessionsOf (saved :: others id listed)) /\
      Session.id saved = id /\
      texts (Session.segments saved) =
        texts (localSegmentsRef v) ++ [trim (currentOutputText this)] /\
      sessions st2 = others id (sessions st) /\
      hasId id (sessions st2) = false.
Proof.
  intros env v this cb st store listed Hcb Hconn Hblank Hload. cbn zeta.
  destruct (deliver_flush env this cb v Hcb Hconn Hblank)
    as (v1 & Hdeliver & Href & _ & Hlocal & Hren).
  cbn zeta in *.
  match type of Hdeliver with
  | _ = (_, [?x]) => set (u := x) in *
  end.
  assert (Hu : Session.id u = Session.id (sessionRef v)) by reflexivity.
  unfold handleDeleteSession.
  rewrite (deleteSession_array _ store listed Hload).
  unfold cleanup. rewrite (disconnect_eq this), Hdeliver.
  eexists _, v1, [u], _, u.
  split; [reflexivity|]. split; [reflexivity|].
  unfold forward. cbn [map handleAll handle]. unfold handleUpdateSession.
  rewrite (saveSession_array u (sessionsOf (others (Session.id (sessionRef v)) listed))
             (others (Session.id (sessionRef v)) listed) eq_refl).
  assert (Habsent : forall l,
             hasId (Session.id u) (others (Session.id (sessionRef v)) l) = false)
    by (intros l; apply hasId_others_same).
  rewrite Habsent.
  split; [reflexivity|]. split; [reflexivity|].
  split.
  { unfold u. cbn [Session.segments]. unfold texts. rewrite map_app. reflexivity. }
  cbn [sessions].
  fold (others (Session.id (sessionRef v)) (sessions st)).
  rewrite (map_update_absent u _ (Habsent (sessions st))).
  split; [reflexivity | apply hasId_others_same].
Qed.

Lemma X17_witness :
  exists v' updates st' store',
    deliver anEnv 0 [final 1 (js "Guten Tag."); preview 1 (js "Wie")]
            (mountView aSession) = (v', updates) /\
    texts (localSegmentsRef v') = [js "Guten Tag."] /\
    forward updates
      ({| sessions := [aSession]; selectedSessionId := Some (js "a");
          isSidebarOpen := false |}, sessionsOf [aSession]) =
      Some (st', store').
Proof.
  destruct (X17_final_segments_reach_storage anEnv
              [final 1 (js "Guten Tag."); preview 1 (js "Wie")]
              (mountView aSession)
              {| sessions := [aSession]; selectedSessionId := Some (js "a");
                 isSidebarOpen := false |}
              (sessionsOf [aSession]) [aSession] eq_refl)
    as (v' & updates & st' & store' & stored & Hd & Ht & _ & Hf & _).
  exists v', updates, st', store'.
  split; [exact Hd|]. split; [exact Ht | exact Hf].
Defined.

Lemma X18_witness :
  exists v' updates st' store' stored saved,
    toggleRecording anEnv 9 (set_isRecording true (mountView aSession)) pending =
      stopped v' newService updates /\
    texts (localSegmentsRef v') = [js "Guten Tag"] /\
    forward updates
      ({| sessions := [aSession]; selectedSessionId := Some (js "a");
          isSidebarOpen := false |}, sessionsOf [aSession]) =
      Some (st', store') /\
    loadSessions store' = array stored /\
    findById (js "a") stored = Some saved /\
    Session.segments saved = [].
Proof.
  destruct (X18_stop_stores_the_session_of_the_last_render anEnv 9
              (set_isRecording true (mountView aSession)) pending 1
              {| sessions := [aSession]; selectedSessionId := Some (js "a");
                 isSidebarOpen := false |}
              (sessionsOf [aSession]) [aSession]
              eq_refl eq_refl eq_refl eq_refl eq_refl)
    as (v' & updates & flushed & st' & store' & stored & saved
        & Ht & Hl & _ & Htext & Hf & Hs & Hfind & Hseg & _).
  exists v', updates, st', store', stored, saved.
  split; [exact Ht|].
  split; [rewrite Hl; unfold texts; cbn; now rewrite Htext|].
  split; [exact Hf|]. split; [exact Hs|]. split; [exact Hfind | exact Hseg].
Defined.

Lemma X19_witness :
  exists st1 v' updates st2 saved,
    handleDeleteSession (js "a")
      ({| sessions := [aSession]; selectedSessionId := Some (js "a");
          isSidebarOpen := false |}, sessionsOf [aSession]) =
      Some (st1, sessionsOf []) /\
    cleanup anEnv (mountView aSession) pending = (v', newService, updates) /\
    forward updates (st1, sessionsOf []) = Some (st2, sessionsOf [saved]) /\
    texts (Session.segments saved) = [js "Guten Tag"] /\
    sessions st2 = [].
Proof.
  destruct (X19_delete_while_recording_saves_again anEnv (mountView aSession)
              pending 1
              {| sessions := [aSession]; selectedSessionId := Some (js "a");
                 isSidebarOpen := false |}
              (sessionsOf [aSession]) [aSession]
              eq_refl eq_refl eq_refl eq_refl)
    as (st1 & v' & updates & st2 & saved & Hd & Hc & Hf & _ & Ht & Hs & _).
  exists st1, v', updates, st2, saved.
  split; [exact Hd|]. split; [exact Hc|]. split; [exact Hf|].
  split; [exact Ht | exact Hs].
Defined.
